(** * BoostedPP: a shallow embedding of the CSV loader, the binner, the
      histograms, the split finder, the tree builder, training,
      cross-validation, the prediction path and the native JSON format.

    Source files embedded here:
    - [data.hpp] / [data.cpp]       : [BinInfo], [DataMatrix] (raw-data
                                      constructor, [load_csv],
                                      [create_bins], [apply_bins])
    - [simd_utils.cpp]              : [simd::compute_histogram],
                                      [simd::compute_gradient_histogram]
                                      and [simd::find_best_split] (scalar
                                      fallback and the AVX2 variant)
    - [tree.hpp] / [tree.cpp]       : [SplitInfo], [TreeNode], [Tree]
    - [config.hpp] / [config.cpp]   : [GBDTConfig]
    - [gbdt.hpp] / [gbdt.cpp]       : [GBDT] ([train], [predict], [cv])
    - [serialization.cpp]           : [save_model_to_json] (the
                                      loaders are ill-formed C++ and
                                      are left out)

    C++ [float] is IEEE-754 binary32; it is modelled by the Standard
    Library's executable specification [spec_float] at precision 24 and
    maximal exponent 128, so every arithmetic step below rounds exactly as
    the compiled code does (round-to-nearest-even, no contraction). *)

From Stdlib Require Import ZArith NArith List Bool Lia String.
From Stdlib Require Import Floats.SpecFloat.
From stdpp Require Import base option list gmap strings.
Import ListNotations.

Set Default Proof Using "Type".

(* ===================================================================== *)
(** ** binary32 arithmetic *)
(* ===================================================================== *)

Module F32.

Definition prec : Z := 24.
Definition emax : Z := 128.

Definition float : Type := spec_float.

Definition add : float -> float -> float := SFadd prec emax.
Definition sub : float -> float -> float := SFsub prec emax.
Definition mul : float -> float -> float := SFmul prec emax.
Definition div : float -> float -> float := SFdiv prec emax.
Definition neg : float -> float := SFopp.

(** C++ [a < b], [a <= b], [a == b]; [a > b] is [ltb b a] and
    [a >= b] is [leb b a].  Every comparison with a NaN is false. *)
Definition ltb : float -> float -> bool := SFltb.
Definition leb : float -> float -> bool := SFleb.
Definition eqb : float -> float -> bool := SFeqb.
Definition gtb (a b : float) : bool := ltb b a.
Definition geb (a b : float) : bool := leb b a.

(** [std::isnan] *)
Definition is_nan (x : float) : bool :=
  match x with S754_nan => true | _ => false end.

Definition is_finite (x : float) : bool :=
  match x with S754_zero _ | S754_finite _ _ _ => true | _ => false end.

(** Conversion of an integer to [float] (as for [size_t] operands). *)
Definition of_Z (z : Z) : float := binary_normalize prec emax z 0 false.
Definition of_nat (n : nat) : float := of_Z (Z.of_nat n).

Definition zero : float := S754_zero false.
Definition one : float := of_Z 1.
Definition nan : float := S754_nan.
Definition infinity : float := S754_infinity false.
Definition neg_infinity : float := S754_infinity true.

(** Decimal literals [n / 10^k], correctly rounded (both operands are
    exact, so the quotient is the float nearest to the decimal). *)
Definition c0_01 : float := div (of_Z 1) (of_Z 100).
Definition c0_99 : float := div (of_Z 99) (of_Z 100).
Definition c0_1 : float := div (of_Z 1) (of_Z 10).

(** [std::min(a, b)] is [(b < a) ? b : a]; [std::max(a, b)] is
    [(a < b) ? b : a]. *)
Definition std_min (a b : float) : float := if ltb b a then b else a.
Definition std_max (a b : float) : float := if ltb a b then b else a.

#[global] Instance float_eq_dec : EqDecision float.
Proof. solve_decision. Defined.

#[global] Instance float_inhabited : Inhabited float := populate nan.

End F32.

Abbreviation float := F32.float.

(** Unsigned fixed-width integers are kept in [N] with the wrap-around of
    each conversion written out. *)
Definition wrap32 (n : N) : N := (n mod 2 ^ 32)%N.
Definition wrap8 (n : N) : N := (n mod 2 ^ 8)%N.

(* ===================================================================== *)
(** ** data.hpp / data.cpp : the binner *)
(* ===================================================================== *)

Inductive BinType := Numerical | Categorical.

Record BinInfo := mkBinInfo {
  type : BinType;
  splits : list float
}.

#[global] Instance BinInfo_inhabited : Inhabited BinInfo :=
  populate (mkBinInfo Numerical []).

(** [std::upper_bound(first, last, value)]: the index of the first
    element [e] with [value < e] (the range is partitioned by that
    test whenever it is sorted). *)
Fixpoint upper_bound (l : list float) (value : float) : nat :=
  match l with
  | [] => 0
  | e :: l' => if F32.ltb value e then 0 else S (upper_bound l' value)
  end.

(** [BinInfo::get_bin] *)
Definition get_bin (b : BinInfo) (value : float) : N :=
  if F32.is_nan value
  then wrap32 (N.of_nat (length (splits b)))
  else wrap32 (N.of_nat (upper_bound (splits b) value)).

(** [std::sort] on a vector holding no NaN, as an insertion sort.  The
    insertion sort is stable and [std::sort] need not be: values that
    compare equal without being the same [float] ([+0.0] and [-0.0])
    may come out in the other order in the compiled code, and
    [std::unique] then keeps the other one.  The sorted vector is the
    same up to the sign of such zeros. *)
Fixpoint sort_insert (x : float) (l : list float) : list float :=
  match l with
  | [] => [x]
  | y :: l' => if F32.ltb y x then y :: sort_insert x l' else x :: l
  end.

Definition std_sort (l : list float) : list float :=
  fold_right sort_insert [] l.

(** [std::unique] followed by [erase]: of each run of [==] elements the
    first is kept. *)
Fixpoint unique_from (last : float) (l : list float) : list float :=
  match l with
  | [] => []
  | x :: l' =>
      if F32.eqb last x then unique_from last l' else x :: unique_from x l'
  end.

Definition std_unique (l : list float) : list float :=
  match l with
  | [] => []
  | x :: l' => x :: unique_from x l'
  end.

Record DataMatrix := mkDataMatrix {
  n_rows : nat;
  n_cols : nat;
  features : list float;
  binned_features : list N;
  labels : list float;
  bin_info : list BinInfo
}.

(** [DataMatrix::get_feature]: [features_[row * n_cols_ + col]], read
    without a bounds check.  The read is defined here past the end of
    the vector as well (the default [float]); the two agree on every
    matrix that holds [n_rows * n_cols] features, which the
    constructors guarantee. *)
Definition get_feature (d : DataMatrix) (row col : nat) : float :=
  features d !!! (row * n_cols d + col)%nat.

Definition get_binned_feature (d : DataMatrix) (row col : nat) : N :=
  nth (row * n_cols d + col) (binned_features d) 0%N.

Definition get_label (d : DataMatrix) (row : nat) : float :=
  labels d !!! row.

(** The non-missing values of one column, in row order. *)
Definition column_values (d : DataMatrix) (col : nat) : list float :=
  filter (fun v => F32.is_nan v = false)
         (map (fun row => get_feature d row col) (seq 0 (n_rows d))).

(** The body of the per-feature loop of [create_bins], after sorting and
    deduplication.  [n_bins - 1] is computed on [uint32_t]; with
    [n_bins = 0] and a non-empty column the index computation divides by
    zero, which is rendered by [None]. *)
Definition make_splits (n_bins : N) (values : list float)
  : option (list float) :=
  if (N.of_nat (length values) <=? n_bins)%N then Some values
  else if (n_bins =? 0)%N then None
  else Some (map (fun i : nat =>
                    values !!! ((i + 1) * length values / N.to_nat n_bins)%nat)
                 (seq 0 (N.to_nat (wrap32 (n_bins + 2 ^ 32 - 1))))).

Definition column_bin_info (n_bins : N) (d : DataMatrix) (col : nat)
  : option BinInfo :=
  s ← make_splits n_bins (std_unique (std_sort (column_values d col)));
  Some (mkBinInfo Numerical s).

(** The second loop nest of [create_bins] and of [apply_bins]: every
    cell is sent through its column's [get_bin] and stored in a
    [uint8_t]. *)
Definition bin_all (d : DataMatrix) (infos : list BinInfo) : list N :=
  concat (map (fun row =>
                 map (fun col =>
                        wrap8 (get_bin (infos !!! col) (get_feature d row col)))
                     (seq 0 (n_cols d)))
              (seq 0 (n_rows d))).

(** [DataMatrix::create_bins] *)
Definition create_bins (n_bins : N) (d : DataMatrix) : option DataMatrix :=
  infos ← mapM (column_bin_info n_bins d) (seq 0 (n_cols d));
  Some (mkDataMatrix (n_rows d) (n_cols d) (features d)
                     (bin_all d infos) (labels d) infos).

(** [DataMatrix::apply_bins]; reading [bin_info_[col]] past the end of
    the copied vector is undefined and rendered by [None]. *)
Definition apply_bins (other d : DataMatrix) : option DataMatrix :=
  if (n_rows d =? 0)%nat || (n_cols d <=? length (bin_info other))%nat
  then Some (mkDataMatrix (n_rows d) (n_cols d) (features d)
                          (bin_all d (bin_info other)) (labels d)
                          (bin_info other))
  else None.

(* ===================================================================== *)
(** ** Outcomes of partial code *)
(* ===================================================================== *)

(** [Undefined] renders undefined behaviour of the C++ (an access past the
    end of a vector), [Throw] a C++ exception, [Timeout] an exhausted
    recursion budget of the model. *)
Inductive result (A : Type) : Type :=
  | Ok (a : A)
  | Throw (msg : string)
  | Undefined
  | Timeout.
Arguments Ok {A} a.
Arguments Throw {A} msg.
Arguments Undefined {A}.
Arguments Timeout {A}.

#[global] Instance result_ret : MRet result := fun _ a => Ok a.
#[global] Instance result_bind : MBind result := fun _ _ f m =>
  match m with
  | Ok a => f a
  | Throw msg => Throw msg
  | Undefined => Undefined
  | Timeout => Timeout
  end.

(** A checked vector read. *)
Definition at_index {A} (l : list A) (i : nat) : result A :=
  match l !! i with Some a => Ok a | None => Undefined end.

(** Monadic left fold, for loops whose body may fail. *)
Fixpoint foldM {A B} (f : B -> A -> result B) (l : list A) (b : B)
  : result B :=
  match l with
  | [] => Ok b
  | a :: l' => b' ← f b a; foldM f l' b'
  end.

Fixpoint mapR {A B} (f : A -> result B) (l : list A) : result (list B) :=
  match l with
  | [] => Ok []
  | a :: l' => b ← f a; bs ← mapR f l'; Ok (b :: bs)
  end.

(* ===================================================================== *)
(** ** simd_utils.cpp : the per-feature sweep *)
(* ===================================================================== *)

Module simd.

(** The four output parameters of [find_best_split]. *)
Record split_out := mkOut {
  out_split_gain : float;
  out_split_bin : N;
  out_left_sum_g : float;
  out_left_sum_h : float
}.

Definition out_init : split_out :=
  mkOut F32.neg_infinity 0 F32.zero F32.zero.

(** The signature shared by the three compile-time variants:
    [grad_hist hess_hist n_bins sum_gradients sum_hessians
     min_child_weight reg_lambda].  The histograms are read at
    [0 .. n_bins - 1]; callers pass vectors of [n_bins] entries. *)
Definition finder : Type :=
  list float -> list float -> N -> float -> float -> float -> float ->
  split_out.

Section Sweep.
Variables grad_hist hess_hist : list float.
Variable n_bins : N.
Variables sum_gradients sum_hessians min_child_weight reg_lambda : float.

(** State of the scalar loop: the running left sums and the outputs. *)
Record sweep := mkSweep {
  left_sum_g : float;
  left_sum_h : float;
  best : split_out
}.

(** The gain of the scalar fallback (lines 942-944). *)
Definition gain_full (lg lh rg rh : float) : float :=
  F32.sub
    (F32.add (F32.div (F32.mul lg lg) (F32.add lh reg_lambda))
             (F32.div (F32.mul rg rg) (F32.add rh reg_lambda)))
    (F32.div (F32.mul sum_gradients sum_gradients)
             (F32.add sum_hessians reg_lambda)).

(** The gain of the scalar tail of the AVX2 and SSE4.2 variants
    (lines 606-607 and 846-847): no parent term. *)
Definition gain_children (lg lh rg rh : float) : float :=
  F32.add (F32.div (F32.mul lg lg) (F32.add lh reg_lambda))
          (F32.div (F32.mul rg rg) (F32.add rh reg_lambda)).

(** One iteration of the scalar loop, for a given gain formula. *)
Definition scalar_step (gain_of : float -> float -> float -> float -> float)
           (st : sweep) (bin : nat) : sweep :=
  let lg := F32.add (left_sum_g st) (grad_hist !!! bin) in
  let lh := F32.add (left_sum_h st) (hess_hist !!! bin) in
  let rg := F32.sub sum_gradients lg in
  let rh := F32.sub sum_hessians lh in
  if F32.geb lh min_child_weight && F32.geb rh min_child_weight
  then
    let gain := gain_of lg lh rg rh in
    if F32.gtb gain (out_split_gain (best st))
    then mkSweep lg lh (mkOut gain (N.of_nat bin) lg lh)
    else mkSweep lg lh (best st)
  else mkSweep lg lh (best st).

Definition scalar_loop gain_of (start : split_out) : sweep :=
  fold_left (scalar_step gain_of) (seq 0 (N.to_nat n_bins))
            (mkSweep F32.zero F32.zero start).

(** *** The scalar fallback (lines 910-954) *)
Definition find_best_split_fallback : split_out :=
  best (scalar_loop gain_full out_init).

(** *** The AVX2 variant (lines 505-617) *)

(** A 256-bit register: eight lanes, lane [i] at list position [i]. *)
Definition lanes : nat := 8.
Definition loadu (v : list float) (at_ : nat) : list float :=
  map (fun i => v !!! (at_ + i)%nat) (seq 0 lanes).
Definition set1 (x : float) : list float := replicate lanes x.
Definition vmap2 (f : float -> float -> float) (a b : list float)
  : list float := zip_with f a b.
(** [_mm256_cmp_ps(a, b, _CMP_GE_OQ)]: an all-ones lane where
    [a >= b], an all-zero lane elsewhere (and on NaN). *)
Definition cmp_ge (a b : list float) : list bool :=
  zip_with F32.geb a b.
(** [_mm256_and_ps] of a value with a mask whose lanes are all-ones
    or all-zero: the value, or [+0.0f]. *)
Definition and_mask (a : list float) (m : list bool) : list float :=
  zip_with (fun x (keep : bool) => if keep then x else F32.zero) a m.

(** The scalar prefix sum recomputed when a lane wins
    (lines 584-589). *)
Definition prefix_sum (v : list float) (upto : nat) : float :=
  fold_left (fun acc j => F32.add acc (v !!! j)) (seq 0 (S upto)) F32.zero.

(** The loop over the eight stored gains (lines 578-591). *)
Definition lane_step (bin_idx : nat) (gains : list float)
           (o : split_out) (i : nat) : split_out :=
  if F32.gtb (gains !!! i) (out_split_gain o)
  then mkOut (gains !!! i) (N.of_nat (bin_idx + i))
             (prefix_sum grad_hist (bin_idx + i))
             (prefix_sum hess_hist (bin_idx + i))
  else o.

(** State of the vector loop: the two accumulator registers and the
    outputs. *)
Definition chunk_step (st : list float * list float * split_out)
           (chunk : nat) : list float * list float * split_out :=
  let '(left_sum_g_vec, left_sum_h_vec, o) := st in
  let bin_idx := (chunk * lanes)%nat in
  let grad_vec := loadu grad_hist bin_idx in
  let hess_vec := loadu hess_hist bin_idx in
  let left_sum_g_vec := vmap2 F32.add left_sum_g_vec grad_vec in
  let left_sum_h_vec := vmap2 F32.add left_sum_h_vec hess_vec in
  let right_sum_g_vec := vmap2 F32.sub (set1 sum_gradients) left_sum_g_vec in
  let right_sum_h_vec := vmap2 F32.sub (set1 sum_hessians) left_sum_h_vec in
  let left_weight_check := cmp_ge left_sum_h_vec (set1 min_child_weight) in
  let right_weight_check := cmp_ge right_sum_h_vec (set1 min_child_weight) in
  let weight_mask := zip_with andb left_weight_check right_weight_check in
  let left_gain_vec :=
    vmap2 F32.div (vmap2 F32.mul left_sum_g_vec left_sum_g_vec)
                  (vmap2 F32.add left_sum_h_vec (set1 reg_lambda)) in
  let right_gain_vec :=
    vmap2 F32.div (vmap2 F32.mul right_sum_g_vec right_sum_g_vec)
                  (vmap2 F32.add right_sum_h_vec (set1 reg_lambda)) in
  let gain_vec := vmap2 F32.add left_gain_vec right_gain_vec in
  let gains := and_mask gain_vec weight_mask in
  (left_sum_g_vec, left_sum_h_vec,
   fold_left (lane_step bin_idx gains) (seq 0 lanes) o).

Definition find_best_split_avx2 : split_out :=
  let n_chunks := (N.to_nat n_bins / lanes)%nat in
  let '(_, _, o) :=
    fold_left chunk_step (seq 0 n_chunks)
              (set1 F32.zero, set1 F32.zero, out_init) in
  best (scalar_loop gain_children o).

End Sweep.

(** *** The histograms over all columns *)

Section Histograms.
(** [data] holds one [uint8_t] code per cell, row-major; the
    parameter [n_rows] of the source is not read. *)
Variable data : list N.
Variable row_indices : list N.
Variable n_cols : nat.
Variable n_bins : N.

(** [data[row * n_cols + col]] *)
Definition code_at (row : N) (col : nat) : result N :=
  at_index data (N.to_nat row * n_cols + col).

(** [out_hist[col * n_bins + bin]++] on [uint32_t] counters. *)
Definition count_at (hist : list N) (col : nat) (bin : N)
  : result (list N) :=
  let k := col * N.to_nat n_bins + N.to_nat bin in
  old ← at_index hist k;
  Ok (<[k := wrap32 (old + 1)]> hist).

(** One row, column after column. *)
Definition count_row (hist : list N) (row : N) : result (list N) :=
  foldM (fun h col => bin ← code_at row col; count_at h col bin)
        (seq 0 n_cols) hist.

(** [compute_histogram] without SIMD. *)
Definition compute_histogram_fallback : result (list N) :=
  foldM count_row row_indices
        (replicate (n_cols * N.to_nat n_bins) 0%N).

(** The eight row indices of chunk [k]. *)
Definition chunk_rows (k : nat) : result (list N) :=
  mapR (fun i => at_index row_indices (8 * k + i)) (seq 0 8).

(** AVX2, one chunk: for every column the eight codes are read,
    then the eight counters are incremented. *)
Definition count_chunk (hist : list N) (k : nat) : result (list N) :=
  rows ← chunk_rows k;
  foldM (fun h col =>
           bin_indices ← mapR (fun row => code_at row col) rows;
           foldM (fun h bin => count_at h col bin) bin_indices h)
        (seq 0 n_cols) hist.

(** [compute_histogram] with AVX2: whole chunks of eight rows, then
    the remaining rows one by one. *)
Definition compute_histogram_avx2 : result (list N) :=
  let n_chunks := length row_indices / 8 in
  h ← foldM count_chunk (seq 0 n_chunks)
            (replicate (n_cols * N.to_nat n_bins) 0%N);
  foldM count_row (drop (8 * n_chunks) row_indices) h.

Variables gradients hessians : list float.

(** [grad_hist[col * n_bins + bin] += grad;
     hess_hist[col * n_bins + bin] += hess] *)
Definition accumulate_at (h : list float * list float) (col : nat)
           (bin : N) (grad hess : float)
  : result (list float * list float) :=
  let k := col * N.to_nat n_bins + N.to_nat bin in
  old_g ← at_index (fst h) k;
  old_h ← at_index (snd h) k;
  Ok (<[k := F32.add old_g grad]> (fst h),
      <[k := F32.add old_h hess]> (snd h)).

Definition accumulate_row (h : list float * list float) (row : N)
  : result (list float * list float) :=
  grad ← at_index gradients (N.to_nat row);
  hess ← at_index hessians (N.to_nat row);
  foldM (fun h col =>
           bin ← code_at row col; accumulate_at h col bin grad hess)
        (seq 0 n_cols) h.

(** [compute_gradient_histogram] without SIMD. *)
Definition compute_gradient_histogram_fallback
  : result (list float * list float) :=
  foldM accumulate_row row_indices
        (replicate (n_cols * N.to_nat n_bins) F32.zero,
         replicate (n_cols * N.to_nat n_bins) F32.zero).

(** AVX2, one chunk: eight gradients and eight hessians are loaded
    once; for every column the eight codes are read, then the
    eight pairs are added. *)
Definition accumulate_chunk (h : list float * list float) (k : nat)
  : result (list float * list float) :=
  rows ← chunk_rows k;
  grad_values ← mapR (fun row => at_index gradients (N.to_nat row)) rows;
  hess_values ← mapR (fun row => at_index hessians (N.to_nat row)) rows;
  foldM (fun h col =>
           bin_indices ← mapR (fun row => code_at row col) rows;
           foldM (fun h bgh =>
                    accumulate_at h col (fst bgh)
                                  (fst (snd bgh)) (snd (snd bgh)))
                 (zip bin_indices (zip grad_values hess_values)) h)
        (seq 0 n_cols) h.

(** [compute_gradient_histogram] with AVX2. *)
Definition compute_gradient_histogram_avx2
  : result (list float * list float) :=
  let n_chunks := length row_indices / 8 in
  h ← foldM accumulate_chunk (seq 0 n_chunks)
            (replicate (n_cols * N.to_nat n_bins) F32.zero,
             replicate (n_cols * N.to_nat n_bins) F32.zero);
  foldM accumulate_row (drop (8 * n_chunks) row_indices) h.
End Histograms.

End simd.
(* ===================================================================== *)
(** ** config.hpp / config.cpp *)
(* ===================================================================== *)

Inductive Task := Regression | Binary.

#[global] Instance Task_eq_dec : EqDecision Task.
Proof. solve_decision. Defined.

Record GBDTConfig := mkConfig {
  task : Task;
  n_rounds : N;
  learning_rate : float;
  max_depth : N;
  min_data_in_leaf : N;
  min_child_weight : float;
  reg_lambda : float;
  n_bins : N;
  subsample : float;
  colsample : float;
  seed : N;
  n_threads : Z;
  metric : string
}.

(** The member initialisers of [GBDTConfig]. *)
Definition default_config : GBDTConfig :=
  mkConfig Regression 100 F32.c0_1 6 20 F32.one F32.one 256
           F32.one F32.one 0 (-1) "rmse".

(** [GBDTConfig::validate] *)
Definition validate (c : GBDTConfig) : bool :=
  if (n_rounds c =? 0)%N then false
  else if F32.leb (learning_rate c) F32.zero
          || F32.gtb (learning_rate c) F32.one then false
  else if (max_depth c =? 0)%N || (32 <? max_depth c)%N then false
  else if (min_data_in_leaf c =? 0)%N then false
  else if F32.leb (min_child_weight c) F32.zero then false
  else if F32.ltb (reg_lambda c) F32.zero then false
  else if (n_bins c =? 0)%N || (256 <? n_bins c)%N then false
  else if F32.leb (subsample c) F32.zero
          || F32.gtb (subsample c) F32.one then false
  else if F32.leb (colsample c) F32.zero
          || F32.gtb (colsample c) F32.one then false
  else true.

(* ===================================================================== *)
(** ** The JSON documents of nlohmann::json *)
(* ===================================================================== *)

(** A number stored from a C++ [float] is widened to [double] and, when
    read back into a [float], narrowed again; both steps are exact, so a
    floating-point number of a document is kept here by its [float]
    value.  Objects are kept as key/value lists. *)
#[local] Unset Elimination Schemes.
Inductive json : Type :=
  | JNull
  | JBool (b : bool)
  | JUInt (n : N)
  | JInt (z : Z)
  | JFloat (f : float)
  | JString (s : string)
  | JArray (l : list json)
  | JObject (m : list (string * json)).
#[local] Set Elimination Schemes.

Module Json.

Fixpoint lookup (k : string) (m : list (string * json)) : option json :=
  match m with
  | [] => None
  | (k', v) :: m' => if String.eqb k k' then Some v else lookup k m'
  end.



(** [j[key]] on a non-[const] document: an absent key (or a null
    document) yields null. *)
Definition get_mut (j : json) (k : string) : result json :=
  match j with
  | JObject m =>
      match lookup k m with Some v => Ok v | None => Ok JNull end
  | JNull => Ok JNull
  | _ => Throw "type_error.305"
  end.




(** Conversion to [std::string]. *)
Definition to_string (j : json) : result string :=
  match j with
  | JString s => Ok s
  | _ => Throw "type_error.302"
  end.



(** [j == "text"] *)
Definition eq_string (j : json) (s : string) : bool :=
  match j with JString s' => String.eqb s' s | _ => false end.


End Json.
(* ===================================================================== *)
(** ** tree.hpp / tree.cpp *)
(* ===================================================================== *)

Record SplitInfo := mkSplit {
  split_feature_id : N;
  bin_id : N;
  split_threshold : float;
  split_gain : float;
  left_sum_gradients : float;
  left_sum_hessians : float;
  right_sum_gradients : float;
  right_sum_hessians : float
}.

(** The member initialisers of [SplitInfo]. *)
Definition default_split : SplitInfo :=
  mkSplit 0 0 F32.zero F32.neg_infinity F32.zero F32.zero F32.zero F32.zero.

(** [SplitInfo::is_valid] *)
Definition is_valid (s : SplitInfo) : bool :=
  F32.gtb (split_gain s) F32.neg_infinity.

Record TreeNode := mkNode {
  is_leaf : bool;
  depth : N;
  feature_id : N;
  threshold : float;
  weight : float;
  left_child : N;
  right_child : N;
  gain : float
}.

(** [TreeNode()] *)
Definition default_node : TreeNode :=
  mkNode true 0 0 F32.zero F32.zero 0 0 F32.zero.

(** [TreeNode(depth, weight)] *)
Definition leaf_node (d : N) (w : float) : TreeNode :=
  mkNode true d 0 F32.zero w 0 0 F32.zero.

(** [TreeNode(depth, feature_id, threshold, left_child, right_child, gain)] *)
Definition internal_node (d f : N) (t : float) (l r : N) (g : float)
  : TreeNode :=
  mkNode false d f t F32.zero l r g.

#[global] Instance TreeNode_inhabited : Inhabited TreeNode :=
  populate default_node.

Module Tree.

Record t := mk {
  nodes : list TreeNode;
  config : GBDTConfig
}.

Section Build.
(** The variant of [simd::find_best_split] selected at compile time. *)
Variable simd_find_best_split : simd.finder.
Variable cfg : GBDTConfig.
Variable data : DataMatrix.
Variables gradients hessians : list float.

(** Checked forms of [data.get_feature] and
    [data.get_binned_feature]. *)
Definition feature_at (row col : nat) : result float :=
  at_index (features data) (row * n_cols data + col).

Definition binned_at (row col : nat) : result N :=
  at_index (binned_features data) (row * n_cols data + col).

(** [v[i] += x] *)
Definition add_at (v : list float) (i : nat) (x : float)
  : result (list float) :=
  old ← at_index v i; Ok (<[i := F32.add old x]> v).

(** Lines 207-211: the two histograms of one feature. *)
Definition hist_step (feature : nat) (h : list float * list float)
           (row_idx : N) : result (list float * list float) :=
  bin ← binned_at (N.to_nat row_idx) feature;
  g ← at_index gradients (N.to_nat row_idx);
  gh ← add_at (fst h) (N.to_nat bin) g;
  hs ← at_index hessians (N.to_nat row_idx);
  hh ← add_at (snd h) (N.to_nat bin) hs;
  Ok (gh, hh).

Definition feature_hist (row_indices : list N) (feature : nat)
  : result (list float * list float) :=
  foldM (hist_step feature) row_indices
        (replicate (N.to_nat (n_bins cfg)) F32.zero,
         replicate (N.to_nat (n_bins cfg)) F32.zero).

(** Lines 233-242: bin id to threshold. *)
Definition bin_threshold (b : BinInfo) (split_bin : N) : float :=
  match splits b !! N.to_nat split_bin with
  | Some e => e
  | None => F32.nan
  end.

(** The body of the per-feature loop (lines 201-243). *)
Definition feature_split (row_indices : list N)
           (sum_gradients sum_hessians : float) (feature : nat)
  : result SplitInfo :=
  h ← feature_hist row_indices feature;
  let o := simd_find_best_split (fst h) (snd h) (n_bins cfg)
             sum_gradients sum_hessians
             (min_child_weight cfg) (reg_lambda cfg) in
  let s := mkSplit (wrap32 (N.of_nat feature))
                   (simd.out_split_bin o)
                   F32.zero
                   (simd.out_split_gain o)
                   (simd.out_left_sum_g o)
                   (simd.out_left_sum_h o)
                   (F32.sub sum_gradients (simd.out_left_sum_g o))
                   (F32.sub sum_hessians (simd.out_left_sum_h o)) in
  if F32.gtb (split_gain s) F32.neg_infinity
  then
    b ← at_index (bin_info data) feature;
    Ok (mkSplit (split_feature_id s) (bin_id s)
                (bin_threshold b (simd.out_split_bin o))
                (split_gain s)
                (left_sum_gradients s) (left_sum_hessians s)
                (right_sum_gradients s) (right_sum_hessians s))
  else Ok s.

(** Lines 245-250: the best split across the features. *)
Definition pick_best (best split : SplitInfo) : SplitInfo :=
  if F32.gtb (split_gain split) (split_gain best) then split else best.

(** [Tree::find_best_split] *)
Definition find_best_split (row_indices : list N)
           (sum_gradients sum_hessians : float) : result SplitInfo :=
  feature_best_splits ←
    mapR (feature_split row_indices sum_gradients sum_hessians)
         (seq 0 (n_cols data));
  Ok (fold_left pick_best feature_best_splits default_split).

(** [Tree::split_rows] *)
Definition split_step (split : SplitInfo) (lr : list N * list N)
           (row_idx : N) : result (list N * list N) :=
  value ← feature_at (N.to_nat row_idx) (N.to_nat (split_feature_id split));
  if F32.is_nan value then Ok (fst lr, snd lr ++ [row_idx])
  else if F32.leb value (split_threshold split)
       then Ok (fst lr ++ [row_idx], snd lr)
       else Ok (fst lr, snd lr ++ [row_idx]).

Definition split_rows (row_indices : list N) (split : SplitInfo)
  : result (list N * list N) :=
  foldM (split_step split) row_indices ([], []).

(** [Tree::calculate_leaf_weight] *)
Definition calculate_leaf_weight (sum_gradients sum_hessians : float)
  : float :=
  F32.div (F32.neg sum_gradients) (F32.add sum_hessians (reg_lambda cfg)).

(** Lines 293-299: the node totals. *)
Definition sum_step (gh : float * float) (row_idx : N)
  : result (float * float) :=
  g ← at_index gradients (N.to_nat row_idx);
  h ← at_index hessians (N.to_nat row_idx);
  Ok (F32.add (fst gh) g, F32.add (snd gh) h).

Definition node_sums (row_indices : list N) : result (float * float) :=
  foldM sum_step row_indices (F32.zero, F32.zero).

(** [nodes_.emplace_back(depth, weight); return nodes_.size() - 1] *)
Definition emit_leaf (nodes_ : list TreeNode) (depth_ : N)
           (sum_gradients sum_hessians : float) : N * list TreeNode :=
  let nodes' := nodes_ ++
    [leaf_node depth_ (calculate_leaf_weight sum_gradients sum_hessians)] in
  (wrap32 (N.of_nat (length nodes' - 1)), nodes').

(** [Tree::build_node]; the vector [nodes_] is threaded through.  The
    recursion is bounded by [fuel]; [max_depth - depth + 1] is
    enough (see [build_node_fuel]). *)
Fixpoint build_node (fuel : nat) (row_indices : list N) (depth_ : N)
         (nodes_ : list TreeNode) : result (N * list TreeNode) :=
  match fuel with
  | O => Timeout
  | S fuel' =>
      sums ← node_sums row_indices;
      let sum_gradients := fst sums in
      let sum_hessians := snd sums in
      if (max_depth cfg <=? depth_)%N
         || F32.ltb sum_hessians (min_child_weight cfg)
         || (N.of_nat (length row_indices) <=? min_data_in_leaf cfg)%N
      then Ok (emit_leaf nodes_ depth_ sum_gradients sum_hessians)
      else
        best_split ← find_best_split row_indices sum_gradients sum_hessians;
        if negb (is_valid best_split)
        then Ok (emit_leaf nodes_ depth_ sum_gradients sum_hessians)
        else
          lr ← split_rows row_indices best_split;
          let left_indices := fst lr in
          let right_indices := snd lr in
          if (length left_indices =? 0)%nat
             || (length right_indices =? 0)%nat
          then Ok (emit_leaf nodes_ depth_ sum_gradients sum_hessians)
          else
            let node_idx := wrap32 (N.of_nat (length nodes_)) in
            let nodes1 := nodes_ ++ [default_node] in
            l ← build_node fuel' left_indices (wrap32 (depth_ + 1)) nodes1;
            r ← build_node fuel' right_indices (wrap32 (depth_ + 1)) (snd l);
            nd ← at_index (snd r) (N.to_nat node_idx);
            Ok (node_idx,
                <[N.to_nat node_idx :=
                    internal_node depth_ (split_feature_id best_split)
                                  (split_threshold best_split)
                                  (fst l) (fst r)
                                  (split_gain best_split)]> (snd r))
  end.

(** [Tree::build]: the node vector is cleared and the root built at
    depth 0. *)
Definition build (row_indices : list N) : result t :=
  r ← build_node (S (N.to_nat (max_depth cfg))) row_indices 0 [];
  Ok (mk (snd r) cfg).

End Build.

(** The loop of [Tree::predict_one] (lines 42-59); [fuel] bounds the
    number of iterations. *)
Fixpoint walk (nodes_ : list TreeNode) (x : list float) (fuel : nat)
         (node_idx : nat) : result float :=
  match fuel with
  | O => Timeout
  | S fuel' =>
      node ← at_index nodes_ node_idx;
      if is_leaf node then Ok (weight node)
      else
        v ← at_index x (N.to_nat (feature_id node));
        if F32.is_nan v then walk nodes_ x fuel' (N.to_nat (right_child node))
        else if F32.leb v (threshold node)
             then walk nodes_ x fuel' (N.to_nat (left_child node))
             else walk nodes_ x fuel' (N.to_nat (right_child node))
  end.

(** [Tree::predict_one].  The next node index is a function of the
    current one, so a walk that is still inside the vector and has met
    no leaf after [length nodes_ + 1] nodes has met some node twice and
    never stops: this budget loses no terminating run. *)
Definition predict_one (tr : t) (x : list float) : result float :=
  if (length (nodes tr) =? 0)%nat then Throw "Tree is not built yet"
  else walk (nodes tr) x (S (length (nodes tr))) 0.

(** The per-row feature extraction of [Tree::predict]
    (lines 73-76). *)
Definition row_features (d : DataMatrix) (i : nat) : list float :=
  map (fun j => get_feature d i j) (seq 0 (n_cols d)).

(** [Tree::predict]: one [predict_one] per row (the rows are
    independent, so the parallel loop is run in index order). *)
Definition predict (tr : t) (d : DataMatrix) : result (list float) :=
  if (length (nodes tr) =? 0)%nat then Throw "Tree is not built yet"
  else mapR (fun i => predict_one tr (row_features d i))
            (seq 0 (n_rows d)).

(** *** Serialization (lines 83-178) *)

(** [node_map[k]] on a [std::unordered_map<uint32_t, uint32_t>]: an
    absent key reads as 0. *)
Definition map_at (node_map : gmap N N) (k : N) : N :=
  default 0%N (node_map !! k).

(** Lines 90-107: the breadth-first numbering.  [fuel] bounds the
    number of queue pops of the model. *)
Fixpoint bfs (fuel : nat) (nodes_ : list TreeNode) (queue : list N)
         (node_map : gmap N N) (next_node_id : N) : result (gmap N N) :=
  match queue with
  | [] => Ok node_map
  | node_idx :: queue' =>
      match fuel with
      | O => Timeout
      | S fuel' =>
          let node_map' := <[node_idx := next_node_id]> node_map in
          node ← at_index nodes_ (N.to_nat node_idx);
          if is_leaf node
          then bfs fuel' nodes_ queue' node_map' (wrap32 (next_node_id + 1))
          else bfs fuel' nodes_
                   (queue' ++ [left_child node; right_child node])
                   node_map' (wrap32 (next_node_id + 1))
      end
  end.

(** Lines 112-129: the JSON object of node [i]. *)
Definition node_to_json (node_map : gmap N N) (i : nat) (node : TreeNode)
  : json :=
  if is_leaf node
  then JObject [("nodeid", JUInt (map_at node_map (wrap32 (N.of_nat i))));
                ("leaf", JFloat (weight node))]
  else JObject [("nodeid", JUInt (map_at node_map (wrap32 (N.of_nat i))));
                ("split", JUInt (feature_id node));
                ("split_condition", JFloat (threshold node));
                ("yes", JUInt (map_at node_map (left_child node)));
                ("no", JUInt (map_at node_map (right_child node)));
                ("missing", JUInt (map_at node_map (right_child node)))].

(** [Tree::to_xgboost_json] *)
Definition to_xgboost_json (fuel : nat) (tr : t) : result json :=
  node_map ← bfs fuel (nodes tr) [0%N] ∅ 0;
  Ok (JObject [("nodes", JArray (imap (node_to_json node_map) (nodes tr)))]).





End Tree.

(* ===================================================================== *)
(** ** gbdt.hpp / gbdt.cpp *)
(* ===================================================================== *)

Module GBDT.

Record t := mk {
  config : GBDTConfig;
  trees : list Tree.t;
  base_score : float
}.

(** [GBDT(config)]: the constructor validates the configuration. *)
Definition new (c : GBDTConfig) : result t :=
  if validate c then Ok (mk c [] F32.zero)
  else Throw "Invalid GBDT configuration".

Section Libm.
(** [std::exp] and [std::log] on [float]. *)
Variables std_exp std_log : float -> float.

(** [1.0f / (1.0f + std::exp(-p))] *)
Definition sigmoid (p : float) : float :=
  F32.div F32.one (F32.add F32.one (std_exp (F32.neg p))).

(** Lines 117-119 and 284-286:
    [predictions[i] += learning_rate * tree_preds[i]]. *)
Definition add_tree (lr : float) (predictions tree_preds : list float)
  : list float :=
  zip_with (fun p tp => F32.add p (F32.mul lr tp)) predictions tree_preds.

(** [GBDT::predict] *)
Definition predict (m : t) (d : DataMatrix) : result (list float) :=
  if (length (trees m) =? 0)%nat then Throw "Model is not trained yet"
  else
    predictions ←
      foldM (fun predictions tree =>
               tree_preds ← Tree.predict tree d;
               Ok (add_tree (learning_rate (config m))
                            predictions tree_preds))
            (trees m) (replicate (n_rows d) (base_score m));
    Ok (match task (config m) with
        | Binary => map sigmoid predictions
        | Regression => predictions
        end).

(** [std::accumulate(labels.begin(), labels.end(), 0.0f)] *)
Definition accumulate (l : list float) : float :=
  fold_left F32.add l F32.zero.

(** [GBDT::calculate_base_score] *)
Definition calculate_base_score (c : GBDTConfig) (labels_ : list float)
  : float :=
  match task c with
  | Binary =>
      let sum := accumulate labels_ in
      let mean := F32.div sum (F32.of_nat (length labels_)) in
      let mean := F32.std_max F32.c0_01 (F32.std_min F32.c0_99 mean) in
      std_log (F32.div mean (F32.sub F32.one mean))
  | Regression =>
      let sum := accumulate labels_ in
      F32.div sum (F32.of_nat (length labels_))
  end.

(** [simd::compute_binary_gradient_hessian] and
    [simd::compute_regression_gradient_hessian], over the first
    [n_rows] labels and predictions. *)
Definition compute_binary_gradient_hessian (labels_ preds : list float)
  : list float * list float :=
  let ps := map sigmoid preds in
  (zip_with (fun p y => F32.sub p y) ps labels_,
   map (fun p => F32.mul p (F32.sub F32.one p)) ps).

Definition compute_regression_gradient_hessian
           (labels_ preds : list float) : list float * list float :=
  (zip_with (fun p y => F32.sub p y) preds labels_,
   map (fun _ => F32.one) preds).

Definition gradient_hessian (c : GBDTConfig) (labels_ preds : list float)
  : list float * list float :=
  match task c with
  | Binary => compute_binary_gradient_hessian labels_ preds
  | Regression => compute_regression_gradient_hessian labels_ preds
  end.

Section Train.
Variable simd_find_best_split : simd.finder.
(** The stream of values drawn from [dist(gen)] for the configured
    seed, in drawing order. *)
Variable uniform_stream : nat -> float.
(** [evaluate]: the metric looked up by name (in [metrics.cpp]); its
    value is only printed. *)
Variable evaluate : GBDTConfig -> DataMatrix -> list float -> result float.

(** Lines 73-83: the rows of round [iter].  The loop counter is a
    [uint32_t] compared with [data.n_rows()]: the loop visits the
    rows [0 .. nr - 1] once each when [nr < 2^32], and does not
    end otherwise; only the first case is modelled. *)
Definition sampled_indices (c : GBDTConfig) (nr iter : nat) : list N :=
  if F32.ltb (subsample c) F32.one
  then omap (fun i => if F32.ltb (uniform_stream (iter * nr + i))
                                 (subsample c)
                      then Some (wrap32 (N.of_nat i)) else None)
            (seq 0 nr)
  else map (fun i => wrap32 (N.of_nat i)) (seq 0 nr).

(** The loop state of [train]: the ensemble, the predictions and the
    gradient and hessian vectors. *)
Record round_state := mkRound {
  r_trees : list Tree.t;
  r_predictions : list float;
  r_gradients : list float;
  r_hessians : list float
}.

(** One boosting round (lines 71-98). *)
Definition train_round (c : GBDTConfig) (d binned_data : DataMatrix)
           (st : round_state) (iter : nat) : result round_state :=
  tree ← Tree.build simd_find_best_split c binned_data
                    (r_gradients st) (r_hessians st)
                    (sampled_indices c (n_rows d) iter);
  tree_preds ← Tree.predict tree d;
  let predictions := add_tree (learning_rate c) (r_predictions st)
                              tree_preds in
  let gh := gradient_hessian c (labels d) predictions in
  _ ← evaluate c d predictions;
  Ok (mkRound (r_trees st ++ [tree]) predictions (fst gh) (snd gh)).

(** [GBDT::train] *)
Definition train (m : t) (d : DataMatrix) : result t :=
  if (n_rows d =? 0)%nat || (n_cols d =? 0)%nat
  then Throw "Empty dataset"
  else if (length (labels d) =? 0)%nat
  then Throw "Dataset has no labels"
  else
    match create_bins (n_bins (config m)) d with
    | None => Undefined
    | Some binned_data =>
        let c := config m in
        let base := calculate_base_score c (labels d) in
        let predictions := replicate (n_rows d) base in
        let gh := gradient_hessian c (labels d) predictions in
        st ← foldM (train_round c d binned_data)
                   (seq 0 (N.to_nat (n_rounds c)))
                   (mkRound [] predictions (fst gh) (snd gh));
        Ok (mk c (r_trees st) base)
    end.
End Train.

End Libm.

End GBDT.

(* ===================================================================== *)
(** ** serialization.cpp : the native JSON format, as it is written *)
(* ===================================================================== *)

Module Serialization.



(** [load_model_from_json] and [convert_from_xgboost_json] are not
    embedded: both end their tree loop with
    [model.trees().push_back(tree)] (lines 93 and 170), and
    [GBDT::trees()] returns a reference to [const], so neither
    function is well-formed C++.  What they would read is read by
    [Tree.from_xgboost_json], entry by entry. *)

(** *** [std::to_string] and [std::stoi] *)

(** [std::to_string] of an unsigned integer: its decimal digits.
    [digits_of] writes the digits in front of [acc], the least
    significant first; a number below [2^fuel] needs no more than
    [fuel] of them. *)
Definition digit_char (d : N) : Ascii.ascii := Ascii.ascii_of_N (48 + d).

Fixpoint digits_of (fuel : nat) (n : N) (acc : string) : string :=
  match fuel with
  | O => acc
  | S fuel' =>
      let acc' := String (digit_char (n mod 10)) acc in
      if (n <? 10)%N then acc' else digits_of fuel' (n / 10) acc'
  end.

Definition to_string (n : N) : string :=
  digits_of (S (N.to_nat (N.log2 n))) n "".

(** [std::stoi]: leading white space is skipped, a sign is accepted,
    (['-'] is character 45 and ['+'] character 43), and the longest
    run of decimal digits that follows is the value;
    [std::invalid_argument] when there is no digit and
    [std::out_of_range] when the value does not fit an [int] (both
    rendered by [Throw "stoi"], their [what()] in libstdc++). *)
Definition is_space (c : Ascii.ascii) : bool :=
  let n := Ascii.N_of_ascii c in
  (n =? 32)%N || ((9 <=? n)%N && (n <=? 13)%N).

Definition digit_of (c : Ascii.ascii) : option N :=
  let n := Ascii.N_of_ascii c in
  if (48 <=? n)%N && (n <=? 57)%N then Some (n - 48)%N else None.

Fixpoint skip_spaces (s : string) : string :=
  match s with
  | String c s' => if is_space c then skip_spaces s' else s
  | EmptyString => s
  end.

Fixpoint parse_digits (s : string) (acc : N) : N :=
  match s with
  | String c s' =>
      match digit_of c with
      | Some d => parse_digits s' (acc * 10 + d)
      | None => acc
      end
  | EmptyString => acc
  end.

Definition stoi (s : string) : result Z :=
  let s1 := skip_spaces s in
  let signed :=
    match s1 with
    | String c r =>
        if (Ascii.N_of_ascii c =? 45)%N then (true, r)
        else if (Ascii.N_of_ascii c =? 43)%N then (false, r)
        else (false, s1)
    | EmptyString => (false, s1)
    end in
  match snd signed with
  | String c _ =>
      match digit_of c with
      | None => Throw "stoi"
      | Some _ =>
          let v := Z.of_N (parse_digits (snd signed) 0) in
          let z := if fst signed then (- v)%Z else v in
          if (- 2 ^ 31 <=? z)%Z && (z <? 2 ^ 31)%Z then Ok z
          else Throw "stoi"
      end
  | EmptyString => Throw "stoi"
  end.

End Serialization.
(* ===================================================================== *)
(** ** data.cpp : the CSV loader *)
(* ===================================================================== *)

Module Csv.

(** [while (std::getline(stream, piece, delim))] over the text [s]:
    the pieces between the delimiters.  A read that meets the end of
    the text without having extracted anything fails, so no empty
    piece is produced after a final delimiter nor for an empty text.
    [cur] is the piece being read. *)
Fixpoint getline_all (delim : Ascii.ascii) (s : string) (cur : string)
  : list string :=
  match s with
  | EmptyString => if String.eqb cur "" then [] else [cur]
  | String c s' =>
      if Ascii.eqb c delim then cur :: getline_all delim s' ""
      else getline_all delim s' (cur +:+ String c "")
  end.

Definition comma : Ascii.ascii := Ascii.ascii_of_N 44.
Definition newline : Ascii.ascii := Ascii.ascii_of_N 10.

(** Lines 132-133: the spellings of a missing value. *)
Definition missing_token (cell : string) : bool :=
  String.eqb cell "" || String.eqb cell "NA" || String.eqb cell "N/A"
  || String.eqb cell "?".

Section Loader.
(** [std::stof]; a [Throw] carries the [what()] of its exception. *)
Variable stof : string -> result float.

(** Lines 130-146: one cell, with the [catch] that rewrites the
    exception. *)
Definition parse_cell (row_no col_idx : nat) (cell : string)
  : result float :=
  if missing_token cell then Ok F32.nan
  else match stof cell with
       | Throw msg =>
           Throw ("Error parsing value at row "
                  +:+ Serialization.to_string (N.of_nat row_no)
                  +:+ ", col "
                  +:+ Serialization.to_string (N.of_nat col_idx)
                  +:+ ": " +:+ msg)
       | other => other
       end.

(** The body of the loop over the cells of a line; the state is the
    row being filled and the labels read so far. *)
Definition cell_step (label_column : Z) (row_no : nat)
           (st : list float * list float) (ic : nat * string)
  : result (list float * list float) :=
  value ← parse_cell row_no (fst ic) (snd ic);
  if (Z.of_nat (fst ic) =? label_column)%Z
  then Ok (fst st, snd st ++ [value])
  else Ok (fst st ++ [value], snd st).

(** The body of the loop over the data lines; the state is
    [raw_features] and [raw_labels]. *)
Definition line_step (label_column : Z) (n_cols_ : nat)
           (st : list (list float) * list float) (line : string)
  : result (list (list float) * list float) :=
  let row_no := length (fst st) + 1 in
  rl ← foldM (cell_step label_column row_no)
             (imap pair (getline_all comma line ""))
             ([], snd st);
  if negb (length (fst rl) =? n_cols_)%nat
  then Throw ("Inconsistent number of columns at row "
              +:+ Serialization.to_string (N.of_nat row_no))
  else Ok (fst st ++ [fst rl], snd rl).

(** [DataMatrix::load_csv] (and the constructor that calls it), on
    the text of the file; [None] is a file that cannot be opened.
    [n_cols_] is a [size_t]: decrementing it for the label column
    wraps when the header is empty. *)
Definition load_csv (filename : string) (content : option string)
           (label_column : Z) : result DataMatrix :=
  match content with
  | None => Throw ("Unable to open file: " +:+ filename)
  | Some text =>
      let lines := getline_all newline text "" in
      let header := getline_all comma (hd "" lines) "" in
      let n_cols_ :=
        Z.to_nat ((Z.of_nat (length header)
                   - (if (0 <=? label_column)%Z then 1 else 0))
                  mod 2 ^ 64) in
      st ← foldM (line_step label_column n_cols_) (tl lines) ([], []);
      let n_rows_ := length (fst st) in
      if (0 <=? label_column)%Z
         && negb (length (snd st) =? n_rows_)%nat
      then Throw "Inconsistent number of labels"
      else Ok (mkDataMatrix n_rows_ n_cols_ (concat (fst st)) []
                            (snd st) [])
  end.
End Loader.

End Csv.
(* ===================================================================== *)
(** ** gbdt.cpp : cross-validation *)
(* ===================================================================== *)

Module CrossValidation.

(** The raw-data constructor of [DataMatrix], with its exceptions.
    The constructor multiplies [n_rows * n_cols] in [size_t]; the
    product is exact here, which is the same test as long as it stays
    below [2^64]. *)
Definition new_matrix (feats labs : list float) (nr nc : nat)
  : result DataMatrix :=
  if negb (length feats =? nr * nc)%nat
  then Throw "Feature vector size does not match n_rows * n_cols"
  else if negb (length labs =? 0)%nat && negb (length labs =? nr)%nat
  then Throw "Label vector size does not match n_rows"
  else Ok (mkDataMatrix nr nc feats [] labs []).

(** Lines 153-156: [fold_indices[i % n_folds].push_back(indices[i])];
    the remainder by zero is undefined. *)
Definition assign_step (n_folds : N) (folds : list (list N))
           (ix : nat * N) : result (list (list N)) :=
  if (n_folds =? 0)%N then Undefined
  else
    let k := (fst ix mod N.to_nat n_folds)%nat in
    old ← at_index folds k;
    Ok (<[k := old ++ [snd ix]]> folds).

Definition fold_indices (n_folds : N) (indices : list N)
  : result (list (list N)) :=
  foldM (assign_step n_folds) (imap pair indices)
        (replicate (N.to_nat n_folds) []).

(** Lines 180-185 and 194-199: the features and the label of one row
    are appended; [get_feature] and [get_label] do not check their
    index. *)
Definition gather_row (data : DataMatrix) (st : list float * list float)
           (idx : N) : result (list float * list float) :=
  feats ← mapR (fun col => at_index (features data)
                                    (N.to_nat idx * n_cols data + col))
               (seq 0 (n_cols data));
  lab ← at_index (labels data) (N.to_nat idx);
  Ok (fst st ++ feats, snd st ++ [lab]).

Definition subset (data : DataMatrix) (indices : list N)
  : result DataMatrix :=
  fl ← foldM (gather_row data) indices ([], []);
  new_matrix (fst fl) (snd fl) (length indices) (n_cols data).

(** [trees_.resize(n)]: a default-constructed [Tree] has no node and
    the default configuration. *)
Definition resize_trees (n : nat) (l : list Tree.t) : list Tree.t :=
  take n l ++ replicate (n - length l) (Tree.mk [] default_config).

Section CV.
Variables std_exp std_log : float -> float.
Variable simd_find_best_split : simd.finder.
Variable uniform_stream : nat -> float.
Variable evaluate : GBDTConfig -> DataMatrix -> list float -> result float.
(** [get_metric] (metrics.cpp): the metric of that name, or its
    exception. *)
Variable get_metric :
  string -> result (list float -> list float -> float).
(** [std::shuffle] driven by [std::mt19937 gen(seed)]. *)
Variable shuffle : N -> list N -> list N.

(** Lines 211-222: the model cut to its first [round + 1] trees is
    evaluated on the test rows. *)
Definition eval_round (fold_model : GBDT.t) (test_data : DataMatrix)
           (metric_fn : list float -> list float -> float)
           (n_folds : N) (mean_metrics : list float) (round : nat)
  : result (list float) :=
  let eval_model :=
    GBDT.mk (GBDT.config fold_model)
            (resize_trees (round + 1) (GBDT.trees fold_model))
            (GBDT.base_score fold_model) in
  preds ← GBDT.predict std_exp eval_model test_data;
  let metric_value := metric_fn (labels test_data) preds in
  old ← at_index mean_metrics round;
  Ok (<[round := F32.add old (F32.div metric_value
                                     (F32.of_Z (Z.of_N n_folds)))]>
        mean_metrics).

(** The indices of the folds other than [fold], in fold order. *)
Definition train_indices_of (folds : list (list N)) (fold : nat)
  : list N :=
  concat (map snd (filter (fun kf => fst kf <> fold) (imap pair folds))).

(** Lines 165-223: one fold. *)
Definition fold_step (c : GBDTConfig) (data : DataMatrix)
           (metric_fn : list float -> list float -> float)
           (n_folds : N) (folds : list (list N))
           (mean_metrics : list float) (fold : nat)
  : result (list float) :=
  test_indices ← at_index folds fold;
  train_data ← subset data (train_indices_of folds fold);
  test_data ← subset data test_indices;
  fold_model0 ← GBDT.new c;
  fold_model ← GBDT.train std_exp std_log simd_find_best_split
                          uniform_stream evaluate fold_model0 train_data;
  foldM (eval_round fold_model test_data metric_fn n_folds)
        (seq 0 (N.to_nat (n_rounds c))) mean_metrics.

(** [GBDT::cv] *)
Definition cv (m : GBDT.t) (data : DataMatrix) (n_folds : N)
  : result (list float) :=
  let c := GBDT.config m in
  if (N.of_nat (n_rows data) <? n_folds)%N
  then Throw "Number of folds cannot be greater than number of samples"
  else if (length (labels data) =? 0)%nat
  then Throw "Dataset has no labels"
  else
    metric_fn ← get_metric (metric c);
    let indices :=
      shuffle (seed c)
              (map (fun i => wrap32 (N.of_nat i)) (seq 0 (n_rows data))) in
    folds ← fold_indices n_folds indices;
    foldM (fold_step c data metric_fn n_folds folds)
          (seq 0 (N.to_nat n_folds))
          (replicate (N.to_nat (n_rounds c)) F32.zero).
End CV.

End CrossValidation.
(* ===================================================================== *)
(** ** Specification-side structures *)
(* ===================================================================== *)

(** The binary tree that a node vector lays out.  [layout base t] is the
    pre-order vector of [t] when its root is stored at index [base]: the
    root, then the left subtree, then the right subtree. *)
Inductive ptree : Type :=
  | PLeaf (d : N) (w : float)
  | PNode (d f : N) (th g : float) (l r : ptree).

Fixpoint psize (t : ptree) : nat :=
  match t with
  | PLeaf _ _ => 1
  | PNode _ _ _ _ l r => S (psize l + psize r)
  end.

Fixpoint layout (base : nat) (t : ptree) : list TreeNode :=
  match t with
  | PLeaf d w => [leaf_node d w]
  | PNode d f th g l r =>
      internal_node d f th (N.of_nat (S base))
                    (N.of_nat (S base + psize l)) g
      :: layout (S base) l ++ layout (S base + psize l) r
  end.

(** A node vector is well formed when it is the pre-order layout of some
    tree, rooted at index 0. *)
Definition preorder (nodes_ : list TreeNode) : Prop :=
  exists t, nodes_ = layout 0 t.

(** [nodes_] holds the layout of [t] from index [base] on. *)
Definition embedded (nodes_ : list TreeNode) (base : nat) (t : ptree) : Prop :=
  forall i nd, layout base t !! i = Some nd -> nodes_ !! (base + i) = Some nd.

(** The leaf weights of a tree, left to right. *)
Fixpoint pleaves (t : ptree) : list float :=
  match t with
  | PLeaf _ w => [w]
  | PNode _ _ _ _ l r => pleaves l ++ pleaves r
  end.

(** The feature ids tested by a tree. *)
Fixpoint pfeatures (t : ptree) : list N :=
  match t with
  | PLeaf _ _ => []
  | PNode _ f _ _ l r => f :: pfeatures l ++ pfeatures r
  end.

(** The leaf that the walk of [Tree::predict_one] reaches, read off the
    tree: right on NaN or above the threshold, left otherwise.  [None]
    when a tested feature is not in the row. *)
Fixpoint pwalk (t : ptree) (x : list float) : option float :=
  match t with
  | PLeaf _ w => Some w
  | PNode _ f th _ l r =>
      match x !! N.to_nat f with
      | None => None
      | Some v =>
          if F32.is_nan v then pwalk r x
          else if F32.leb v th then pwalk l x else pwalk r x
      end
  end.

(** Positions of a strictly increasing index sequence. *)
Fixpoint increasing (l : list nat) : Prop :=
  match l with
  | [] => True
  | i :: l' => match l' with [] => True | j :: _ => i < j end /\ increasing l'
  end.

(** The node indices visited by the loop of [Tree::predict_one], in
    order (the same loop as [Tree.walk], recording [node_idx]). *)
Fixpoint walk_trace (nodes_ : list TreeNode) (x : list float) (fuel : nat)
         (node_idx : nat) : list nat :=
  match fuel with
  | O => []
  | S fuel' =>
      match nodes_ !! node_idx with
      | None => []
      | Some node =>
          if is_leaf node then [node_idx]
          else
            match x !! N.to_nat (feature_id node) with
            | None => [node_idx]
            | Some v =>
                node_idx ::
                (if F32.is_nan v
                 then walk_trace nodes_ x fuel' (N.to_nat (right_child node))
                 else if F32.leb v (threshold node)
                      then walk_trace nodes_ x fuel' (N.to_nat (left_child node))
                      else walk_trace nodes_ x fuel' (N.to_nat (right_child node)))
            end
      end
  end.

(** The recursion of [Tree::build_node] read as a relation between the
    rows of a node, its depth and the tree grown from them. *)
Section Built.
Variable simd_find_best_split : simd.finder.
Variable cfg : GBDTConfig.
Variable data : DataMatrix.
Variables gradients hessians : list float.

Inductive built : list N -> N -> ptree -> Prop :=
| built_leaf rows d G H :
    Tree.node_sums gradients hessians rows = Ok (G, H) ->
    built rows d (PLeaf d (Tree.calculate_leaf_weight cfg G H))
| built_node rows d G H s l r tl tr :
    Tree.node_sums gradients hessians rows = Ok (G, H) ->
    (d < max_depth cfg)%N ->
    Tree.find_best_split simd_find_best_split cfg data gradients hessians
                         rows G H = Ok s ->
    is_valid s = true ->
    Tree.split_rows data rows s = Ok (l, r) ->
    l <> [] -> r <> [] ->
    built l (wrap32 (d + 1)) tl ->
    built r (wrap32 (d + 1)) tr ->
    built rows d (PNode d (split_feature_id s) (split_threshold s)
                        (split_gain s) tl tr).
End Built.

(** The mean of a label vector: the labels summed in order from 0,
    divided by their count. *)
Definition label_mean (labels_ : list float) : float :=
  F32.div (fold_left F32.add labels_ F32.zero) (F32.of_nat (length labels_)).

(** [mu] is [x] clipped to the interval [[lo, hi]]: it lies in the
    interval, it is [x] when [x] lies in the interval, and the nearer
    bound when [x] lies outside. *)
Definition clipped_to (lo hi x mu : float) : Prop :=
  F32.leb lo mu = true /\ F32.leb mu hi = true /\
  (F32.leb lo x = true -> F32.leb x hi = true -> mu = x) /\
  (F32.ltb x lo = true -> mu = lo) /\
  (F32.ltb hi x = true -> mu = hi).

(** The regularised gain of a split,
    [G_L^2 / (H_L + lambda) + G_R^2 / (H_R + lambda)
     - G_T^2 / (H_T + lambda)], in binary32. *)
Definition split_gain_formula (GL HL GR HR GT HT lambda : float) : float :=
  F32.sub
    (F32.add (F32.div (F32.mul GL GL) (F32.add HL lambda))
             (F32.div (F32.mul GR GR) (F32.add HR lambda)))
    (F32.div (F32.mul GT GT) (F32.add HT lambda)).

(** What a reported candidate must satisfy: its left sums are the
    histogram prefix sums through its bin, both child hessian sums reach
    [w_min], and its gain is the gain formula on those sums. *)
Definition candidate_ok (grad_hist hess_hist : list float) (n_bins_ : N)
           (GT HT w_min lambda : float) (o : simd.split_out) : Prop :=
  let b := N.to_nat (simd.out_split_bin o) in
  let GL := simd.out_left_sum_g o in
  let HL := simd.out_left_sum_h o in
  (simd.out_split_bin o < n_bins_)%N /\
  GL = simd.prefix_sum grad_hist b /\
  HL = simd.prefix_sum hess_hist b /\
  F32.geb HL w_min = true /\
  F32.geb (F32.sub HT HL) w_min = true /\
  simd.out_split_gain o
  = split_gain_formula GL HL (F32.sub GT GL) (F32.sub HT HL) GT HT lambda.

(** The thresholds tested by a tree. *)
Fixpoint pthresholds (t : ptree) : list float :=
  match t with
  | PLeaf _ _ => []
  | PNode _ _ th _ l r => th :: pthresholds l ++ pthresholds r
  end.

(** [tree_t(x)] in the words of the prediction path: start at a node,
    and while the current node is internal go right if [x[f]] is NaN or
    [x[f] > threshold] and left otherwise; at a leaf return its weight.
    [None] when the walk leaves the vector or the row, or does not end
    within [fuel] nodes. *)
Fixpoint spec_walk (nodes_ : list TreeNode) (x : list float) (fuel : nat)
         (node_idx : nat) : option float :=
  match fuel with
  | O => None
  | S fuel' =>
      node ← nodes_ !! node_idx;
      if is_leaf node then Some (weight node)
      else
        v ← x !! N.to_nat (feature_id node);
        if F32.is_nan v || F32.gtb v (threshold node)
        then spec_walk nodes_ x fuel' (N.to_nat (right_child node))
        else spec_walk nodes_ x fuel' (N.to_nat (left_child node))
  end.

Definition tree_value (tr : Tree.t) (x : list float) : option float :=
  spec_walk (Tree.nodes tr) x (S (length (Tree.nodes tr))) 0.




(** A tree that [Tree::build] can have returned for the rows [rows]. *)
Definition grown (simd_find_best_split : simd.finder) (cfg : GBDTConfig)
           (data : DataMatrix) (gradients hessians : list float)
           (rows : list N) (tr : Tree.t) : Prop :=
  exists t,
    built simd_find_best_split cfg data gradients hessians rows 0 t /\
    Tree.nodes tr = layout 0 t /\
    Tree.config tr = cfg /\
    psize t < 2 * max 1 (length rows).

(** A tree on which the prediction walk is defined for every row of
    [width] columns: a pre-order layout whose tested features are below
    [width] and whose thresholds are not NaN. *)
Definition walkable (width : nat) (tr : Tree.t) : Prop :=
  exists t,
    Tree.nodes tr = layout 0 t /\
    Forall (fun f => N.to_nat f < width) (pfeatures t) /\
    Forall (fun th => F32.is_nan th = false) (pthresholds t).

(** *** Serialization *)

(** The queue of the breadth-first numbering, seen as a forest: the
    subtrees still to number, each with the index of its root. *)
Definition forest : Type := list (nat * ptree).

Definition fsize (q : forest) : nat :=
  foldr (fun bt acc => psize (snd bt) + acc) 0 q.

Definition forest_roots (q : forest) : list N :=
  map (fun bt => N.of_nat (fst bt)) q.

(** The indices of a forest in breadth-first order. *)
Fixpoint bfs_order (fuel : nat) (q : forest) : list nat :=
  match fuel with
  | O => []
  | S fuel' =>
      match q with
      | [] => []
      | (b, PLeaf _ _) :: q' => b :: bfs_order fuel' q'
      | (b, PNode _ _ _ _ l r) :: q' =>
          b :: bfs_order fuel' (q' ++ [(S b, l); (S b + psize l, r)])
      end
  end.

(** Consecutive ids, from [next] on, given to a list of indices. *)
Fixpoint assign (m : gmap N N) (next : N) (order : list nat) : gmap N N :=
  match order with
  | [] => m
  | i :: order' => assign (<[N.of_nat i := next]> m) (next + 1)%N order'
  end.







(* ===================================================================== *)
(** ** Concrete inputs *)
(* ===================================================================== *)

Module Ex.

Definition fz : Z -> float := F32.of_Z.

(** A one-column regression set of seven rows, the fourth missing. *)
Definition cfg : GBDTConfig :=
  mkConfig Regression 2 F32.one 3 1 F32.one F32.one 8
           F32.one F32.one 0 (-1) "rmse".
Definition raw : DataMatrix :=
  mkDataMatrix 7 1 [fz 1; fz 2; fz 3; F32.nan; fz 5; fz 6; fz 7] []
               [fz 1; fz 1; fz 1; fz 9; fz 5; fz 5; fz 5] [].
Definition binned : DataMatrix := default raw (create_bins 8 raw).
Definition grad : list float := map (fun y => F32.sub F32.zero y) (labels raw).
Definition hess : list float := map (fun _ => F32.one) (labels raw).
Definition rows : list N := map N.of_nat (seq 0 7).

(** The tree grown from these rows by the scalar fallback. *)
Definition tree : Tree.t :=
  match Tree.build simd.find_best_split_fallback cfg binned grad hess rows with
  | Ok tr => tr
  | _ => Tree.mk [] cfg
  end.

(** The column of the binner scenario, [1, NaN, 3, NaN, 5]. *)
Definition scenario_column : DataMatrix :=
  mkDataMatrix 5 1 [fz 1; F32.nan; fz 3; F32.nan; fz 5] [] [] [].

(** The 5 x 2 matrix of the repository's test
    [DataMatrixTest.MissingValues] (test_data.cpp). *)
Definition missing_values_test : DataMatrix :=
  mkDataMatrix 5 2
               [fz 1; fz 2;
                fz 2; F32.nan;
                fz 3; fz 4;
                F32.nan; fz 5;
                fz 5; fz 6]
               [] [fz 0; fz 1; fz 0; fz 1; fz 0] [].

(** Two rows of hessian 1 under [min_child_weight = 1.5]: no split can
    give both children enough weight. *)
Definition light_cfg : GBDTConfig :=
  mkConfig Regression 1 F32.one 3 1 (F32.div (fz 3) (fz 2)) F32.one 8
           F32.one F32.one 0 (-1) "rmse".
Definition light_raw : DataMatrix :=
  mkDataMatrix 2 1 [fz 1; fz 2] [] [fz 1; fz 3] [].
Definition light_binned : DataMatrix :=
  default light_raw (create_bins 8 light_raw).
Definition light_grad : list float := [fz 1; fz (-1)].
Definition light_hess : list float := [fz 1; fz 1].
Definition light_rows : list N := [0; 1]%N.

(** Three rows [1, 2, 3] with gradients [1, 1, -2] and hessians 1
    under [min_child_weight = 1]: every sum is exact. *)
Definition three_cfg : GBDTConfig :=
  mkConfig Regression 1 F32.one 3 1 F32.one F32.one 8
           F32.one F32.one 0 (-1) "rmse".
Definition three_raw : DataMatrix :=
  mkDataMatrix 3 1 [fz 1; fz 2; fz 3] [] [fz 0; fz 0; fz 0] [].
Definition three_binned : DataMatrix :=
  default three_raw (create_bins 8 three_raw).
Definition three_grad : list float := [fz 1; fz 1; fz (-2)].
Definition three_hess : list float := [fz 1; fz 1; fz 1].
Definition three_rows : list N := [0; 1; 2]%N.

(** Four rows whose hessians do not add up exactly in binary32:
    [(1 + 0.5) + 2^24] rounds to [2^24 + 2], while the bin sums
    [1 + 2^24] and [(1 + 2^24) + (0.5 + 0.5)] both round to [2^24]. *)
Definition half : float := F32.div (fz 1) (fz 2).
Definition round_cfg : GBDTConfig :=
  mkConfig Regression 1 F32.one 3 1 F32.one F32.one 4
           F32.one F32.one 0 (-1) "rmse".
Definition round_raw : DataMatrix :=
  mkDataMatrix 4 1 [fz 0; F32.nan; fz 0; fz 5] [] [] [].
Definition round_binned : DataMatrix :=
  default round_raw (create_bins 4 round_raw).
Definition round_grad : list float := [fz 0; half; fz 4194304; half].
Definition round_hess : list float := [fz 1; half; fz 16777216; half].
Definition round_rows : list N := [0; 1; 2; 3]%N.
Definition round_GT : float := fz 4194305.
Definition round_HT : float := fz 16777218.

(** Training runs.  The regression task calls neither [std::exp] nor
    [std::log], the full sample draws nothing from the random stream,
    and the metric value is only printed: the three parameters below
    stand for them. *)
Definition libm_unused (x : float) : float := x.
Definition no_draws (k : nat) : float := F32.zero.
Definition metric_printed (c : GBDTConfig) (d : DataMatrix)
           (p : list float) : result float := Ok F32.zero.

Definition train_fallback (c : GBDTConfig) (d : DataMatrix) : result GBDT.t :=
  m0 ← GBDT.new c;
  GBDT.train libm_unused libm_unused simd.find_best_split_fallback
             no_draws metric_printed m0 d.

(** Four rows [x = 1, 2, 3, 4] with labels [0, 0, 1, 1]; two rounds at
    learning rate [0.1f]. *)
Definition two_round_cfg : GBDTConfig :=
  mkConfig Regression 2 F32.c0_1 3 1 F32.one F32.one 8
           F32.one F32.one 0 (-1) "rmse".
Definition four_rows : DataMatrix :=
  mkDataMatrix 4 1 [fz 1; fz 2; fz 3; fz 4] []
               [fz 0; fz 0; fz 1; fz 1] [].
Definition two_round_model : GBDT.t :=
  match train_fallback two_round_cfg four_rows with
  | Ok m => m
  | _ => GBDT.mk two_round_cfg [] F32.zero
  end.

(** Stand-ins for the metric table and for [std::shuffle]: a metric
    that is always zero, and the order left as it is. *)
Definition zero_metric (name : string)
  : result (list float -> list float -> float) :=
  Ok (fun _ _ => F32.zero).
Definition no_shuffle (seed : N) (l : list N) : list N := l.
Definition cv_fallback (m : GBDT.t) (d : DataMatrix) (n_folds : N)
  : result (list float) :=
  CrossValidation.cv libm_unused libm_unused simd.find_best_split_fallback
                     no_draws metric_printed zero_metric no_shuffle
                     m d n_folds.

(** Ten rows of two columns with codes below 3, visited through twelve
    row indices: one chunk of eight and four more. *)
Definition codes : list N :=
  [0; 1;  1; 1;  2; 0;  0; 0;  1; 2;  2; 2;  0; 1;  1; 0;  2; 1;  0; 2]%N.
Definition twelve_rows : list N := [0; 1; 2; 3; 4; 5; 6; 7; 8; 9; 3; 3]%N.
Definition ten_values : list float :=
  map (fun i => F32.div (fz (Z.of_nat i)) (fz 3)) (seq 1 10).

(** Four rows whose two columns are equal, so that both features
    offer the same best gain. *)
Definition twin_raw : DataMatrix :=
  mkDataMatrix 4 2 [fz 1; fz 1; fz 2; fz 2; fz 3; fz 3; fz 4; fz 4] []
               [fz 0; fz 0; fz 1; fz 1] [].
Definition twin_binned : DataMatrix :=
  default twin_raw (create_bins 8 twin_raw).
Definition twin_grad : list float := [fz 1; fz 1; fz (-1); fz (-1)].
Definition twin_hess : list float := [fz 1; fz 1; fz 1; fz 1].

(** A tree of five nodes: the left child of the root is split again. *)
Definition five_nodes : ptree :=
  PNode 0 0 (fz 2) (fz 1)
        (PNode 1 0 (fz 1) (fz 1) (PLeaf 2 (fz (-1))) (PLeaf 2 (fz 0)))
        (PLeaf 1 (fz 1)).

End Ex.
(* ===================================================================== *)
(** ** Further specification-side structures *)
(* ===================================================================== *)

(** Every element of the list is related by [R] to every later one. *)
Fixpoint ordered {A} (R : A -> A -> Prop) (l : list A) : Prop :=
  match l with
  | [] => True
  | a :: l' => Forall (R a) l' /\ ordered R l'
  end.

(** Strictly increasing, and increasing, for the [float] comparisons. *)
Definition ascending (l : list float) : Prop :=
  ordered (fun a e => F32.ltb a e = true) l.

Definition nondecreasing (l : list float) : Prop :=
  ordered (fun a e => F32.leb a e = true) l.

(** The candidate split after bin [b] of a feature, as the sweep sees
    it: whether both sides reach [w_min], and its gain. *)
Definition bin_admissible (hess_hist : list float) (HT w_min : float)
           (b : nat) : bool :=
  F32.geb (simd.prefix_sum hess_hist b) w_min
  && F32.geb (F32.sub HT (simd.prefix_sum hess_hist b)) w_min.

Definition bin_gain (grad_hist hess_hist : list float)
           (GT HT lambda : float) (b : nat) : float :=
  let GL := simd.prefix_sum grad_hist b in
  let HL := simd.prefix_sum hess_hist b in
  split_gain_formula GL HL (F32.sub GT GL) (F32.sub HT HL) GT HT lambda.

(** An output of the sweep whose left sums are the prefix sums through
    its bin, a bin below [k]; the initial output counts as such. *)
Definition sums_ok (grad_hist hess_hist : list float) (k : nat)
           (o : simd.split_out) : Prop :=
  o = simd.out_init \/
  (N.to_nat (simd.out_split_bin o) < k /\
   simd.out_left_sum_g o
   = simd.prefix_sum grad_hist (N.to_nat (simd.out_split_bin o)) /\
   simd.out_left_sum_h o
   = simd.prefix_sum hess_hist (N.to_nat (simd.out_split_bin o))).

(** A matrix as its constructors leave it: one feature per cell and one
    label per row. *)
Definition well_formed (d : DataMatrix) : Prop :=
  length (features d) = n_rows d * n_cols d /\
  length (labels d) = n_rows d.

(** What [Tree::build] reads without checking: a gradient and a hessian
    per row, a feature and a bin code per cell, every code below
    [n_bins], and the edges of every column. *)
Definition ready (cfg : GBDTConfig) (data : DataMatrix)
           (gradients hessians : list float) : Prop :=
  length gradients = n_rows data /\
  length hessians = n_rows data /\
  length (features data) = n_rows data * n_cols data /\
  length (binned_features data) = n_rows data * n_cols data /\
  Forall (fun c => (c < n_bins cfg)%N) (binned_features data) /\
  length (bin_info data) = n_cols data.

(** The number of distinct non-missing values of a column. *)
Definition distinct_values (d : DataMatrix) (col : nat) : nat :=
  length (std_unique (std_sort (column_values d col))).

(** The number of delimiters of a text, and whether it ends with one. *)
Fixpoint occurrences (delim : Ascii.ascii) (s : string) : nat :=
  match s with
  | EmptyString => 0
  | String c s' =>
      (if Ascii.eqb c delim then 1 else 0) + occurrences delim s'
  end.

Fixpoint ends_with (delim : Ascii.ascii) (s : string) : bool :=
  match s with
  | EmptyString => false
  | String c EmptyString => Ascii.eqb c delim
  | String _ s' => ends_with delim s'
  end.

(** A stand-in for [std::stof] on the decimal integers, for concrete
    runs of the loader. *)
Definition stof_integers (s : string) : result float :=
  match Serialization.stoi s with
  | Ok z => Ok (F32.of_Z z)
  | Throw _ => Throw "stof"
  | _ => Undefined
  end.

(** A file of three lines: a header and two data rows, the label first
    and one value missing. *)
Definition csv_example : string :=
  "y,a,b" +:+ String Csv.newline ("1,2,3" +:+ String Csv.newline
  ("0,NA,5" +:+ String Csv.newline "")).

(** The size of fold [k] when [len] rows are dealt to [n] folds in
    turn: the first [len mod n] folds hold one row more. *)
Definition fold_size (len n k : nat) : nat :=
  (len / n + (if (k <? len mod n)%nat then 1 else 0))%nat.

(** Row [i] of a row-major matrix. *)
Definition row_of (d : DataMatrix) (i : nat) : list float :=
  take (n_cols d) (drop (i * n_cols d) (features d)).

(** ** The histograms of simd_utils.cpp *)

(** What the histogram functions read without checking: a code below
    [n_bins] in every cell of an [n_rows] by [n_cols] table, and row
    indices below [n_rows]. *)
Definition codes_ready (data rows : list N) (n_rows n_cols : nat)
           (n_bins : N) : Prop :=
  length data = n_rows * n_cols /\
  (forall row, row ∈ rows -> N.to_nat row < n_rows) /\
  (forall c, c ∈ data -> (c < n_bins)%N).

(** The listed rows whose code in column [col] is [bin], in list
    order and with their repetitions. *)
Definition rows_in_bin (data : list N) (n_cols : nat) (rows : list N)
           (col : nat) (bin : N) : list N :=
  filter (fun row => data !! (N.to_nat row * n_cols + col) = Some bin) rows.

(** The values of [v] at the listed rows. *)
Definition values_at (v : list float) (rows : list N) : list float :=
  map (fun row => nth (N.to_nat row) v F32.zero) rows.

(** A vector after a sequence of cell updates: cell [k] has received,
    in order, the updates aimed at it. *)
Definition settle {X E : Type} (target : E -> nat) (g : X -> E -> X)
           (es : list E) (h : list X) : list X :=
  imap (fun k x => fold_left g (filter (fun e => target e = k) es) x) h.

(** One update of the gradient and hessian histograms. *)
Record cell_event := mkEvent {
  ev_col : nat;
  ev_bin : N;
  ev_grad : float;
  ev_hess : float
}.

(** The code the histogram functions find for a row and a column. *)
Definition hist_code (data : list N) (n_cols : nat) (row : N) (col : nat)
  : N :=
  default 0%N (data !! (N.to_nat row * n_cols + col)).

(** The orders in which the cells of the listed rows are visited: row
    after row; column after column; and, as the AVX2 variants do,
    column after column inside each chunk of eight rows, then row after
    row for the rest. *)
Definition row_major {E} (ev : N -> nat -> E) (n_cols : nat)
           (rows : list N) : list E :=
  flat_map (fun row => map (ev row) (seq 0 n_cols)) rows.

Definition col_major {E} (ev : N -> nat -> E) (n_cols : nat)
           (rows : list N) : list E :=
  flat_map (fun col => map (fun row => ev row col) rows) (seq 0 n_cols).

Definition chunked {E} (ev : N -> nat -> E) (n_cols : nat)
           (rows : list N) : list E :=
  flat_map (fun k => col_major ev n_cols (take 8 (drop (8 * k) rows)))
           (seq 0 (length rows / 8))
  ++ row_major ev n_cols (drop (8 * (length rows / 8)) rows).

Definition count_event (data : list N) (n_cols : nat) (row : N)
           (col : nat) : nat * N :=
  (col, hist_code data n_cols row col).

Definition grad_event (data : list N) (n_cols : nat)
           (gradients hessians : list float) (row : N) (col : nat)
  : cell_event :=
  mkEvent col (hist_code data n_cols row col)
          (nth (N.to_nat row) gradients F32.zero)
          (nth (N.to_nat row) hessians F32.zero).

(** ** The breadth-first numbering *)

(** The subtrees of a tree, each with the index of its root in the
    layout. *)
Fixpoint subtrees (b : nat) (t : ptree) : forest :=
  (b, t) ::
  match t with
  | PLeaf _ _ => []
  | PNode _ _ _ _ l r => subtrees (S b) l ++ subtrees (S b + psize l) r
  end.

(** The two children that the numbering loop appends to its queue. *)
Definition pchildren (bt : nat * ptree) : forest :=
  match snd bt with
  | PLeaf _ _ => []
  | PNode _ _ _ _ l r => [(S (fst bt), l); (S (fst bt) + psize l, r)]
  end.

(** ** The ranges of [GBDTConfig::validate] *)

(** What the comparisons of [validate] let through for a [float]
    option: a number of the range, or NaN, on which every comparison
    is false. *)
Definition in_unit_or_nan (x : float) : Prop :=
  F32.is_nan x = true \/
  (F32.ltb F32.zero x = true /\ F32.leb x F32.one = true).

Definition positive_or_nan (x : float) : Prop :=
  F32.is_nan x = true \/ F32.ltb F32.zero x = true.

Definition not_negative_or_nan (x : float) : Prop :=
  F32.is_nan x = true \/ F32.leb F32.zero x = true.

(** ** The rows of a leaf *)

(** The index of the leaf at which the loop of [Tree::predict_one]
    stops: the same loop as [Tree.walk], returning [node_idx] where the
    loop returns the weight.  [None] when the walk leaves the vector or
    the row, or does not end within [fuel] nodes. *)
Fixpoint walk_leaf (nodes_ : list TreeNode) (x : list float) (fuel : nat)
         (node_idx : nat) : option nat :=
  match fuel with
  | O => None
  | S fuel' =>
      node ← nodes_ !! node_idx;
      if is_leaf node then Some node_idx
      else
        v ← x !! N.to_nat (feature_id node);
        if F32.is_nan v
        then walk_leaf nodes_ x fuel' (N.to_nat (right_child node))
        else if F32.leb v (threshold node)
             then walk_leaf nodes_ x fuel' (N.to_nat (left_child node))
             else walk_leaf nodes_ x fuel' (N.to_nat (right_child node))
  end.

Definition leaf_reached (tr : Tree.t) (x : list float) : option nat :=
  walk_leaf (Tree.nodes tr) x (S (length (Tree.nodes tr))) 0.

(** The rows of [rows], in their order and with their repetitions, whose
    features lead to the leaf stored at index [i]. *)
Definition rows_reaching (tr : Tree.t) (data : DataMatrix) (rows : list N)
           (i : nat) : list N :=
  filter (fun row =>
            leaf_reached tr (Tree.row_features data (N.to_nat row)) = Some i)
         rows.

(** The same index read off the tree that the vector lays out from
    index [base] on. *)
Fixpoint pwalk_index (base : nat) (t : ptree) (x : list float) : option nat :=
  match t with
  | PLeaf _ _ => Some base
  | PNode _ f th _ l r =>
      match x !! N.to_nat f with
      | None => None
      | Some v =>
          if F32.is_nan v then pwalk_index (S base + psize l) r x
          else if F32.leb v th then pwalk_index (S base) l x
               else pwalk_index (S base + psize l) r x
      end
  end.
(* ===================================================================== *)
(** * Properties *)
(* ===================================================================== *)

(** ** The outcome monad *)

Lemma bind_Ok {A B} (m : result A) (f : A -> result B) (b : B) :
  (a ← m; f a) = Ok b -> exists a, m = Ok a /\ f a = Ok b.
Proof.
  destruct m as [a| | |]; simpl; intros H; try discriminate.
  exists a. split; [reflexivity | exact H].
Qed.

Lemma bind_Ok_l {A B} (m : result A) (f : A -> result B) (a : A) :
  m = Ok a -> (a ← m; f a) = f a.
Proof. intros ->. reflexivity. Qed.

Ltac inv_bind H :=
  let a := fresh "a" in
  let Ha := fresh "Ha" in
  apply bind_Ok in H; destruct H as (a & Ha & H).

Lemma at_index_Ok {A} (l : list A) (i : nat) (a : A) :
  at_index l i = Ok a <-> l !! i = Some a.
Proof.
  unfold at_index. destruct (l !! i); split; intros H; congruence.
Qed.

Lemma foldM_app {A B} (f : B -> A -> result B) (l1 l2 : list A) (b : B) :
  foldM f (l1 ++ l2) b = (b' ← foldM f l1 b; foldM f l2 b').
Proof.
  revert b. induction l1 as [|a l1 IH]; intros b; simpl.
  - reflexivity.
  - destruct (f b a) as [b'| | |]; simpl; auto.
Qed.

Lemma mapR_Ok_length {A B} (f : A -> result B) (l : list A) (bs : list B) :
  mapR f l = Ok bs -> length bs = length l.
Proof.
  revert bs. induction l as [|a l IH]; intros bs H; simpl in H.
  - injection H as <-. reflexivity.
  - inv_bind H. inv_bind H. injection H as <-. simpl. f_equal. eauto.
Qed.

Lemma mapR_Ok_lookup {A B} (f : A -> result B) (l : list A) (bs : list B)
      (i : nat) (a : A) :
  mapR f l = Ok bs -> l !! i = Some a ->
  exists b, bs !! i = Some b /\ f a = Ok b.
Proof.
  revert bs i. induction l as [|a' l IH]; intros bs i H Hi; simpl in H.
  - discriminate.
  - inv_bind H. inv_bind H. injection H as <-.
    destruct i as [|i]; simpl in *.
    + injection Hi as ->. eauto.
    + eauto.
Qed.

Lemma mapR_Ok_elem {A B} (f : A -> result B) (l : list A) (bs : list B)
      (b : B) :
  mapR f l = Ok bs -> b ∈ bs -> exists a, a ∈ l /\ f a = Ok b.
Proof.
  revert bs. induction l as [|a l IH]; intros bs H Hb; simpl in H.
  - injection H as <-. inversion Hb.
  - inv_bind H. inv_bind H. injection H as <-.
    apply elem_of_cons in Hb as [-> | Hb].
    + exists a. split; [left | assumption].
    + destruct (IH _ Ha0 Hb) as (a' & Ha' & Hf).
      exists a'. split; [right; assumption | assumption].
Qed.

Lemma mapR_total {A B} (f : A -> result B) (l : list A) :
  (forall a, a ∈ l -> exists b, f a = Ok b) ->
  exists bs, mapR f l = Ok bs.
Proof.
  induction l as [|a l IH]; intros H; simpl.
  - eauto.
  - destruct (H a) as (b & Hb); [left|].
    destruct IH as (bs & Hbs).
    { intros a' Ha'. apply H. right. assumption. }
    rewrite Hb, Hbs. simpl. eauto.
Qed.

Lemma bind_not_Timeout {A B} (m : result A) (f : A -> result B) :
  m <> Timeout -> (forall a, f a <> Timeout) -> (a ← m; f a) <> Timeout.
Proof. destruct m; simpl; auto; discriminate. Qed.

Lemma at_index_not_Timeout {A} (l : list A) (i : nat) :
  at_index l i <> Timeout.
Proof. unfold at_index. destruct (l !! i); discriminate. Qed.

Lemma foldM_not_Timeout {A B} (f : B -> A -> result B) (l : list A) (b : B) :
  (forall b a, f b a <> Timeout) -> foldM f l b <> Timeout.
Proof.
  intros Hf. revert b. induction l as [|a l IH]; intros b; simpl.
  - discriminate.
  - apply bind_not_Timeout; auto.
Qed.

Lemma mapR_not_Timeout {A B} (f : A -> result B) (l : list A) :
  (forall a, f a <> Timeout) -> mapR f l <> Timeout.
Proof.
  intros Hf. induction l as [|a l IH]; simpl.
  - discriminate.
  - apply bind_not_Timeout; [apply Hf|intros b].
    apply bind_not_Timeout; [exact IH|discriminate].
Qed.

Create HintDb timeout.
#[global] Hint Resolve bind_not_Timeout at_index_not_Timeout
  foldM_not_Timeout mapR_not_Timeout : timeout.

Lemma omap_length_le {A B} (f : A -> option B) (l : list A) :
  length (omap f l) <= length l.
Proof.
  induction l as [|a l IH]; [reflexivity|].
  change (omap f (a :: l))
    with (match f a with Some y => y :: omap f l | None => omap f l end).
  destruct (f a); simpl; lia.
Qed.

(** ** Fixed-width conversions *)

Lemma wrap32_small (n : N) : (n < 2 ^ 32)%N -> wrap32 n = n.
Proof. intros H. unfold wrap32. apply N.mod_small. exact H. Qed.

Lemma wrap32_le (n : N) : (wrap32 n <= n)%N.
Proof. unfold wrap32. apply N.Div0.mod_le. Qed.

Lemma wrap32_of_nat (n : nat) :
  (N.of_nat n < 2 ^ 32)%N -> wrap32 (N.of_nat n) = N.of_nat n.
Proof. apply wrap32_small. Qed.

(** ** Ordering of binary32 values *)

Section FloatOrder.
Implicit Types x y z : float.

Lemma SFcompare_antisym x y :
  SFcompare y x = option_map CompOpp (SFcompare x y).
Proof.
  destruct x as [sx|sx| |sx mx ex], y as [sy|sy| |sy my ey]; simpl;
    try reflexivity;
    try (destruct sx, sy; reflexivity);
    try (destruct sx; reflexivity);
    try (destruct sy; reflexivity).
  destruct sx, sy; simpl; try reflexivity;
    rewrite (Z.compare_antisym ex ey);
    destruct (ex ?= ey)%Z; simpl; try reflexivity;
    change (Pos.compare_cont Eq my mx) with (my ?= mx)%positive;
    change (Pos.compare_cont Eq mx my) with (mx ?= my)%positive;
    rewrite (Pos.compare_antisym mx my);
    destruct (mx ?= my)%positive; reflexivity.
Qed.

Lemma ltb_spec x y : F32.ltb x y = true <-> SFcompare x y = Some Lt.
Proof.
  unfold F32.ltb, SFltb. destruct (SFcompare x y) as [[]|]; split;
    intros H; congruence.
Qed.

Lemma leb_spec x y :
  F32.leb x y = true <->
  SFcompare x y = Some Lt \/ SFcompare x y = Some Eq.
Proof.
  unfold F32.leb, SFleb. destruct (SFcompare x y) as [[]|]; split;
    intros H; try congruence; auto; destruct H; congruence.
Qed.

Lemma ltb_leb x y : F32.ltb x y = true -> F32.leb x y = true.
Proof. rewrite ltb_spec, leb_spec. auto. Qed.

Lemma ltb_asym x y : F32.ltb x y = true -> F32.ltb y x = false.
Proof.
  rewrite ltb_spec. intros H. unfold F32.ltb, SFltb.
  rewrite SFcompare_antisym, H. reflexivity.
Qed.

Lemma ltb_not_leb x y : F32.ltb x y = true -> F32.leb y x = false.
Proof.
  rewrite ltb_spec. intros H. unfold F32.leb, SFleb.
  rewrite SFcompare_antisym, H. reflexivity.
Qed.

Lemma leb_not_ltb x y : F32.leb x y = true -> F32.ltb y x = false.
Proof.
  intros H. destruct (F32.ltb y x) eqn:E; [|reflexivity].
  apply ltb_not_leb in E. congruence.
Qed.

Lemma leb_ge_cases x y :
  F32.leb x y = true -> F32.ltb x y = false -> F32.leb y x = true.
Proof.
  rewrite !leb_spec. intros [H|H] Hn.
  - apply ltb_spec in H. congruence.
  - right. rewrite SFcompare_antisym, H. reflexivity.
Qed.

(** Two values that compare equal are the same value, except for the
    two zeros. *)
Lemma compare_Eq_finite x s m e :
  SFcompare x (S754_finite s m e) = Some Eq -> x = S754_finite s m e.
Proof.
  destruct x as [sx|sx| |sx mx ex]; simpl; try discriminate.
  - destruct s; discriminate.
  - destruct sx; discriminate.
  - change (Pos.compare_cont Eq mx m) with (mx ?= m)%positive.
    destruct sx, s; try discriminate;
      destruct (ex ?= e)%Z eqn:Ee; try discriminate;
      apply Z.compare_eq in Ee; subst;
      destruct (mx ?= m)%positive eqn:Em; simpl; try discriminate;
      apply Pos.compare_eq in Em; subst; reflexivity.
Qed.

Lemma leb_antisym_finite x s m e :
  F32.leb x (S754_finite s m e) = true ->
  F32.ltb x (S754_finite s m e) = false ->
  x = S754_finite s m e.
Proof.
  rewrite leb_spec. intros [H|H] Hn.
  - apply ltb_spec in H. congruence.
  - apply compare_Eq_finite. exact H.
Qed.

Lemma compare_trans x y z c :
  SFcompare x y = Some c -> SFcompare y z = Some c ->
  SFcompare x z = Some c.
Proof.
  destruct x as [sx|sx| |sx mx ex], y as [sy|sy| |sy my ey],
           z as [sz|sz| |sz mz ez]; simpl; try discriminate;
    try (destruct sx, sy, sz; simpl; congruence);
    try (destruct sx, sy; simpl; congruence);
    try (destruct sx, sz; simpl; congruence);
    try (destruct sy, sz; simpl; congruence);
    try (destruct sx; simpl; congruence);
    try (destruct sy; simpl; congruence);
    try (destruct sz; simpl; congruence).
  all: destruct sx, sy, sz; simpl; try congruence.
  all: intros H1 H2; injection H1 as H1; injection H2 as H2; f_equal.
  all: destruct (Z.compare_spec ex ey), (Z.compare_spec ey ez),
         (Z.compare_spec ex ez); subst; try lia; try congruence.
  all: change (Pos.compare_cont Eq mx my) with (mx ?= my)%positive in *;
       change (Pos.compare_cont Eq my mz) with (my ?= mz)%positive in *;
       change (Pos.compare_cont Eq mx mz) with (mx ?= mz)%positive in *.
  all: try (destruct (Pos.compare_spec mx my), (Pos.compare_spec my mz),
            (Pos.compare_spec mx mz); subst; simpl in *;
            try lia; congruence).
Qed.

Lemma ltb_trans x y z :
  F32.ltb x y = true -> F32.ltb y z = true -> F32.ltb x z = true.
Proof. rewrite !ltb_spec. apply compare_trans. Qed.

(** No comparison holds on a NaN. *)
Lemma leb_nan_l y : F32.leb F32.nan y = false.
Proof. reflexivity. Qed.

Lemma ltb_nan_r x : F32.ltb x F32.nan = false.
Proof. destruct x; reflexivity. Qed.

End FloatOrder.

(** ** The tree builder lays its nodes out in pre-order *)

Lemma layout_length (t : ptree) (base : nat) :
  length (layout base t) = psize t.
Proof.
  revert base. induction t as [d w | d f th g l IHl r IHr]; intros base; simpl.
  - reflexivity.
  - rewrite length_app, IHl, IHr. reflexivity.
Qed.

Lemma psize_pos (t : ptree) : 0 < psize t.
Proof. destruct t; simpl; lia. Qed.

Section BuildNode.
Variable fbs : simd.finder.
Variable cfg : GBDTConfig.
Variable data : DataMatrix.
Variables gradients hessians : list float.

#[local] Abbreviation build_node := (Tree.build_node fbs cfg data gradients hessians).
#[local] Abbreviation built := (built fbs cfg data gradients hessians).

(** [split_rows] distributes the rows over the two sides, keeping
    their order. *)
Lemma split_rows_acc rows s l0 r0 l r :
  foldM (Tree.split_step data s) rows (l0, r0) = Ok (l, r) ->
  exists l' r', l = l0 ++ l' /\ r = r0 ++ r' /\
                sublist l' rows /\ sublist r' rows /\
                length l' + length r' = length rows.
Proof.
  revert l0 r0. induction rows as [|x rows IH]; intros l0 r0 H; simpl in H.
  - injection H as <- <-. exists [], []. rewrite !app_nil_r.
    repeat split; constructor.
  - inv_bind H. unfold Tree.split_step in Ha. inv_bind Ha. simpl in Ha.
    destruct (F32.is_nan a0);
      [|destruct (F32.leb a0 (split_threshold s))];
      injection Ha as <-; apply IH in H as (l' & r' & -> & -> & Hl & Hr & Hlen).
    + exists l', (x :: r'). rewrite <- app_assoc. simpl.
      repeat split; [by apply sublist_cons | by apply sublist_skip | lia].
    + exists (x :: l'), r'. rewrite <- app_assoc. simpl.
      repeat split; [by apply sublist_skip | by apply sublist_cons | lia].
    + exists l', (x :: r'). rewrite <- app_assoc. simpl.
      repeat split; [by apply sublist_cons | by apply sublist_skip | lia].
Qed.

Lemma split_rows_spec rows s l r :
  Tree.split_rows data rows s = Ok (l, r) ->
  sublist l rows /\ sublist r rows /\ length l + length r = length rows.
Proof.
  intros H. apply split_rows_acc in H as (l' & r' & -> & -> & ? & ? & ?).
  simpl. auto.
Qed.

Lemma emit_leaf_layout nodes_ d G H :
  (N.of_nat (length nodes_) < 2 ^ 32)%N ->
  Tree.emit_leaf cfg nodes_ d G H =
  (N.of_nat (length nodes_),
   nodes_ ++ layout (length nodes_)
                    (PLeaf d (Tree.calculate_leaf_weight cfg G H))).
Proof.
  intros Hlt. unfold Tree.emit_leaf. simpl. f_equal.
  rewrite length_app. simpl.
  replace (length nodes_ + 1 - 1) with (length nodes_) by lia.
  apply wrap32_of_nat, Hlt.
Qed.

(** The main invariant of [build_node]: the call appends to the vector
    the pre-order layout of the tree it grows, and returns the index of
    its first appended node.  The bound keeps every index below
    [2^32], where the [uint32_t] casts are exact. *)
Lemma build_node_layout fuel : forall rows depth_ nodes_ idx nodes',
  build_node fuel rows depth_ nodes_ = Ok (idx, nodes') ->
  (N.of_nat (length nodes_ + 2 * max 1 (length rows)) <= 2 ^ 32)%N ->
  exists t, built rows depth_ t /\
            nodes' = nodes_ ++ layout (length nodes_) t /\
            idx = N.of_nat (length nodes_) /\
            psize t + 1 <= 2 * max 1 (length rows).
Proof.
  induction fuel as [|fuel IH]; intros rows depth_ nodes_ idx nodes' H Hb;
    simpl in H; [discriminate|].
  inv_bind H. destruct a as [G Hs]. simpl in H.
  assert (Hleaf : Ok (Tree.emit_leaf cfg nodes_ depth_ G Hs) = Ok (idx, nodes') ->
                  exists t, built rows depth_ t /\
                            nodes' = nodes_ ++ layout (length nodes_) t /\
                            idx = N.of_nat (length nodes_) /\
                            psize t + 1 <= 2 * max 1 (length rows)).
  { intros E. rewrite emit_leaf_layout in E by lia.
    injection E as <- <-.
    eexists. split; [eapply built_leaf; eassumption|].
    repeat split. simpl. lia. }
  destruct ((max_depth cfg <=? depth_)%N
            || F32.ltb Hs (min_child_weight cfg)
            || (N.of_nat (length rows) <=? min_data_in_leaf cfg)%N) eqn:Hstop;
    [auto|].
  inv_bind H. rename a into s.
  destruct (negb (is_valid s)) eqn:Hvalid; [auto|].
  inv_bind H. destruct a as [l r]. simpl in H.
  destruct ((length l =? 0) || (length r =? 0)) eqn:Hempty; [auto|].
  apply orb_false_elim in Hempty as [Hl Hr].
  apply Nat.eqb_neq in Hl, Hr.
  destruct (split_rows_spec _ _ _ _ Ha1) as (_ & _ & Hlen).
  inv_bind H. destruct a as [li nodes2]. simpl in H.
  inv_bind H. destruct a as [ri nodes3]. simpl in H.
  inv_bind H. injection H as <- <-.
  apply IH in Ha2 as (tl & Btl & -> & -> & Hsl);
    [|rewrite length_app; simpl; lia].
  apply IH in Ha3 as (tr & Btr & -> & -> & Hsr);
    [|rewrite !length_app, layout_length; simpl; lia].
  apply orb_false_elim in Hstop as [Hstop _].
  apply orb_false_elim in Hstop as [Hdepth _].
  apply N.leb_gt in Hdepth.
  apply negb_false_iff in Hvalid.
  exists (PNode depth_ (split_feature_id s) (split_threshold s)
                (split_gain s) tl tr).
  split; [eapply built_node; eauto; by intros ->|].
  rewrite !length_app, layout_length. simpl.
  rewrite wrap32_of_nat by lia.
  rewrite Nat2N.id.
  replace (length nodes_ + 1) with (S (length nodes_)) by lia.
  split; [|split; [reflexivity | lia]].
  rewrite <- !app_assoc. simpl.
  rewrite insert_app_r_alt by lia.
  rewrite Nat.sub_diag. simpl.
  reflexivity.
Qed.

Lemma node_sums_not_Timeout rows :
  Tree.node_sums gradients hessians rows <> Timeout.
Proof.
  apply foldM_not_Timeout. intros b a. unfold Tree.sum_step.
  repeat (apply bind_not_Timeout; [auto with timeout|intros ?]).
  discriminate.
Qed.

Lemma split_rows_not_Timeout rows s :
  Tree.split_rows data rows s <> Timeout.
Proof.
  apply foldM_not_Timeout. intros b a. unfold Tree.split_step.
  apply bind_not_Timeout; [apply at_index_not_Timeout|intros v].
  destruct (F32.is_nan v); [|destruct (F32.leb _ _)]; discriminate.
Qed.

Lemma find_best_split_not_Timeout rows G H :
  Tree.find_best_split fbs cfg data gradients hessians rows G H <> Timeout.
Proof.
  unfold Tree.find_best_split.
  apply bind_not_Timeout; [|discriminate].
  apply mapR_not_Timeout. intros f. unfold Tree.feature_split.
  apply bind_not_Timeout.
  - apply foldM_not_Timeout. intros b a. unfold Tree.hist_step, Tree.add_at.
    repeat (apply bind_not_Timeout;
            [try apply at_index_not_Timeout|intros ?]);
      try discriminate.
    all: apply bind_not_Timeout; [apply at_index_not_Timeout|discriminate].
  - intros h. destruct (F32.gtb _ _); [|discriminate].
    apply bind_not_Timeout; [apply at_index_not_Timeout|discriminate].
Qed.

(** The budget [max_depth - depth + 1] is never exhausted
    ([max_depth] is a [uint32_t]). *)
Lemma build_node_fuel fuel : forall rows depth_ nodes_,
  (max_depth cfg < 2 ^ 32)%N ->
  (N.to_nat (max_depth cfg) - N.to_nat depth_ < fuel)%nat ->
  build_node fuel rows depth_ nodes_ <> Timeout.
Proof.
  induction fuel as [|fuel IH]; intros rows depth_ nodes_ Hmd Hf; [lia|].
  simpl.
  apply bind_not_Timeout; [apply node_sums_not_Timeout|intros [G Hs]].
  simpl.
  destruct (max_depth cfg <=? depth_)%N eqn:Hd; simpl; [discriminate|].
  apply N.leb_gt in Hd.
  destruct (F32.ltb Hs (min_child_weight cfg)
            || (N.of_nat (length rows) <=? min_data_in_leaf cfg)%N);
    [discriminate|].
  apply bind_not_Timeout; [apply find_best_split_not_Timeout|intros s].
  destruct (negb (is_valid s)); [discriminate|].
  apply bind_not_Timeout; [apply split_rows_not_Timeout|intros [l r]].
  simpl.
  destruct ((length l =? 0) || (length r =? 0)); [discriminate|].
  rewrite (wrap32_small (depth_ + 1)) by lia.
  assert (Hf' : N.to_nat (max_depth cfg) - N.to_nat (depth_ + 1) < fuel) by lia.
  apply bind_not_Timeout; [apply IH; assumption|intros [li n2]].
  apply bind_not_Timeout; [apply IH; assumption|intros [ri n3]].
  apply bind_not_Timeout; [apply at_index_not_Timeout|discriminate].
Qed.

End BuildNode.

(** ** Consequences of the pre-order layout *)

Lemma embedded_self (t : ptree) : embedded (layout 0 t) 0 t.
Proof. intros i nd H. exact H. Qed.

Lemma embedded_root nodes_ base t :
  embedded nodes_ base t -> nodes_ !! base = head (layout base t).
Proof.
  intros E. specialize (E 0). rewrite Nat.add_0_r in E.
  destruct t; simpl in *; apply E; reflexivity.
Qed.

Lemma embedded_left nodes_ base d f th g l r :
  embedded nodes_ base (PNode d f th g l r) -> embedded nodes_ (S base) l.
Proof.
  intros E i nd H. specialize (E (S i) nd). simpl in E.
  replace (S base + i) with (base + S i) by lia. apply E.
  rewrite lookup_app_l; [assumption|].
  apply lookup_lt_Some in H. exact H.
Qed.

Lemma embedded_right nodes_ base d f th g l r :
  embedded nodes_ base (PNode d f th g l r) ->
  embedded nodes_ (S base + psize l) r.
Proof.
  intros E i nd H. specialize (E (S (psize l + i)) nd). simpl in E.
  replace (S base + psize l + i) with (base + S (psize l + i)) by lia.
  apply E. rewrite lookup_app_r; rewrite layout_length; [|lia].
  replace (psize l + i - psize l) with i by lia. assumption.
Qed.

(** Children lie strictly after their parent and inside the layout. *)
Lemma layout_children (t : ptree) : forall base i nd,
  layout base t !! i = Some nd -> is_leaf nd = false ->
  base + i < N.to_nat (left_child nd) < base + psize t /\
  base + i < N.to_nat (right_child nd) < base + psize t.
Proof.
  induction t as [d w | d f th g l IHl r IHr]; intros base i nd H Hleaf.
  - destruct i; simpl in H; [|discriminate].
    injection H as <-. discriminate.
  - pose proof (psize_pos l). pose proof (psize_pos r).
    destruct i as [|i]; simpl in H.
    + injection H as <-. simpl. rewrite !Nat2N.id. lia.
    + destruct (decide (i < psize l)) as [Hi|Hi].
      * rewrite lookup_app_l in H by (rewrite layout_length; exact Hi).
        destruct (IHl _ _ _ H Hleaf). simpl. lia.
      * rewrite lookup_app_r in H by (rewrite layout_length; lia).
        rewrite layout_length in H.
        destruct (IHr _ _ _ H Hleaf). simpl. lia.
Qed.

(** A leaf of the layout carries a leaf weight of the tree. *)
Lemma layout_leaves (t : ptree) : forall base i nd,
  layout base t !! i = Some nd -> is_leaf nd = true ->
  weight nd ∈ pleaves t.
Proof.
  induction t as [d w | d f th g l IHl r IHr]; intros base i nd H Hleaf.
  - destruct i; simpl in H; [|discriminate].
    injection H as <-. simpl. left.
  - destruct i as [|i]; simpl in H.
    + injection H as <-. discriminate.
    + simpl. apply elem_of_app.
      destruct (decide (i < psize l)) as [Hi|Hi].
      * rewrite lookup_app_l in H by (rewrite layout_length; exact Hi).
        left. eauto.
      * rewrite lookup_app_r in H by (rewrite layout_length; lia).
        right. eauto.
Qed.

(** The loop of [predict_one] on a laid-out tree follows [pwalk]. *)
Lemma walk_embedded (t : ptree) : forall nodes_ x base fuel,
  embedded nodes_ base t -> psize t <= fuel ->
  Tree.walk nodes_ x fuel base =
  match pwalk t x with Some w => Ok w | None => Undefined end.
Proof.
  induction t as [d w | d f th g l IHl r IHr];
    intros nodes_ x base fuel E Hf;
    (destruct fuel as [|fuel]; [simpl in Hf; lia|]);
    pose proof (embedded_root _ _ _ E) as Hroot; simpl in Hroot;
    simpl; unfold at_index; rewrite Hroot; simpl.
  - reflexivity.
  - destruct (x !! N.to_nat f) as [v|]; simpl; [|reflexivity].
    rewrite !Nat2N.id.
    pose proof (embedded_left _ _ _ _ _ _ _ _ E) as El.
    pose proof (embedded_right _ _ _ _ _ _ _ _ E) as Er.
    simpl in Hf.
    destruct (F32.is_nan v); [|destruct (F32.leb v th)].
    + apply IHr; [assumption|lia].
    + apply IHl; [assumption|lia].
    + apply IHr; [assumption|lia].
Qed.

(** The visited indices increase strictly, and the last one is the leaf
    whose weight is returned. *)
Lemma walk_trace_embedded (t : ptree) : forall nodes_ x base fuel w,
  embedded nodes_ base t -> psize t <= fuel -> pwalk t x = Some w ->
  let tr := walk_trace nodes_ x fuel base in
  head tr = Some base /\ increasing tr /\
  exists i nd, last tr = Some i /\ nodes_ !! i = Some nd /\
               is_leaf nd = true /\ weight nd = w.
Proof.
  induction t as [d w0 | d f th g l IHl r IHr];
    intros nodes_ x base fuel w E Hf Hw;
    (destruct fuel as [|fuel]; [simpl in Hf; lia|]);
    pose proof (embedded_root _ _ _ E) as Hroot; simpl in Hroot;
    simpl; rewrite Hroot; simpl.
  - simpl in Hw. injection Hw as <-.
    split; [reflexivity|]. split; [auto|].
    exists base, (leaf_node d w0). auto.
  - simpl in Hw.
    destruct (x !! N.to_nat f) as [v|]; [|discriminate].
    rewrite !Nat2N.id.
    pose proof (embedded_left _ _ _ _ _ _ _ _ E) as El.
    pose proof (embedded_right _ _ _ _ _ _ _ _ E) as Er.
    simpl in Hf.
    assert (Hstep : forall sub sbase,
               embedded nodes_ sbase sub -> psize sub <= fuel ->
               pwalk sub x = Some w -> base < sbase ->
               (forall nodes_ x base fuel w,
                   embedded nodes_ base sub -> psize sub <= fuel ->
                   pwalk sub x = Some w ->
                   let tr := walk_trace nodes_ x fuel base in
                   head tr = Some base /\ increasing tr /\
                   exists i nd, last tr = Some i /\ nodes_ !! i = Some nd /\
                                is_leaf nd = true /\ weight nd = w) ->
               let tr := base :: walk_trace nodes_ x fuel sbase in
               head tr = Some base /\ increasing tr /\
               exists i nd, last tr = Some i /\ nodes_ !! i = Some nd /\
                            is_leaf nd = true /\ weight nd = w).
    { intros sub sbase Es Hs Hws Hlt IH.
      destruct (IH _ _ _ _ _ Es Hs Hws) as (Hh & Hinc & i & nd & Hl & Hrest).
      simpl in *.
      destruct (walk_trace nodes_ x fuel sbase) as [|j tl] eqn:Htr;
        [discriminate|].
      simpl in Hh. injection Hh as ->.
      split; [reflexivity|]. split; [split; [exact Hlt | exact Hinc]|].
      exists i, nd. split; [|exact Hrest].
      rewrite last_cons, Hl. reflexivity. }
    destruct (F32.is_nan v); [|destruct (F32.leb v th)].
    + apply (Hstep r); auto; lia.
    + apply (Hstep l); auto; lia.
    + apply (Hstep r); auto; lia.
Qed.

(** Every row that has the tested features reaches a leaf. *)
Lemma pwalk_total (t : ptree) (x : list float) :
  Forall (fun f => N.to_nat f < length x) (pfeatures t) ->
  exists w, pwalk t x = Some w /\ w ∈ pleaves t.
Proof.
  induction t as [d w | d f th g l IHl r IHr]; intros Hf; simpl.
  - exists w. split; [reflexivity | left].
  - simpl in Hf. apply Forall_cons in Hf as [Hf0 Hf].
    apply Forall_app in Hf as [Hfl Hfr].
    destruct (lookup_lt_is_Some_2 x _ Hf0) as [v ->].
    destruct (IHl Hfl) as (wl & -> & Hwl).
    destruct (IHr Hfr) as (wr & -> & Hwr).
    destruct (F32.is_nan v); [|destruct (F32.leb v th)]; eexists;
      (split; [reflexivity|]); apply elem_of_app; auto.
Qed.

(** ** Trees grown by [Tree::build] *)

Section BuiltFacts.
Variable fbs : simd.finder.
Variable cfg : GBDTConfig.
Variable data : DataMatrix.
Variables gradients hessians : list float.

#[local] Abbreviation built := (built fbs cfg data gradients hessians).

Lemma fold_pick_best (l : list SplitInfo) (d : SplitInfo) :
  fold_left Tree.pick_best l d = d \/ fold_left Tree.pick_best l d ∈ l.
Proof.
  revert d. induction l as [|s l IH]; intros d; simpl; [auto|].
  destruct (IH (Tree.pick_best d s)) as [E|E].
  - rewrite E. unfold Tree.pick_best.
    destruct (F32.gtb _ _); [right; left | left; reflexivity].
  - right. right. exact E.
Qed.

Lemma feature_split_id rows G H f s :
  Tree.feature_split fbs cfg data gradients hessians rows G H f = Ok s ->
  split_feature_id s = wrap32 (N.of_nat f).
Proof.
  unfold Tree.feature_split. intros E. inv_bind E. simpl in E.
  destruct (F32.gtb _ _).
  - inv_bind E. injection E as <-. reflexivity.
  - injection E as <-. reflexivity.
Qed.

(** A valid split tests one of the columns of the matrix. *)
Lemma find_best_split_feature rows G H s :
  Tree.find_best_split fbs cfg data gradients hessians rows G H = Ok s ->
  is_valid s = true ->
  N.to_nat (split_feature_id s) < n_cols data.
Proof.
  unfold Tree.find_best_split. intros E Hv. inv_bind E. injection E as <-.
  destruct (fold_pick_best a default_split) as [E|E].
  - rewrite E in Hv. discriminate.
  - destruct (mapR_Ok_elem _ _ _ _ Ha E) as (f & Hf & Hs).
    apply feature_split_id in Hs. rewrite Hs.
    apply elem_of_seq in Hf.
    pose proof (wrap32_le (N.of_nat f)). lia.
Qed.

Lemma built_features rows d t :
  built rows d t ->
  Forall (fun f => N.to_nat f < n_cols data) (pfeatures t).
Proof.
  induction 1 as [|rows d G H s l r tl tr Hs Hd Hf Hv Hsp Hl Hr _ IHl _ IHr];
    simpl.
  - constructor.
  - constructor; [eapply find_best_split_feature; eauto|].
    apply Forall_app. auto.
Qed.

(** [Tree::build] returns the pre-order layout of the tree it grows. *)
Lemma build_layout rows tr :
  Tree.build fbs cfg data gradients hessians rows = Ok tr ->
  (N.of_nat (2 * max 1 (length rows)) <= 2 ^ 32)%N ->
  exists t, built rows 0 t /\ Tree.nodes tr = layout 0 t /\
            Tree.config tr = cfg.
Proof.
  unfold Tree.build. intros E Hb. inv_bind E. destruct a as [idx nodes'].
  injection E as <-. simpl.
  apply build_node_layout in Ha as (t & Bt & -> & _ & _); [|simpl; lia].
  exists t. auto.
Qed.

End BuiltFacts.

(** C10.  For every tree produced by [Tree::build] (on fewer than [2^31]
    rows, so that no [uint32_t] index wraps): the root is stored at index
    0; the [left_child] and [right_child] of every internal node are
    strictly greater than the node's own index and strictly less than the
    node count; and for every input row that has the columns of the
    training matrix, the indices visited by the walk of [predict_one]
    increase strictly, the walk ends at a leaf, and [predict_one] returns
    that leaf's weight. *)
Theorem build_children_after_parent
        (fbs : simd.finder) (cfg : GBDTConfig) (data : DataMatrix)
        (gradients hessians : list float) (rows : list N) (tr : Tree.t) :
  Tree.build fbs cfg data gradients hessians rows = Ok tr ->
  (N.of_nat (2 * max 1 (length rows)) <= 2 ^ 32)%N ->
  (exists root, Tree.nodes tr !! 0 = Some root) /\
  (forall i nd,
      Tree.nodes tr !! i = Some nd -> is_leaf nd = false ->
      i < N.to_nat (left_child nd) < length (Tree.nodes tr) /\
      i < N.to_nat (right_child nd) < length (Tree.nodes tr)) /\
  (forall x : list float,
      n_cols data <= length x ->
      let visited := walk_trace (Tree.nodes tr) x
                                (S (length (Tree.nodes tr))) 0 in
      head visited = Some 0 /\ increasing visited /\
      exists i nd, last visited = Some i /\
                   Tree.nodes tr !! i = Some nd /\ is_leaf nd = true /\
                   Tree.predict_one tr x = Ok (weight nd)).
Proof.
  intros Hb Hn.
  destruct (build_layout _ _ _ _ _ _ _ Hb Hn) as (t & Bt & Hl & _).
  pose proof (psize_pos t) as Hpos.
  assert (Hlen : length (Tree.nodes tr) = psize t)
    by (rewrite Hl; apply layout_length).
  split; [|split].
  - apply lookup_lt_is_Some_2. lia.
  - intros i nd Hi Hleaf. rewrite Hl in Hi.
    destruct (layout_children _ _ _ _ Hi Hleaf). lia.
  - intros x Hx.
    assert (Hfeat : Forall (fun f => N.to_nat f < length x) (pfeatures t)).
    { eapply Forall_impl; [eapply built_features; eassumption|].
      simpl. intros f Hf. lia. }
    destruct (pwalk_total t x Hfeat) as (w & Hw & _).
    assert (E : embedded (Tree.nodes tr) 0 t)
      by (rewrite Hl; apply embedded_self).
    destruct (walk_trace_embedded t (Tree.nodes tr) x 0
                (S (length (Tree.nodes tr))) w E ltac:(lia) Hw)
      as (Hh & Hinc & i & nd & Hlast & Hnd & Hleaf & Hwt).
    split; [exact Hh|]. split; [exact Hinc|].
    exists i, nd. repeat split; try assumption.
    unfold Tree.predict_one.
    destruct (length (Tree.nodes tr) =? 0) eqn:E0;
      [apply Nat.eqb_eq in E0; lia|].
    rewrite (walk_embedded t _ _ _ _ E) by lia.
    rewrite Hw, Hwt. reflexivity.
Qed.

Lemma build_children_after_parent_witness :
  Tree.build simd.find_best_split_fallback Ex.cfg Ex.binned Ex.grad Ex.hess
             Ex.rows = Ok Ex.tree /\
  length (Tree.nodes Ex.tree) = 5 /\
  (forall i nd,
      Tree.nodes Ex.tree !! i = Some nd -> is_leaf nd = false ->
      i < N.to_nat (left_child nd) < length (Tree.nodes Ex.tree) /\
      i < N.to_nat (right_child nd) < length (Tree.nodes Ex.tree)) /\
  (exists i nd,
      Tree.nodes Ex.tree !! i = Some nd /\ is_leaf nd = true /\
      Tree.predict_one Ex.tree [Ex.fz 6] = Ok (weight nd)).
Proof.
  assert (Hb : Tree.build simd.find_best_split_fallback Ex.cfg Ex.binned
                          Ex.grad Ex.hess Ex.rows = Ok Ex.tree)
    by (vm_compute; reflexivity).
  assert (Hn : (N.of_nat (2 * max 1 (length Ex.rows)) <= 2 ^ 32)%N)
    by (vm_compute; discriminate).
  destruct (build_children_after_parent _ _ _ _ _ _ _ Hb Hn) as (_ & Hc & Hw).
  split; [exact Hb|]. split; [vm_compute; reflexivity|].
  split; [exact Hc|].
  destruct (Hw [Ex.fz 6]) as (_ & _ & i & nd & _ & Hnd & Hleaf & Hp).
  - vm_compute. lia.
  - exists i, nd. auto.
Defined.

(** ** The base score *)

Lemma std_max_min_clips (x : float) :
  clipped_to F32.c0_01 F32.c0_99 x
             (F32.std_max F32.c0_01 (F32.std_min F32.c0_99 x)).
Proof.
  assert (Hlo : F32.c0_01 = S754_finite false 10737418 (-30))
    by (vm_compute; reflexivity).
  assert (Hhi : F32.c0_99 = S754_finite false 16609444 (-24))
    by (vm_compute; reflexivity).
  assert (Hlohi : F32.ltb F32.c0_01 F32.c0_99 = true)
    by (vm_compute; reflexivity).
  assert (Hlolo : F32.leb F32.c0_01 F32.c0_01 = true)
    by (vm_compute; reflexivity).
  assert (Hhihi : F32.leb F32.c0_99 F32.c0_99 = true)
    by (vm_compute; reflexivity).
  unfold clipped_to, F32.std_max, F32.std_min.
  destruct (F32.ltb x F32.c0_99) eqn:Hxhi.
  - destruct (F32.ltb F32.c0_01 x) eqn:Hlox.
    + repeat split; auto using ltb_leb.
      * intros H. apply ltb_asym in H. congruence.
      * intros H. apply ltb_asym in H. congruence.
    + repeat split; auto using ltb_leb.
      * intros H1 _. symmetry.
        rewrite Hlo in *. apply leb_antisym_finite.
        -- apply leb_ge_cases; assumption.
        -- apply leb_not_ltb. assumption.
      * intros H. apply ltb_asym in H. congruence.
  - rewrite Hlohi. repeat split; auto using ltb_leb.
    + intros _ H. symmetry. rewrite Hhi in *.
      apply leb_antisym_finite; assumption.
    + intros H. pose proof (ltb_trans _ _ _ H Hlohi). congruence.
Qed.

(** C8.  For every non-empty label vector, [calculate_base_score]
    returns the mean of the labels for the regression task, and
    [log(mu / (1 - mu))] for the binary task, where [mu] is the label
    mean clipped to [[0.01, 0.99]]. *)
Theorem base_score_mean_or_log_odds
        (std_log : float -> float) (cfg : GBDTConfig)
        (labels_ : list float) :
  labels_ <> [] ->
  match task cfg with
  | Regression =>
      GBDT.calculate_base_score std_log cfg labels_ = label_mean labels_
  | Binary =>
      exists mu,
        clipped_to F32.c0_01 F32.c0_99 (label_mean labels_) mu /\
        GBDT.calculate_base_score std_log cfg labels_
        = std_log (F32.div mu (F32.sub F32.one mu))
  end.
Proof.
  intros _. unfold GBDT.calculate_base_score, GBDT.accumulate.
  destruct (task cfg).
  - reflexivity.
  - eexists. split; [apply std_max_min_clips | reflexivity].
Qed.

Lemma base_score_mean_or_log_odds_witness :
  GBDT.calculate_base_score (fun x => x) Ex.cfg (labels Ex.raw)
  = S754_finite false 16178030 (-22).
Proof.
  assert (Hne : labels Ex.raw <> []) by (vm_compute; discriminate).
  pose proof (base_score_mean_or_log_odds (fun x => x) Ex.cfg
                                          (labels Ex.raw) Hne) as H.
  change (task Ex.cfg) with Regression in H.
  rewrite H. vm_compute. reflexivity.
Defined.

(** ** The scalar sweep *)

Section FallbackSweep.
Variables grad_hist hess_hist : list float.
Variables GT HT w_min lambda : float.

#[local] Abbreviation step :=
  (simd.scalar_step grad_hist hess_hist GT HT w_min
                    (simd.gain_full GT HT lambda)).

(** The running sum after the first [k] bins. *)
Let psum (v : list float) (k : nat) : float :=
  fold_left (fun acc j => F32.add acc (v !!! j)) (seq 0 k) F32.zero.

Lemma sweep_invariant (k : nat) :
  simd.left_sum_g (fold_left step (seq 0 k)
                     (simd.mkSweep F32.zero F32.zero simd.out_init))
  = psum grad_hist k /\
  simd.left_sum_h (fold_left step (seq 0 k)
                     (simd.mkSweep F32.zero F32.zero simd.out_init))
  = psum hess_hist k /\
  (simd.best (fold_left step (seq 0 k)
                (simd.mkSweep F32.zero F32.zero simd.out_init))
   = simd.out_init \/
   candidate_ok grad_hist hess_hist (N.of_nat k) GT HT w_min lambda
                (simd.best (fold_left step (seq 0 k)
                   (simd.mkSweep F32.zero F32.zero simd.out_init)))).
Proof.
  induction k as [|k IH].
  - simpl. auto.
  - rewrite seq_S, fold_left_app.
    destruct IH as (Hg & Hh & Hbest).
    set (st := fold_left step (seq 0 k) _) in *.
    unfold psum. rewrite !seq_S, !fold_left_app.
    fold (psum grad_hist k) (psum hess_hist k).
    rewrite <- Hg, <- Hh. simpl.
    unfold simd.scalar_step.
    assert (Hkeep : simd.best st = simd.out_init \/
                    candidate_ok grad_hist hess_hist (N.of_nat (S k))
                                 GT HT w_min lambda (simd.best st)).
    { destruct Hbest as [?|(Hlt & ?)]; [auto|right].
      split; [lia | assumption]. }
    destruct (F32.geb (F32.add (simd.left_sum_h st) (hess_hist !!! k)) w_min)
      eqn:HL; simpl; [|auto].
    destruct (F32.geb (F32.sub HT _) w_min) eqn:HR; simpl; [|auto].
    destruct (F32.gtb _ _); simpl; [|auto].
    split; [reflexivity|]. split; [reflexivity|]. right.
    unfold candidate_ok. simpl. rewrite Nat2N.id.
    unfold simd.prefix_sum. rewrite !seq_S, !fold_left_app.
    fold (psum grad_hist k) (psum hess_hist k).
    rewrite <- Hg, <- Hh. simpl.
    repeat split; try assumption. lia.
Qed.

(** Whatever the scalar fallback reports as a valid split is a
    candidate that passed both weight tests, with the full gain. *)
Lemma fallback_reports_candidate (n : N) :
  let o := simd.find_best_split_fallback grad_hist hess_hist n
                                          GT HT w_min lambda in
  F32.gtb (simd.out_split_gain o) F32.neg_infinity = true ->
  candidate_ok grad_hist hess_hist n GT HT w_min lambda o.
Proof.
  intros o Hvalid. subst o.
  unfold simd.find_best_split_fallback, simd.scalar_loop in *.
  destruct (sweep_invariant (N.to_nat n)) as (_ & _ & [E|C]).
  - rewrite E in Hvalid. discriminate.
  - rewrite N2Nat.id in C. exact C.
Qed.

End FallbackSweep.

(** The difference of a finite value with itself is [+0]. *)
Lemma sub_diag (x : float) :
  F32.is_finite x = true -> F32.sub x x = F32.zero.
Proof.
  destruct x as [s|s| |s m e]; simpl; try discriminate; intros _.
  - destruct s; reflexivity.
  - unfold F32.sub, SFsub. rewrite Z.sub_diag. reflexivity.
Qed.

(** Nothing positive is below or equal to [+0]. *)
Lemma positive_not_leb_zero (w : float) :
  F32.ltb F32.zero w = true -> F32.geb F32.zero w = false.
Proof. unfold F32.geb. apply ltb_not_leb. Qed.

Section TreeSplit.
Variable cfg : GBDTConfig.
Variable data : DataMatrix.
Variables gradients hessians : list float.

(** What [Tree::find_best_split] reports: the outputs of the sweep on
    the histograms of the reported feature, the right sums as the
    differences with the node totals, and the threshold read from the
    bin edges. *)
Lemma find_best_split_reports (fbs : simd.finder) rows GT HT s :
  Tree.find_best_split fbs cfg data gradients hessians rows GT HT = Ok s ->
  is_valid s = true ->
  exists (f : nat) gh hh b,
    split_feature_id s = wrap32 (N.of_nat f) /\ f < n_cols data /\
    Tree.feature_hist cfg data gradients hessians rows f = Ok (gh, hh) /\
    bin_info data !! f = Some b /\
    let o := fbs gh hh (n_bins cfg) GT HT
                 (min_child_weight cfg) (reg_lambda cfg) in
    bin_id s = simd.out_split_bin o /\
    split_gain s = simd.out_split_gain o /\
    left_sum_gradients s = simd.out_left_sum_g o /\
    left_sum_hessians s = simd.out_left_sum_h o /\
    right_sum_gradients s = F32.sub GT (left_sum_gradients s) /\
    right_sum_hessians s = F32.sub HT (left_sum_hessians s) /\
    split_threshold s = Tree.bin_threshold b (bin_id s).
Proof.
  unfold Tree.find_best_split. intros E Hv. inv_bind E. injection E as <-.
  destruct (fold_pick_best a default_split) as [E|E];
    [rewrite E in Hv; discriminate|].
  destruct (mapR_Ok_elem _ _ _ _ Ha E) as (f & Hf & Hs).
  apply elem_of_seq in Hf.
  set (s := fold_left Tree.pick_best a default_split) in *.
  clearbody s. clear E Ha a.
  unfold Tree.feature_split in Hs. inv_bind Hs. destruct a as [gh hh].
  simpl in Hs.
  destruct (F32.gtb _ _) eqn:Hg.
  - inv_bind Hs. injection Hs as <-. simpl.
    exists f, gh, hh, a. apply at_index_Ok in Ha0.
    repeat split; auto; lia.
  - injection Hs as <-. unfold is_valid in Hv. simpl in Hv. congruence.
Qed.

End TreeSplit.

(** ** The binner *)

(** A value that no edge exceeds gets the code of a missing value. *)
Lemma get_bin_top_is_missing_code (b : BinInfo) (v : float) :
  (forall e, e ∈ splits b -> F32.ltb v e = false) ->
  get_bin b v = get_bin b F32.nan.
Proof.
  unfold get_bin. intros H. simpl.
  destruct (F32.is_nan v); [reflexivity|]. f_equal. f_equal.
  induction (splits b) as [|e l IH]; simpl; [reflexivity|].
  rewrite (H e) by left. f_equal. apply IH.
  intros e' He'. apply H. right. exact He'.
Qed.

(** The code of a missing value is the number of edges, whatever
    [n_bins] was. *)
Lemma get_bin_nan (b : BinInfo) :
  get_bin b F32.nan = wrap32 (N.of_nat (length (splits b))).
Proof. reflexivity. Qed.

(** C1, evaluated on the matrix of the repository's own test
    [DataMatrixTest.MissingValues] with [create_bins(4)]: both columns
    have four distinct values, all four are kept as edges, and the two
    missing cells (row 1 column 1, row 3 column 0) are stored as code 4,
    which is not below [n_bins = 4] and is not the code 3 that the test
    expects; the largest value of each column (row 4) gets the same
    code. *)
Theorem create_bins_missing_code_out_of_range :
  exists d,
    create_bins 4 Ex.missing_values_test = Some d /\
    map (fun b => length (splits b)) (bin_info d) = [4; 4] /\
    binned_features d = [1; 1; 2; 4; 3; 2; 4; 3; 4; 4]%N /\
    get_binned_feature d 1 1 = 4%N /\
    get_binned_feature d 3 0 = 4%N /\
    get_binned_feature d 4 0 = 4%N /\
    F32.is_nan (get_feature d 4 0) = false.
Proof. eexists. split; [vm_compute; reflexivity|]. vm_compute. auto 10. Qed.

(** The histograms of the split finder have [n_bins] entries, so on that
    binned matrix the code 4 is written past their end. *)
Lemma binned_code_overruns_histogram :
  forall d, create_bins 4 Ex.missing_values_test = Some d ->
  Tree.feature_hist Ex.round_cfg d [Ex.fz 1; Ex.fz 1; Ex.fz 1; Ex.fz 1; Ex.fz 1]
                    [Ex.fz 1; Ex.fz 1; Ex.fz 1; Ex.fz 1; Ex.fz 1]
                    [0; 1; 2; 3; 4]%N 0
  = Undefined.
Proof. intros d H. vm_compute in H. injection H as <-. vm_compute. reflexivity. Qed.

(** C5, evaluated: for the column [1, NaN, 3, NaN, 5] and
    [create_bins(4)] the edges are [1, 3, 5] and the stored codes are
    [1, 3, 2, 3, 3]: the two missing rows get code 3, the values 1, 3, 5
    get the codes 1, 2, 3 (the index of the first edge above each). *)
Theorem create_bins_scenario_codes :
  exists d,
    create_bins 4 Ex.scenario_column = Some d /\
    map splits (bin_info d) = [[Ex.fz 1; Ex.fz 3; Ex.fz 5]] /\
    binned_features d = [1; 3; 2; 3; 3]%N.
Proof. eexists. split; [vm_compute; reflexivity|]. vm_compute. auto. Qed.

(** ** The split finder *)

(** With the scalar fallback compiled in, every valid split reported by
    [Tree::find_best_split] has left sums equal to the histogram prefix
    sums at its bin, both child hessian sums at least
    [min_child_weight], and the gain of the gain formula. *)
Lemma fallback_split_respects_weights
      (cfg : GBDTConfig) (data : DataMatrix) (gradients hessians : list float)
      (rows : list N) (GT HT : float) (s : SplitInfo) :
  Tree.find_best_split simd.find_best_split_fallback cfg data
                       gradients hessians rows GT HT = Ok s ->
  is_valid s = true ->
  exists (f : nat) gh hh,
    split_feature_id s = wrap32 (N.of_nat f) /\
    Tree.feature_hist cfg data gradients hessians rows f = Ok (gh, hh) /\
    (bin_id s < n_bins cfg)%N /\
    left_sum_gradients s = simd.prefix_sum gh (N.to_nat (bin_id s)) /\
    left_sum_hessians s = simd.prefix_sum hh (N.to_nat (bin_id s)) /\
    right_sum_gradients s = F32.sub GT (left_sum_gradients s) /\
    right_sum_hessians s = F32.sub HT (left_sum_hessians s) /\
    F32.geb (left_sum_hessians s) (min_child_weight cfg) = true /\
    F32.geb (right_sum_hessians s) (min_child_weight cfg) = true /\
    split_gain s
    = split_gain_formula (left_sum_gradients s) (left_sum_hessians s)
                         (right_sum_gradients s) (right_sum_hessians s)
                         GT HT (reg_lambda cfg).
Proof.
  intros E Hv.
  destruct (find_best_split_reports _ _ _ _ _ _ _ _ _ E Hv)
    as (f & gh & hh & b & Hid & _ & Hh & _ & Hbin & Hg & Hlg & Hlh & Hrg & Hrh & _).
  unfold is_valid in Hv. rewrite Hg in Hv.
  pose proof (fallback_reports_candidate gh hh GT HT (min_child_weight cfg)
                (reg_lambda cfg) (n_bins cfg) Hv) as C.
  destruct C as (Cb & Cg & Ch & CL & CR & Cgain).
  exists f, gh, hh.
  rewrite Hrg, Hrh, Hlg, Hlh, Hbin, Hg.
  repeat split; try assumption.
Qed.

(** C2, evaluated on the AVX2 variant (the one compiled when the compiler
    accepts [-mavx2]).  First input: two rows of hessian 1,
    [min_child_weight = 1.5], [reg_lambda = 1], [n_bins = 8]; no bin
    gives both children a hessian sum of 1.5 and the scalar fallback
    reports no split, but the AVX2 variant reports bin 0 as a valid split
    of gain 0 whose left hessian sum is 0, and the tree builder then
    splits the node into two leaves of hessian 1 each.  Second input: the
    seven-row regression set; the AVX2 variant reports a gain that is not
    the gain formula on its own sums (the parent term is missing), while
    the fallback reports the formula's value. *)
Theorem avx2_reports_underweight_split :
  (exists s,
      Tree.find_best_split simd.find_best_split_avx2 Ex.light_cfg
                           Ex.light_binned Ex.light_grad Ex.light_hess
                           Ex.light_rows (Ex.fz 0) (Ex.fz 2) = Ok s /\
      is_valid s = true /\
      bin_id s = 0%N /\
      left_sum_hessians s = F32.zero /\
      F32.geb (left_sum_hessians s) (min_child_weight Ex.light_cfg) = false) /\
  (exists s',
      Tree.find_best_split simd.find_best_split_fallback
                           Ex.light_cfg Ex.light_binned Ex.light_grad
                           Ex.light_hess Ex.light_rows (Ex.fz 0) (Ex.fz 2)
      = Ok s' /\
      is_valid s' = false) /\
  (exists tr,
      Tree.build simd.find_best_split_avx2 Ex.light_cfg Ex.light_binned
                 Ex.light_grad Ex.light_hess Ex.light_rows = Ok tr /\
      map is_leaf (Tree.nodes tr) = [false; true; true]) /\
  (exists s,
      Tree.find_best_split simd.find_best_split_avx2 Ex.cfg Ex.binned
                           Ex.grad Ex.hess Ex.rows (Ex.fz (-27)) (Ex.fz 7)
      = Ok s /\
      is_valid s = true /\
      split_gain s = S754_finite false 15394406 (-17) /\
      split_gain_formula (left_sum_gradients s) (left_sum_hessians s)
                         (right_sum_gradients s) (right_sum_hessians s)
                         (Ex.fz (-27)) (Ex.fz 7) (reg_lambda Ex.cfg)
      = S754_finite false 13801880 (-19)).
Proof.
  repeat split.
  - eexists. split; [vm_compute; reflexivity|].
    repeat split; vm_compute; reflexivity.
  - eexists. split; vm_compute; reflexivity.
  - eexists. split; vm_compute; reflexivity.
  - eexists. split; [vm_compute; reflexivity|].
    repeat split; vm_compute; reflexivity.
Qed.

(** C3, evaluated on the AVX2 variant.  The column [1, 2, 3] binned
    with [n_bins = 8] has the edges [1, 2, 3], so its missing code is 3;
    the rows carry the gradients [1, 1, -2] and the hessian 1, with
    [min_child_weight = 1] and [reg_lambda = 1], and every sum is exact
    ([G_T = 0], [H_T = 3]).  The AVX2 variant reports bin 3, the bin of
    the missing code, as a valid split: its left sums are the sums of
    the whole node, its right hessian sum is 0, below
    [min_child_weight], and [Tree::find_best_split] gives it the
    threshold NaN, the branch that the source comments with "This
    should not happen in normal operation".  On the same input the
    scalar fallback reports bin 2, below the missing code, with the
    threshold 3. *)
Theorem avx2_selects_missing_bin :
  (exists s b,
      Tree.node_sums Ex.three_grad Ex.three_hess Ex.three_rows
      = Ok (Ex.fz 0, Ex.fz 3) /\
      Tree.find_best_split simd.find_best_split_avx2 Ex.three_cfg
                           Ex.three_binned Ex.three_grad Ex.three_hess
                           Ex.three_rows (Ex.fz 0) (Ex.fz 3) = Ok s /\
      is_valid s = true /\
      bin_info Ex.three_binned !! 0 = Some b /\
      splits b = [Ex.fz 1; Ex.fz 2; Ex.fz 3] /\
      binned_features Ex.three_binned = [1; 2; 3]%N /\
      bin_id s = N.of_nat (length (splits b)) /\
      bin_id s = get_bin b F32.nan /\
      split_threshold s = F32.nan /\
      left_sum_gradients s = Ex.fz 0 /\
      left_sum_hessians s = Ex.fz 3 /\
      right_sum_hessians s = Ex.fz 0 /\
      F32.geb (right_sum_hessians s) (min_child_weight Ex.three_cfg)
      = false) /\
  (exists s',
      Tree.find_best_split simd.find_best_split_fallback Ex.three_cfg
                           Ex.three_binned Ex.three_grad Ex.three_hess
                           Ex.three_rows (Ex.fz 0) (Ex.fz 3) = Ok s' /\
      is_valid s' = true /\
      bin_id s' = 2%N /\
      split_threshold s' = Ex.fz 3 /\
      left_sum_hessians s' = Ex.fz 2 /\
      right_sum_hessians s' = Ex.fz 1).
Proof.
  split.
  - do 2 eexists. split; [vm_compute; reflexivity|].
    split; [vm_compute; reflexivity|].
    split; [vm_compute; reflexivity|].
    split; [vm_compute; reflexivity|].
    repeat split; vm_compute; reflexivity.
  - eexists. split; [vm_compute; reflexivity|].
    repeat split; vm_compute; reflexivity.
Qed.

(** The scalar fallback can report the bin of the missing code as well,
    when the sums round: a column [0, NaN, 0, 5] binned with
    [n_bins = 4] has the edges [0, 5], so its missing code is 2.  With
    the hessians [1, 0.5, 2^24, 0.5] the node total is [2^24 + 2] but
    the prefix sum through bin 2, which holds every row, is [2^24]; the
    right sum at bin 2 is therefore 2, both weight tests pass, and bin 2
    is the reported split (its threshold is NaN). *)
Lemma fallback_missing_bin_by_rounding :
  exists s b,
    Tree.node_sums Ex.round_grad Ex.round_hess Ex.round_rows
    = Ok (Ex.round_GT, Ex.round_HT) /\
    Tree.find_best_split simd.find_best_split_fallback Ex.round_cfg
                         Ex.round_binned Ex.round_grad Ex.round_hess
                         Ex.round_rows Ex.round_GT Ex.round_HT = Ok s /\
    is_valid s = true /\
    bin_info Ex.round_binned !! 0 = Some b /\
    binned_features Ex.round_binned = [1; 2; 1; 2]%N /\
    bin_id s = N.of_nat (length (splits b)) /\
    bin_id s = get_bin b F32.nan /\
    left_sum_hessians s = Ex.fz 16777216 /\
    right_sum_hessians s = Ex.fz 2.
Proof.
  do 2 eexists. split; [vm_compute; reflexivity|].
  split; [vm_compute; reflexivity|].
  split; [vm_compute; reflexivity|].
  split; [vm_compute; reflexivity|].
  repeat split; vm_compute; reflexivity.
Qed.

(** The sweep of the scalar fallback skips no bin, but it reports a bin
    only when the right hessian sum [H_T - prefix], computed in
    binary32, reaches [min_child_weight]; as [min_child_weight > 0], a
    bin whose hessian prefix sum equals the finite node total [H_T]
    (all the weight on the left, as for the missing bin when the sums
    are exact) is never reported by it.  The threshold of a reported
    bin is the edge at that bin, and NaN when the bin is at or beyond
    the number of edges. *)
Lemma fallback_missing_bin_needs_rounding
        (cfg : GBDTConfig) (data : DataMatrix)
        (gradients hessians : list float) (rows : list N) (GT HT : float)
        (s : SplitInfo) :
  Tree.find_best_split simd.find_best_split_fallback cfg data
                       gradients hessians rows GT HT = Ok s ->
  is_valid s = true ->
  F32.ltb F32.zero (min_child_weight cfg) = true ->
  exists (f : nat) gh hh b,
    split_feature_id s = wrap32 (N.of_nat f) /\
    Tree.feature_hist cfg data gradients hessians rows f = Ok (gh, hh) /\
    bin_info data !! f = Some b /\
    F32.geb (F32.sub HT (simd.prefix_sum hh (N.to_nat (bin_id s))))
            (min_child_weight cfg) = true /\
    (F32.is_finite HT = true ->
     simd.prefix_sum hh (N.to_nat (bin_id s)) <> HT) /\
    (forall e, splits b !! N.to_nat (bin_id s) = Some e ->
               split_threshold s = e) /\
    (length (splits b) <= N.to_nat (bin_id s) ->
     split_threshold s = F32.nan).
Proof.
  intros E Hv Hw.
  destruct (find_best_split_reports _ _ _ _ _ _ _ _ _ E Hv)
    as (f & gh & hh & b & Hid & _ & Hh & Hb & Hbin & Hg & _ & Hlh & _ & _ & Hth).
  unfold is_valid in Hv. rewrite Hg in Hv.
  destruct (fallback_reports_candidate gh hh GT HT (min_child_weight cfg)
              (reg_lambda cfg) (n_bins cfg) Hv) as (_ & _ & Ch & _ & CR & _).
  rewrite <- Hbin in Ch. rewrite Ch in CR.
  exists f, gh, hh, b. repeat split; try assumption.
  - intros Hfin Heq. rewrite Heq, sub_diag in CR by assumption.
    rewrite positive_not_leb_zero in CR by assumption. discriminate.
  - intros e He. rewrite Hth. unfold Tree.bin_threshold. rewrite He.
    reflexivity.
  - intros Hge. rewrite Hth. unfold Tree.bin_threshold.
    rewrite lookup_ge_None_2 by assumption. reflexivity.
Qed.

(** ** Trained models *)

Section Grown.
Variable fbs : simd.finder.
Variable cfg : GBDTConfig.
Variable data : DataMatrix.
Variables gradients hessians : list float.

(** Nothing is sent left across a NaN threshold. *)
Lemma split_rows_nan_threshold rows s l0 r0 l r :
  F32.is_nan (split_threshold s) = true ->
  foldM (Tree.split_step data s) rows (l0, r0) = Ok (l, r) ->
  l = l0.
Proof.
  intros Hnan. revert l0 r0.
  induction rows as [|x rows IH]; intros l0 r0 H; simpl in H.
  - injection H as <- <-. reflexivity.
  - inv_bind H. unfold Tree.split_step in Ha. inv_bind Ha. simpl in Ha.
    destruct (split_threshold s); try discriminate.
    replace (F32.leb a0 S754_nan) with false in Ha
      by (destruct a0; reflexivity).
    destruct (F32.is_nan a0); injection Ha as <-; eauto.
Qed.

Lemma built_thresholds rows d t :
  built fbs cfg data gradients hessians rows d t ->
  Forall (fun th => F32.is_nan th = false) (pthresholds t).
Proof.
  induction 1 as [|rows d G H s l r tl tr Hs Hd Hf Hv Hsp Hl Hr _ IHl _ IHr];
    simpl.
  - constructor.
  - constructor; [|apply Forall_app; auto].
    destruct (F32.is_nan (split_threshold s)) eqn:E; [|reflexivity].
    apply (split_rows_nan_threshold _ _ _ _ _ _ E) in Hsp. congruence.
Qed.

(** What [Tree::build] returns is a grown tree. *)
Lemma build_grown rows tr :
  Tree.build fbs cfg data gradients hessians rows = Ok tr ->
  (N.of_nat (2 * max 1 (length rows)) <= 2 ^ 32)%N ->
  grown fbs cfg data gradients hessians rows tr.
Proof.
  unfold Tree.build. intros E Hb. inv_bind E. destruct a as [idx nodes'].
  injection E as <-. simpl.
  apply build_node_layout in Ha as (t & Bt & -> & _ & Hsz); [|simpl; lia].
  exists t. repeat split; auto. lia.
Qed.

Lemma grown_walkable rows tr :
  grown fbs cfg data gradients hessians rows tr ->
  walkable (n_cols data) tr.
Proof.
  intros (t & Bt & Hl & _ & _). exists t. split; [exact Hl|].
  split; [eapply built_features | eapply built_thresholds]; eassumption.
Qed.

End Grown.


Lemma create_bins_shape (n : N) (d d' : DataMatrix) :
  create_bins n d = Some d' ->
  n_rows d' = n_rows d /\ n_cols d' = n_cols d /\ features d' = features d.
Proof.
  unfold create_bins. intros H.
  destruct (mapM _ _); simpl in H; [|discriminate].
  injection H as <-. auto.
Qed.

Section Trained.
Variables std_exp std_log : float -> float.
Variable fbs : simd.finder.
Variable uniform_stream : nat -> float.
Variable evaluate : GBDTConfig -> DataMatrix -> list float -> result float.

#[local] Abbreviation train :=
  (GBDT.train std_exp std_log fbs uniform_stream evaluate).

Lemma sampled_indices_length c nr iter :
  length (GBDT.sampled_indices uniform_stream c nr iter) <= nr.
Proof.
  unfold GBDT.sampled_indices. destruct (F32.ltb _ _).
  - etrans; [apply omap_length_le|]. rewrite length_seq. lia.
  - rewrite length_map, length_seq. lia.
Qed.

(** Every tree of a trained model was grown by [Tree::build] on the
    binned training matrix, for the configuration of the model. *)
Lemma train_trees (m0 m : GBDT.t) (d : DataMatrix) :
  train m0 d = Ok m ->
  (N.of_nat (n_rows d) <= 2 ^ 31)%N ->
  GBDT.config m = GBDT.config m0 /\
  GBDT.base_score m
  = GBDT.calculate_base_score std_log (GBDT.config m0) (labels d) /\
  length (GBDT.trees m) = N.to_nat (n_rounds (GBDT.config m0)) /\
  exists binned,
    create_bins (n_bins (GBDT.config m0)) d = Some binned /\
    Forall (fun tr => exists g h rows,
                grown fbs (GBDT.config m0) binned g h rows tr /\
                length rows <= n_rows d)
           (GBDT.trees m).
Proof.
  unfold GBDT.train. intros H Hn.
  destruct ((n_rows d =? 0) || (n_cols d =? 0)); [discriminate|].
  destruct (length (labels d) =? 0); [discriminate|].
  destruct (create_bins _ d) as [binned|] eqn:Hb; [|discriminate].
  inv_bind H. injection H as <-. simpl.
  split; [reflexivity|]. split; [reflexivity|].
  set (c := GBDT.config m0) in *.
  assert (Hgen : forall its st st',
             foldM (GBDT.train_round std_exp fbs uniform_stream evaluate
                                     c d binned) its st = Ok st' ->
             Forall (fun tr => exists g h rows,
                         grown fbs c binned g h rows tr /\
                         length rows <= n_rows d)
                    (GBDT.r_trees st) ->
             length (GBDT.r_trees st') = length (GBDT.r_trees st) + length its /\
             Forall (fun tr => exists g h rows,
                         grown fbs c binned g h rows tr /\
                         length rows <= n_rows d)
                    (GBDT.r_trees st')).
  { induction its as [|it its IH]; intros st st' E Hst; simpl in E.
    - injection E as <-. simpl. split; [lia | assumption].
    - inv_bind E. unfold GBDT.train_round in Ha0.
      inv_bind Ha0. inv_bind Ha0. inv_bind Ha0. injection Ha0 as <-.
      apply IH in E as [E1 E2].
      + simpl in E1. rewrite length_app in E1. simpl in *. split; [lia|].
        exact E2.
      + simpl. apply Forall_app. split; [assumption|].
        constructor; [|constructor].
        pose proof (sampled_indices_length c (n_rows d) it) as Hsl.
        exists (GBDT.r_gradients st), (GBDT.r_hessians st),
               (GBDT.sampled_indices uniform_stream c (n_rows d) it).
        split; [|exact Hsl].
        eapply build_grown; [eassumption|].
        change (2 ^ 31)%N with 2147483648%N in Hn.
        change (2 ^ 32)%N with 4294967296%N. lia. }
  apply Hgen in Ha as [Hlen Hall]; [|constructor].
  simpl in Hlen. rewrite length_seq in Hlen.
  split; [exact Hlen|]. exists binned. split; [reflexivity | exact Hall].
Qed.

End Trained.

(** ** The prediction path *)

Lemma compare_total (x y : float) :
  F32.is_nan x = false -> F32.is_nan y = false ->
  exists c, SFcompare x y = Some c.
Proof.
  destruct x, y; simpl; intros; try discriminate; eauto.
Qed.

(** On two numbers, [x <= y] fails exactly when [x > y]. *)
Lemma leb_negb_gtb (x y : float) :
  F32.is_nan x = false -> F32.is_nan y = false ->
  F32.leb x y = negb (F32.gtb x y).
Proof.
  intros Hx Hy. destruct (compare_total x y Hx Hy) as (c & Hc).
  unfold F32.leb, F32.gtb, F32.ltb, SFleb, SFltb.
  rewrite (SFcompare_antisym x y), Hc. destruct c; reflexivity.
Qed.

(** The loop of [predict_one] agrees with the walk of the prediction
    path on vectors whose thresholds are numbers. *)
Lemma walk_spec_walk (nodes_ : list TreeNode) (x : list float) :
  (forall i nd, nodes_ !! i = Some nd -> is_leaf nd = false ->
                F32.is_nan (threshold nd) = false) ->
  forall fuel i w,
    Tree.walk nodes_ x fuel i = Ok w -> spec_walk nodes_ x fuel i = Some w.
Proof.
  intros Hth. induction fuel as [|fuel IH]; intros i w H; simpl in H;
    [discriminate|].
  inv_bind H. apply at_index_Ok in Ha. simpl. rewrite Ha. simpl.
  destruct (is_leaf a) eqn:Hleaf; [congruence|].
  inv_bind H. apply at_index_Ok in Ha0. rewrite Ha0. simpl.
  destruct (F32.is_nan a0) eqn:Hnan; simpl; [auto|].
  rewrite (leb_negb_gtb a0 (threshold a)) in H by eauto.
  destruct (F32.gtb a0 (threshold a)); simpl in *; auto.
Qed.

Lemma layout_thresholds (t : ptree) : forall base i nd,
  Forall (fun th => F32.is_nan th = false) (pthresholds t) ->
  layout base t !! i = Some nd -> is_leaf nd = false ->
  F32.is_nan (threshold nd) = false.
Proof.
  induction t as [d w | d f th g l IHl r IHr]; intros base i nd Hall H Hleaf.
  - destruct i; simpl in H; [|discriminate].
    injection H as <-. discriminate.
  - simpl in Hall. apply Forall_cons in Hall as [H0 Hall].
    apply Forall_app in Hall as [Hl Hr].
    destruct i as [|i]; simpl in H.
    + injection H as <-. exact H0.
    + destruct (decide (i < psize l)) as [Hi|Hi].
      * rewrite lookup_app_l in H by (rewrite layout_length; exact Hi). eauto.
      * rewrite lookup_app_r in H by (rewrite layout_length; lia). eauto.
Qed.

(** A walkable tree gives every wide enough row a value, and the code
    and the prediction path agree on it. *)
Lemma walkable_predict_one (width : nat) (tr : Tree.t) (x : list float) :
  walkable width tr -> width <= length x ->
  exists v, Tree.predict_one tr x = Ok v /\ tree_value tr x = Some v.
Proof.
  intros (t & Hl & Hf & Ht) Hx.
  assert (Hfeat : Forall (fun f => N.to_nat f < length x) (pfeatures t)).
  { eapply Forall_impl; [exact Hf|]. simpl. intros. lia. }
  destruct (pwalk_total t x Hfeat) as (v & Hv & _).
  assert (Hlen : length (Tree.nodes tr) = psize t)
    by (rewrite Hl; apply layout_length).
  pose proof (psize_pos t).
  assert (E : embedded (Tree.nodes tr) 0 t)
    by (rewrite Hl; apply embedded_self).
  assert (Hw : Tree.walk (Tree.nodes tr) x (S (length (Tree.nodes tr))) 0 = Ok v).
  { rewrite (walk_embedded t _ _ _ _ E) by lia. rewrite Hv. reflexivity. }
  exists v. split.
  - unfold Tree.predict_one.
    destruct (length (Tree.nodes tr) =? 0) eqn:E0;
      [apply Nat.eqb_eq in E0; lia | exact Hw].
  - unfold tree_value. apply walk_spec_walk; [|exact Hw].
    intros i nd Hi Hleaf. rewrite Hl in Hi.
    eapply layout_thresholds; eassumption.
Qed.

Lemma walkable_nonempty (width : nat) (tr : Tree.t) :
  walkable width tr -> Tree.nodes tr <> [].
Proof.
  intros (t & Hl & _) E. apply (f_equal length) in E.
  rewrite Hl, layout_length in E. pose proof (psize_pos t). simpl in E. lia.
Qed.

Lemma row_features_length (d : DataMatrix) (i : nat) :
  length (Tree.row_features d i) = n_cols d.
Proof. unfold Tree.row_features. rewrite length_map, length_seq. reflexivity. Qed.

(** [Tree::predict] on a walkable tree: one value per row. *)
Lemma walkable_predict (tr : Tree.t) (d : DataMatrix) :
  walkable (n_cols d) tr ->
  exists vs, Tree.predict tr d = Ok vs /\ length vs = n_rows d /\
             forall i, i < n_rows d ->
               exists v, vs !! i = Some v /\
                         Tree.predict_one tr (Tree.row_features d i) = Ok v /\
                         tree_value tr (Tree.row_features d i) = Some v.
Proof.
  intros W. unfold Tree.predict.
  destruct (length (Tree.nodes tr) =? 0) eqn:E0.
  { apply Nat.eqb_eq in E0. apply walkable_nonempty in W.
    destruct (Tree.nodes tr); [congruence | discriminate]. }
  destruct (mapR_total (fun i => Tree.predict_one tr (Tree.row_features d i))
                       (seq 0 (n_rows d))) as (vs & Hvs).
  { intros i _.
    destruct (walkable_predict_one _ _ (Tree.row_features d i) W) as (v & Hv & _);
      [rewrite row_features_length; lia | eauto]. }
  exists vs. split; [exact Hvs|].
  pose proof (mapR_Ok_length _ _ _ Hvs) as Hlen. rewrite length_seq in Hlen.
  split; [exact Hlen|]. intros i Hi.
  destruct (mapR_Ok_lookup _ _ _ i i Hvs) as (v & Hv & Hp).
  { apply lookup_seq. lia. }
  exists v. split; [exact Hv|]. split; [exact Hp|].
  destruct (walkable_predict_one _ _ (Tree.row_features d i) W) as (v' & Hv' & Ht);
    [rewrite row_features_length; lia|].
  congruence.
Qed.

Section Ensemble.
Variable std_exp : float -> float.
Variable d : DataMatrix.
Variable eta : float.

#[local] Abbreviation tree_step :=
  (fun (predictions : list float) (tree : Tree.t) =>
     tree_preds ← Tree.predict tree d;
     Ok (GBDT.add_tree eta predictions tree_preds)).


End Ensemble.







(** ** The breadth-first numbering of a laid-out tree *)

Lemma fsize_app (q1 q2 : forest) : fsize (q1 ++ q2) = fsize q1 + fsize q2.
Proof.
  induction q1 as [|bt q1 IH]; simpl; [reflexivity|]. rewrite IH. lia.
Qed.

Section Bfs.
Variable nodes_ : list TreeNode.

(** On a queue of embedded subtrees the loop numbers the indices in
    breadth-first order. *)
Lemma bfs_forest (fuel : nat) : forall (q : forest) m next,
  Forall (fun bt => embedded nodes_ (fst bt) (snd bt)) q ->
  fsize q <= fuel ->
  (next + N.of_nat (fsize q) < 2 ^ 32)%N ->
  Tree.bfs fuel nodes_ (forest_roots q) m next
  = Ok (assign m next (bfs_order fuel q)).
Proof.
  induction fuel as [|fuel IH]; intros q m next Hq Hf Hn.
  - destruct q as [|[b t] q]; [reflexivity|].
    simpl in Hf. pose proof (psize_pos t). lia.
  - destruct q as [|[b t] q]; [reflexivity|].
    apply Forall_cons in Hq as [Hb Hq]. simpl in Hb, Hf, Hn.
    pose proof (embedded_root _ _ _ Hb) as Hroot.
    simpl. unfold at_index. rewrite Nat2N.id, Hroot.
    destruct t as [d w | d f th g l r]; simpl in Hf, Hn |- *.
    + rewrite wrap32_small by lia.
      apply IH; [assumption | lia | lia].
    + rewrite wrap32_small by lia.
      change ([N.of_nat (S b); N.of_nat (S (b + psize l))])
        with (forest_roots [(S b, l); (S b + psize l, r)]).
      unfold forest_roots. rewrite <- map_app.
      apply IH.
      * apply Forall_app. split; [assumption|].
        constructor; [eapply embedded_left; eassumption|].
        constructor; [eapply embedded_right; eassumption | constructor].
      * rewrite fsize_app. simpl. lia.
      * rewrite fsize_app. simpl. lia.
Qed.

End Bfs.

(** Breadth-first order visits every index of the forest once. *)
Lemma bfs_order_perm (fuel : nat) : forall q : forest,
  fsize q <= fuel ->
  bfs_order fuel q
  ≡ₚ concat (map (fun bt => seq (fst bt) (psize (snd bt))) q).
Proof.
  induction fuel as [|fuel IH]; intros q Hf.
  - destruct q as [|[b t] q]; [reflexivity|].
    simpl in Hf. pose proof (psize_pos t). lia.
  - destruct q as [|[b t] q]; [reflexivity|].
    destruct t as [d w | d f th g l r]; simpl in Hf |- *.
    + constructor. apply IH. lia.
    + constructor. rewrite IH by (rewrite fsize_app; simpl; lia).
      rewrite map_app, concat_app. simpl. rewrite app_nil_r.
      rewrite (seq_app (psize l) (psize r) (S b)).
      rewrite Permutation_app_comm.
      replace (S b + psize l) with (S (b + psize l)) by lia.
      reflexivity.
Qed.

Lemma bfs_order_layout (t : ptree) (fuel : nat) :
  psize t <= fuel -> bfs_order fuel [(0, t)] ≡ₚ seq 0 (psize t).
Proof.
  intros Hf. rewrite bfs_order_perm by (simpl; lia).
  simpl. rewrite app_nil_r. reflexivity.
Qed.

(** The ids given to a duplicate-free list of indices. *)
Lemma assign_lookup_not_in (order : list nat) : forall m next (k : N),
  (forall i, i ∈ order -> N.of_nat i <> k) ->
  assign m next order !! k = m !! k.
Proof.
  induction order as [|i order IH]; intros m next k Hk; simpl; [reflexivity|].
  rewrite IH by (intros j Hj; apply Hk; right; exact Hj).
  apply lookup_insert_ne. apply Hk. left.
Qed.

Lemma assign_lookup (order : list nat) : forall m next pos i,
  NoDup order -> order !! pos = Some i ->
  assign m next order !! N.of_nat i = Some (next + N.of_nat pos)%N.
Proof.
  induction order as [|j order IH]; intros m next pos i Hnd Hpos;
    [discriminate|].
  apply NoDup_cons in Hnd as [Hj Hnd]. simpl.
  destruct pos as [|pos]; simpl in Hpos.
  - injection Hpos as ->.
    rewrite assign_lookup_not_in.
    + rewrite lookup_insert_eq. f_equal. lia.
    + intros i' Hi' E. apply Nat2N.inj in E. subst. contradiction.
  - rewrite (IH _ _ pos i Hnd Hpos). f_equal. lia.
Qed.


(** ** Saving and loading one tree *)






Section TreeRoundTrip.
Variable t : ptree.
Variable node_map : gmap N N.
Variable rank : nat -> nat.

#[local] Abbreviation nodes_ := (layout 0 t).
#[local] Abbreviation n := (psize t).

Hypothesis Hn : (N.of_nat n < 2 ^ 32)%N.
Hypothesis Hmap : forall i, i < n ->
  node_map !! N.of_nat i = Some (N.of_nat (rank i)) /\ rank i < n.
Hypothesis Hinj : forall i j, i < n -> j < n -> rank i = rank j -> i = j.
Hypothesis Hfeat : Forall (fun f => (f < 2 ^ 32)%N) (pfeatures t).










End TreeRoundTrip.








(* ===================================================================== *)
(** * Further properties of the code *)
(* ===================================================================== *)

(** ** More on the ordering of binary32 values *)

Lemma compare_Eq_l x y z c :
  SFcompare x y = Some Eq -> SFcompare y z = Some c ->
  SFcompare x z = Some c.
Proof.
  destruct x as [sx|sx| |sx mx ex], y as [sy|sy| |sy my ey],
           z as [sz|sz| |sz mz ez]; simpl; try discriminate;
    try (destruct sx, sy, sz; simpl; congruence);
    try (destruct sx, sy; simpl; congruence);
    try (destruct sx, sz; simpl; congruence);
    try (destruct sy, sz; simpl; congruence);
    try (destruct sx; simpl; congruence);
    try (destruct sy; simpl; congruence);
    try (destruct sz; simpl; congruence).
  all: destruct sx, sy, sz; simpl; try congruence.
  all: intros H1 H2; injection H1 as H1; injection H2 as H2; f_equal.
  all: destruct (Z.compare_spec ex ey), (Z.compare_spec ey ez),
         (Z.compare_spec ex ez); subst; try lia; try congruence.
  all: change (Pos.compare_cont Eq mx my) with (mx ?= my)%positive in *;
       change (Pos.compare_cont Eq my mz) with (my ?= mz)%positive in *;
       change (Pos.compare_cont Eq mx mz) with (mx ?= mz)%positive in *.
  all: try (destruct (Pos.compare_spec mx my), (Pos.compare_spec my mz),
            (Pos.compare_spec mx mz); subst; simpl in *;
            try lia; congruence).
Qed.

Lemma compare_Eq_r x y z c :
  SFcompare x y = Some c -> SFcompare y z = Some Eq ->
  SFcompare x z = Some c.
Proof.
  destruct x as [sx|sx| |sx mx ex], y as [sy|sy| |sy my ey],
           z as [sz|sz| |sz mz ez]; simpl; try discriminate;
    try (destruct sx, sy, sz; simpl; congruence);
    try (destruct sx, sy; simpl; congruence);
    try (destruct sx, sz; simpl; congruence);
    try (destruct sy, sz; simpl; congruence);
    try (destruct sx; simpl; congruence);
    try (destruct sy; simpl; congruence);
    try (destruct sz; simpl; congruence).
  all: destruct sx, sy, sz; simpl; try congruence.
  all: intros H1 H2; injection H1 as H1; injection H2 as H2; f_equal.
  all: destruct (Z.compare_spec ex ey), (Z.compare_spec ey ez),
         (Z.compare_spec ex ez); subst; try lia; try congruence.
  all: change (Pos.compare_cont Eq mx my) with (mx ?= my)%positive in *;
       change (Pos.compare_cont Eq my mz) with (my ?= mz)%positive in *;
       change (Pos.compare_cont Eq mx mz) with (mx ?= mz)%positive in *.
  all: try (destruct (Pos.compare_spec mx my), (Pos.compare_spec my mz),
            (Pos.compare_spec mx mz); subst; simpl in *;
            try lia; congruence).
Qed.

Lemma eqb_spec x y : F32.eqb x y = true <-> SFcompare x y = Some Eq.
Proof.
  unfold F32.eqb, SFeqb. destruct (SFcompare x y) as [[]|]; split;
    intros H; congruence.
Qed.

Lemma leb_trans x y z :
  F32.leb x y = true -> F32.leb y z = true -> F32.leb x z = true.
Proof.
  rewrite !leb_spec. intros [H1|H1] [H2|H2].
  - left. eapply compare_trans; eassumption.
  - left. eapply compare_Eq_r; eassumption.
  - left. eapply compare_Eq_l; eassumption.
  - right. eapply compare_Eq_l; eassumption.
Qed.

Lemma ltb_leb_trans x y z :
  F32.ltb x y = true -> F32.leb y z = true -> F32.ltb x z = true.
Proof.
  rewrite !ltb_spec, leb_spec. intros H1 [H2|H2].
  - eapply compare_trans; eassumption.
  - eapply compare_Eq_r; eassumption.
Qed.

Lemma leb_ltb_trans x y z :
  F32.leb x y = true -> F32.ltb y z = true -> F32.ltb x z = true.
Proof.
  rewrite !ltb_spec, leb_spec. intros [H1|H1] H2.
  - eapply compare_trans; eassumption.
  - eapply compare_Eq_l; eassumption.
Qed.

(** Two numbers are comparable. *)
Lemma ltb_false_leb x y :
  F32.is_nan x = false -> F32.is_nan y = false ->
  F32.ltb y x = false -> F32.leb x y = true.
Proof.
  intros Hx Hy H. destruct (compare_total y x Hy Hx) as (c & Hc).
  unfold F32.ltb, SFltb in H. unfold F32.leb, SFleb.
  rewrite SFcompare_antisym, Hc. rewrite Hc in H.
  destruct c; simpl; congruence.
Qed.

Lemma leb_neq_ltb x y :
  F32.leb x y = true -> F32.eqb x y = false -> F32.ltb x y = true.
Proof.
  rewrite leb_spec, ltb_spec. intros [H|H] He; [exact H|].
  apply eqb_spec in H. congruence.
Qed.

Lemma ltb_is_nan x y :
  F32.ltb x y = true -> F32.is_nan x = false /\ F32.is_nan y = false.
Proof. destruct x, y; simpl; intros; try discriminate; auto. Qed.

(** ** The binner, in general *)

Lemma ordered_lookup {A} (R : A -> A -> Prop) (l : list A) :
  ordered R l ->
  forall i j a e, i < j -> l !! i = Some a -> l !! j = Some e -> R a e.
Proof.
  induction l as [|x l IH]; simpl; intros Ho i j a e Hij Hi Hj.
  - discriminate.
  - destruct Ho as [Hx Ho]. destruct j as [|j]; [lia|]. simpl in Hj.
    destruct i as [|i]; simpl in Hi.
    + injection Hi as <-. rewrite Forall_forall in Hx. apply Hx.
      eapply list_elem_of_lookup_2; eassumption.
    + apply (IH Ho i j); [lia|assumption..].
Qed.

Lemma lookup_ordered {A} (R : A -> A -> Prop) (l : list A) :
  (forall i j a e, i < j -> l !! i = Some a -> l !! j = Some e -> R a e) ->
  ordered R l.
Proof.
  induction l as [|x l IH]; simpl; intros H; [exact I|]. split.
  - apply Forall_forall. intros e He.
    apply list_elem_of_lookup_1 in He as (j & Hj).
    apply (H 0 (S j)); [lia|reflexivity|exact Hj].
  - apply IH. intros i j a e Hij Hi Hj.
    apply (H (S i) (S j)); [lia|assumption..].
Qed.

Lemma sort_insert_elem (x : float) (l : list float) (e : float) :
  e ∈ sort_insert x l <-> e = x \/ e ∈ l.
Proof.
  induction l as [|y l IH]; simpl.
  - rewrite list_elem_of_singleton. split; [auto|].
    intros [H|H]; [exact H|inversion H].
  - destruct (F32.ltb y x).
    + rewrite !elem_of_cons, IH. tauto.
    + rewrite !elem_of_cons. tauto.
Qed.

Lemma std_sort_elem (l : list float) (e : float) :
  e ∈ std_sort l <-> e ∈ l.
Proof.
  induction l as [|x l IH]; simpl; [reflexivity|].
  rewrite sort_insert_elem, elem_of_cons, IH. reflexivity.
Qed.

Lemma sort_insert_nondecreasing (x : float) (l : list float) :
  F32.is_nan x = false ->
  Forall (fun e => F32.is_nan e = false) l ->
  nondecreasing l -> nondecreasing (sort_insert x l).
Proof.
  unfold nondecreasing. intros Hx.
  induction l as [|y l IH]; simpl; intros Hn Ho.
  - split; [constructor|exact I].
  - apply Forall_cons in Hn as [Hy Hn]. destruct Ho as [Hyl Ho].
    destruct (F32.ltb y x) eqn:E; simpl.
    + split; [|apply IH; assumption].
      apply Forall_forall. intros e He. apply sort_insert_elem in He as [->|He].
      * apply ltb_leb. exact E.
      * rewrite Forall_forall in Hyl. apply Hyl. exact He.
    + assert (Hxy : F32.leb x y = true) by (apply ltb_false_leb; assumption).
      split; [|split; assumption].
      constructor; [exact Hxy|].
      eapply Forall_impl; [exact Hyl|]. simpl. intros e He.
      eapply leb_trans; eassumption.
Qed.

Lemma std_sort_nondecreasing (l : list float) :
  Forall (fun e => F32.is_nan e = false) l -> nondecreasing (std_sort l).
Proof.
  induction l as [|x l IH]; simpl; intros Hn; [exact I|].
  apply Forall_cons in Hn as [Hx Hn].
  apply sort_insert_nondecreasing; [exact Hx| |apply IH; exact Hn].
  apply Forall_forall. intros e He. rewrite std_sort_elem in He.
  rewrite Forall_forall in Hn. apply Hn. exact He.
Qed.

Lemma unique_from_elem (last : float) (l : list float) (e : float) :
  e ∈ unique_from last l -> e ∈ l.
Proof.
  revert last. induction l as [|x l IH]; simpl; intros last He.
  - exact He.
  - destruct (F32.eqb last x).
    + right. eapply IH. exact He.
    + apply elem_of_cons in He as [->|He]; [left|right; eapply IH; exact He].
Qed.

Lemma unique_from_ascending (l : list float) : forall last,
  Forall (fun e => F32.leb last e = true) l ->
  nondecreasing l ->
  Forall (fun e => F32.ltb last e = true) (unique_from last l) /\
  ascending (unique_from last l).
Proof.
  unfold nondecreasing, ascending.
  induction l as [|x l IH]; simpl; intros last Hl Ho.
  - split; [constructor|exact I].
  - apply Forall_cons in Hl as [Hx Hl]. destruct Ho as [Hxl Ho].
    destruct (F32.eqb last x) eqn:E.
    + apply IH; assumption.
    + destruct (IH x Hxl Ho) as [Hlt Ha].
      assert (Hlx : F32.ltb last x = true) by (apply leb_neq_ltb; assumption).
      split; [|split; assumption].
      constructor; [exact Hlx|].
      eapply Forall_impl; [exact Hlt|]. simpl. intros e He.
      eapply ltb_trans; eassumption.
Qed.

Lemma std_unique_ascending (l : list float) :
  nondecreasing l -> ascending (std_unique l).
Proof.
  destruct l as [|x l]; simpl; intros Ho; [exact I|].
  destruct Ho as [Hxl Ho]. apply unique_from_ascending; assumption.
Qed.

Lemma std_unique_elem (l : list float) (e : float) :
  e ∈ std_unique l -> e ∈ l.
Proof.
  destruct l as [|x l]; simpl; intros He; [exact He|].
  apply elem_of_cons in He as [->|He]; [left|right].
  eapply unique_from_elem. exact He.
Qed.

(** The indices picked by the equal-frequency branch of [create_bins]
    increase strictly and stay inside the vector. *)
Lemma quantile_index_lt (n len i : nat) :
  0 < len -> S i < n -> (i + 1) * len / n < len.
Proof.
  intros Hl Hi. apply Nat.Div0.div_lt_upper_bound. nia.
Qed.

Lemma quantile_index_mono (n len i j : nat) :
  0 < n -> n <= len -> i < j ->
  (i + 1) * len / n < (j + 1) * len / n.
Proof.
  intros Hn Hl Hij.
  assert (H : ((i + 1) * len + 1 * n) / n <= (j + 1) * len / n)
    by (apply Nat.Div0.div_le_mono; nia).
  rewrite Nat.div_add in H by lia. lia.
Qed.

Lemma make_splits_ascending (n : N) (values s : list float) :
  (n < 2 ^ 32)%N ->
  ascending values ->
  make_splits n values = Some s ->
  ascending s /\ (forall e, e ∈ s -> e ∈ values) /\
  (N.of_nat (length s) <= n)%N /\
  ((n < N.of_nat (length values))%N -> N.of_nat (length s) = (n - 1)%N).
Proof.
  unfold make_splits. intros Hn Ha H.
  destruct (N.leb_spec (N.of_nat (length values)) n) as [Hle|Hgt].
  - injection H as <-. repeat split; auto. lia.
  - destruct (N.eqb_spec n 0) as [->|Hn0]; [discriminate|].
    injection H as <-.
    assert (Hw : wrap32 (n + 2 ^ 32 - 1) = (n - 1)%N).
    { unfold wrap32. replace (n + 2 ^ 32 - 1)%N with (n - 1 + 1 * 2 ^ 32)%N by lia.
      rewrite N.Div0.mod_add. apply N.mod_small. lia. }
    rewrite Hw.
    assert (Hidx : forall i, S i < N.to_nat n ->
               (i + 1) * length values / N.to_nat n < length values)
      by (intros i Hi; apply quantile_index_lt; lia).
    repeat split.
    + apply lookup_ordered. intros i j a e Hij Hi Hj.
      rewrite list_lookup_fmap in Hi, Hj.
      destruct (seq 0 (N.to_nat (n - 1)) !! i) as [i'|] eqn:Ei; [|discriminate].
      destruct (seq 0 (N.to_nat (n - 1)) !! j) as [j'|] eqn:Ej; [|discriminate].
      apply lookup_seq in Ei as [-> Hi'], Ej as [-> Hj']. simpl in Hi, Hj.
      injection Hi as <-. injection Hj as <-.
      eapply (ordered_lookup _ values Ha
                ((i + 1) * length values / N.to_nat n)
                ((j + 1) * length values / N.to_nat n)).
      * apply quantile_index_mono; lia.
      * apply list_lookup_lookup_total_lt. apply Hidx. lia.
      * apply list_lookup_lookup_total_lt. apply Hidx. lia.
    + intros e He. apply list_elem_of_fmap in He as (i & -> & Hi).
      apply elem_of_seq in Hi. apply list_elem_of_lookup_total_2.
      apply Hidx. lia.
    + rewrite length_map, length_seq. lia.
    + intros _. rewrite length_map, length_seq. lia.
Qed.

Lemma column_values_elem (d : DataMatrix) (col : nat) (e : float) :
  e ∈ column_values d col <->
  F32.is_nan e = false /\
  exists row, row < n_rows d /\ e = get_feature d row col.
Proof.
  unfold column_values. rewrite list_elem_of_filter, list_elem_of_fmap.
  split.
  - intros (Hn & row & -> & Hr). apply elem_of_seq in Hr.
    split; [exact Hn|]. exists row. split; [lia|reflexivity].
  - intros (Hn & row & Hr & ->). split; [exact Hn|].
    exists row. split; [reflexivity|]. apply elem_of_seq. lia.
Qed.

Lemma create_bins_column (n : N) (d d' : DataMatrix) (col : nat) (b : BinInfo) :
  create_bins n d = Some d' ->
  bin_info d' !! col = Some b ->
  col < n_cols d /\ column_bin_info n d col = Some b.
Proof.
  unfold create_bins. intros H Hb.
  destruct (mapM _ _) as [infos|] eqn:E; simpl in H; [|discriminate].
  injection H as <-. simpl in Hb. apply mapM_Some in E.
  destruct (Forall2_lookup_r _ _ _ _ _ E Hb) as (c & Hc & Hcol).
  apply lookup_seq in Hc as [-> Hc]. auto.
Qed.

Lemma create_bins_infos (n : N) (d d' : DataMatrix) :
  create_bins n d = Some d' ->
  length (bin_info d') = n_cols d /\
  binned_features d' = bin_all d (bin_info d').
Proof.
  unfold create_bins. intros H.
  destruct (mapM _ _) as [infos|] eqn:E; simpl in H; [|discriminate].
  injection H as <-. simpl. split; [|reflexivity].
  apply length_mapM in E. rewrite length_seq in E. lia.
Qed.

Lemma column_edges (n : N) (d : DataMatrix) (col : nat) (b : BinInfo) :
  (n < 2 ^ 32)%N ->
  column_bin_info n d col = Some b ->
  ascending (splits b) /\
  (forall e, e ∈ splits b -> e ∈ column_values d col) /\
  (N.of_nat (length (splits b)) <= n)%N /\
  ((n < N.of_nat (length (std_unique (std_sort (column_values d col)))))%N ->
   N.of_nat (length (splits b)) = (n - 1)%N).
Proof.
  unfold column_bin_info. intros Hn H.
  destruct (make_splits _ _) as [s|] eqn:E; simpl in H; [|discriminate].
  injection H as <-. simpl.
  assert (Hnn : Forall (fun e => F32.is_nan e = false) (column_values d col)).
  { apply Forall_forall. intros e He. apply column_values_elem in He.
    tauto. }
  destruct (make_splits_ascending
              n (std_unique (std_sort (column_values d col))) s Hn)
    as (Ha & He & Hl & Hr);
    [apply std_unique_ascending, std_sort_nondecreasing; exact Hnn|exact E|].
  repeat split; try assumption.
  intros e Hes. apply He in Hes. apply std_unique_elem in Hes.
  rewrite std_sort_elem in Hes. exact Hes.
Qed.

(** On increasing edges [upper_bound] counts the edges that do not
    exceed the value. *)
Lemma upper_bound_counts (l : list float) (v : float) :
  ascending l ->
  Forall (fun e => F32.is_nan e = false) l ->
  F32.is_nan v = false ->
  upper_bound l v <= length l /\
  forall i e, l !! i = Some e -> (i < upper_bound l v <-> F32.leb e v = true).
Proof.
  unfold ascending. intros Ha Hn Hv.
  induction l as [|x l IH]; simpl.
  - split; [lia|]. intros i e H. discriminate.
  - destruct Ha as [Hx Ha]. apply Forall_cons in Hn as [Hxn Hn].
    destruct (IH Ha Hn) as [IHl IHi].
    destruct (F32.ltb v x) eqn:E.
    + split; [lia|]. intros i e Hi. split; [lia|]. intros Hle. exfalso.
      assert (Hxe : F32.leb x e = true).
      { destruct i as [|i]; simpl in Hi.
        - injection Hi as <-. apply ltb_false_leb; try assumption.
          apply ltb_asym in E. destruct (F32.ltb x x) eqn:Exx; [|reflexivity].
          apply ltb_asym in Exx as Hc. congruence.
        - apply ltb_leb. rewrite Forall_forall in Hx. apply Hx.
          eapply list_elem_of_lookup_2. exact Hi. }
      pose proof (ltb_leb_trans _ _ _ E Hxe) as Hve.
      apply ltb_not_leb in Hve. congruence.
    + split; [lia|]. intros [|i] e Hi; simpl in Hi.
      * injection Hi as <-. split; [|lia]. intros _.
        apply ltb_false_leb; assumption.
      * rewrite <- (IHi i e Hi). lia.
Qed.

Lemma concat_rows_lookup {A} (f : nat -> nat -> A) (nc row col : nat) :
  col < nc -> forall nr s, row < nr ->
  concat (map (fun r => map (f r) (seq 0 nc)) (seq s nr)) !! (row * nc + col)
  = Some (f (s + row) col).
Proof.
  intros Hc. induction row as [|row IH]; intros nr s Hr;
    (destruct nr as [|nr]; [lia|]); simpl.
  - rewrite lookup_app_l by (rewrite length_map, length_seq; exact Hc).
    rewrite list_lookup_fmap, lookup_seq_lt by exact Hc.
    simpl. rewrite Nat.add_0_r. reflexivity.
  - rewrite lookup_app_r by (rewrite length_map, length_seq; lia).
    rewrite length_map, length_seq.
    replace (nc + row * nc + col - nc) with (row * nc + col) by lia.
    rewrite IH by lia. f_equal. f_equal. lia.
Qed.

Lemma bin_all_lookup (d : DataMatrix) (infos : list BinInfo) (row col : nat) :
  row < n_rows d -> col < n_cols d ->
  bin_all d infos !! (row * n_cols d + col)
  = Some (wrap8 (get_bin (infos !!! col) (get_feature d row col))).
Proof.
  intros Hr Hc. unfold bin_all.
  rewrite (concat_rows_lookup
             (fun r c => wrap8 (get_bin (infos !!! c) (get_feature d r c)))
             (n_cols d) row col Hc (n_rows d) 0 Hr).
  reflexivity.
Qed.

Lemma binned_feature_code (n : N) (d d' : DataMatrix) (row col : nat)
      (b : BinInfo) :
  create_bins n d = Some d' ->
  row < n_rows d -> col < n_cols d ->
  bin_info d' !! col = Some b ->
  get_binned_feature d' row col = wrap8 (get_bin b (get_feature d row col)).
Proof.
  intros H Hr Hc Hb.
  destruct (create_bins_infos _ _ _ H) as [_ Hbin].
  destruct (create_bins_shape _ _ _ H) as (_ & Hcols & _).
  unfold get_binned_feature. rewrite Hbin, Hcols.
  rewrite (nth_lookup_Some _ _ _ _ (bin_all_lookup d (bin_info d') row col Hr Hc)).
  rewrite (list_lookup_total_correct _ _ _ Hb). reflexivity.
Qed.

(** The edges that [create_bins] stores for a column increase strictly,
    are values of that column (none of them NaN), and are at most
    [n_bins]; they are [n_bins - 1] when the column has more than
    [n_bins] distinct values. *)
Theorem create_bins_edges_increase
        (n_bins : N) (d d' : DataMatrix) (col : nat) (b : BinInfo) :
  (n_bins < 2 ^ 32)%N ->
  create_bins n_bins d = Some d' ->
  bin_info d' !! col = Some b ->
  (forall i j a e, i < j -> splits b !! i = Some a -> splits b !! j = Some e ->
                   F32.ltb a e = true) /\
  (forall e, e ∈ splits b ->
             F32.is_nan e = false /\
             exists row, row < n_rows d /\ e = get_feature d row col) /\
  (N.of_nat (length (splits b)) <= n_bins)%N /\
  ((n_bins < N.of_nat (length (std_unique (std_sort (column_values d col)))))%N ->
   N.of_nat (length (splits b)) = (n_bins - 1)%N).
Proof.
  intros Hn H Hb.
  destruct (create_bins_column _ _ _ _ _ H Hb) as [_ Hcol].
  destruct (column_edges _ _ _ _ Hn Hcol) as (Ha & He & Hl & Hr).
  split; [apply ordered_lookup; exact Ha|].
  split; [|split; assumption].
  intros e Hes. apply column_values_elem. apply He. exact Hes.
Qed.

Lemma create_bins_edges_increase_witness :
  exists d b,
    create_bins 4 Ex.missing_values_test = Some d /\
    bin_info d !! 1 = Some b /\
    splits b = [Ex.fz 2; Ex.fz 4; Ex.fz 5; Ex.fz 6] /\
    (forall i j a e, i < j -> splits b !! i = Some a ->
                     splits b !! j = Some e -> F32.ltb a e = true).
Proof.
  destruct (create_bins 4 Ex.missing_values_test) as [d|] eqn:E;
    [|vm_compute in E; discriminate].
  destruct (bin_info d !! 1) as [b|] eqn:Eb;
    [|vm_compute in E; injection E as <-; vm_compute in Eb; discriminate].
  exists d, b. split; [reflexivity|]. split; [exact Eb|]. split.
  - vm_compute in E. injection E as <-. vm_compute in Eb.
    injection Eb as <-. reflexivity.
  - eapply (create_bins_edges_increase 4 Ex.missing_values_test d 1 b);
      [vm_compute; reflexivity|exact E|exact Eb].
Defined.

(** With fewer than 256 edges, the code stored for a cell is the number
    of the column's edges that do not exceed the value, and the number
    of edges when the value is NaN: a value gets the missing code
    exactly when it is NaN or no edge exceeds it. *)
Theorem create_bins_code_counts_edges
        (n_bins : N) (d d' : DataMatrix) (row col : nat) (b : BinInfo) :
  (n_bins < 2 ^ 32)%N ->
  create_bins n_bins d = Some d' ->
  row < n_rows d ->
  bin_info d' !! col = Some b ->
  length (splits b) < 256 ->
  let v := get_feature d row col in
  let c := N.to_nat (get_binned_feature d' row col) in
  c <= length (splits b) /\
  (F32.is_nan v = true -> c = length (splits b)) /\
  (F32.is_nan v = false ->
   forall i e, splits b !! i = Some e -> (i < c <-> F32.leb e v = true)).
Proof.
  intros Hn H Hr Hb Hlen v c.
  destruct (create_bins_column _ _ _ _ _ H Hb) as [Hc Hcol].
  destruct (column_edges _ _ _ _ Hn Hcol) as (Ha & He & _ & _).
  assert (Hnn : Forall (fun e => F32.is_nan e = false) (splits b)).
  { apply Forall_forall. intros e Hes. apply He, column_values_elem in Hes.
    tauto. }
  assert (Hsmall : forall k, k <= length (splits b) ->
             N.to_nat (wrap8 (wrap32 (N.of_nat k))) = k).
  { intros k Hk. unfold wrap8, wrap32.
    rewrite (N.mod_small (N.of_nat k) (2 ^ 32)).
    - rewrite N.mod_small; [lia|]. change (2 ^ 8)%N with 256%N. lia.
    - change (2 ^ 32)%N with 4294967296%N. lia. }
  subst c. rewrite (binned_feature_code _ _ _ _ _ _ H Hr Hc Hb).
  fold v. unfold get_bin. destruct (F32.is_nan v) eqn:Ev.
  - rewrite Hsmall by lia. split; [lia|]. split; [reflexivity|discriminate].
  - destruct (upper_bound_counts (splits b) v Ha Hnn Ev) as [Hub Hi].
    rewrite Hsmall by exact Hub. split; [exact Hub|].
    split; [discriminate|]. intros _. exact Hi.
Qed.

Lemma create_bins_code_counts_edges_witness :
  exists d b,
    create_bins 4 Ex.scenario_column = Some d /\
    bin_info d !! 0 = Some b /\
    N.to_nat (get_binned_feature d 2 0) <= length (splits b) /\
    (forall i e, splits b !! i = Some e ->
                 (i < N.to_nat (get_binned_feature d 2 0)
                  <-> F32.leb e (get_feature Ex.scenario_column 2 0) = true)).
Proof.
  destruct (create_bins 4 Ex.scenario_column) as [d|] eqn:E;
    [|vm_compute in E; discriminate].
  destruct (bin_info d !! 0) as [b|] eqn:Eb;
    [|vm_compute in E; injection E as <-; vm_compute in Eb; discriminate].
  assert (Hlen : length (splits b) < 256).
  { vm_compute in E. injection E as <-. vm_compute in Eb.
    injection Eb as <-. simpl. lia. }
  destruct (create_bins_code_counts_edges 4 Ex.scenario_column d 2 0 b)
    as (Hle & _ & Hcount);
    [vm_compute; reflexivity|exact E|simpl; lia|exact Eb|exact Hlen|].
  exists d, b. split; [reflexivity|]. split; [exact Eb|].
  split; [exact Hle|]. apply Hcount. vm_compute. reflexivity.
Defined.

(** [apply_bins] with the matrix's own bins reproduces what
    [create_bins] stored, and binning a binned matrix again changes
    nothing. *)
Theorem apply_bins_of_own_bins (n_bins : N) (d d' : DataMatrix) :
  create_bins n_bins d = Some d' ->
  apply_bins d' d = Some d' /\ apply_bins d' d' = Some d' /\
  create_bins n_bins d' = Some d'.
Proof.
  intros H.
  destruct (create_bins_infos _ _ _ H) as [Hlen Hbin].
  destruct (create_bins_shape _ _ _ H) as (Hrows & Hcols & Hfeat).
  assert (Hsame : bin_all d' (bin_info d') = bin_all d (bin_info d')).
  { unfold bin_all, get_feature. rewrite Hrows, Hcols, Hfeat. reflexivity. }
  assert (Hle : (n_cols d <=? length (bin_info d')) = true)
    by (apply Nat.leb_le; lia).
  repeat split.
  - unfold apply_bins. rewrite Hle, orb_true_r. f_equal.
    revert H. unfold create_bins.
    destruct (mapM _ _); simpl; [|discriminate]. intros [= <-]. reflexivity.
  - unfold apply_bins. rewrite Hcols, Hle, orb_true_r. f_equal.
    rewrite Hsame, <- Hbin, Hrows, Hfeat.
    destruct d'; simpl in *. subst. reflexivity.
  - revert H. unfold create_bins, column_bin_info, column_values, get_feature.
    rewrite Hrows, Hcols, Hfeat.
    destruct (mapM _ _) as [infos|] eqn:E; simpl; [|discriminate].
    intros [= <-]. simpl. f_equal.
Qed.

Lemma apply_bins_of_own_bins_witness :
  exists d,
    create_bins 4 Ex.scenario_column = Some d /\
    apply_bins d Ex.scenario_column = Some d /\
    create_bins 4 d = Some d.
Proof.
  destruct (create_bins 4 Ex.scenario_column) as [d|] eqn:E;
    [|vm_compute in E; discriminate].
  destruct (apply_bins_of_own_bins 4 Ex.scenario_column d E) as (H1 & _ & H3).
  exists d. auto.
Defined.

(** ** The tree builder, in general *)

Lemma layout_node_left base d f th g (l r : ptree) (i : nat) :
  i < psize l ->
  layout base (PNode d f th g l r) !! S i = layout (S base) l !! i.
Proof.
  intros Hi. change (layout base (PNode d f th g l r) !! S i)
    with ((layout (S base) l ++ layout (S base + psize l) r) !! i).
  apply lookup_app_l. rewrite layout_length. exact Hi.
Qed.

Lemma layout_node_right base d f th g (l r : ptree) (j : nat) :
  psize l <= j ->
  layout base (PNode d f th g l r) !! S j
  = layout (S base + psize l) r !! (j - psize l).
Proof.
  intros Hj. change (layout base (PNode d f th g l r) !! S j)
    with ((layout (S base) l ++ layout (S base + psize l) r) !! j).
  rewrite lookup_app_r by (rewrite layout_length; exact Hj).
  rewrite layout_length. reflexivity.
Qed.

Section BuiltMore.
Variable fbs : simd.finder.
Variable cfg : GBDTConfig.
Variable data : DataMatrix.
Variables gradients hessians : list float.

#[local] Abbreviation built' := (built fbs cfg data gradients hessians).

Lemma split_rows_perm_acc rows s : forall l0 r0 l r,
  foldM (Tree.split_step data s) rows (l0, r0) = Ok (l, r) ->
  l ++ r ≡ₚ l0 ++ r0 ++ rows.
Proof.
  induction rows as [|x rows IH]; intros l0 r0 l r H; simpl in H.
  - injection H as <- <-. rewrite app_nil_r. reflexivity.
  - inv_bind H. unfold Tree.split_step in Ha. inv_bind Ha. simpl in Ha.
    destruct (F32.is_nan a0);
      [|destruct (F32.leb a0 (split_threshold s))];
      injection Ha as <-; apply IH in H; rewrite H; simpl.
    + rewrite <- !app_assoc. simpl. reflexivity.
    + rewrite <- !app_assoc. simpl.
      apply Permutation_app_head. apply Permutation_middle.
    + rewrite <- !app_assoc. simpl. reflexivity.
Qed.

(** The two sides of [split_rows] hold the rows of the node, each of
    them once. *)
Lemma split_rows_perm rows s l r :
  Tree.split_rows data rows s = Ok (l, r) -> l ++ r ≡ₚ rows.
Proof. intros H. apply split_rows_perm_acc in H. exact H. Qed.

(** A row goes left exactly when its value of the split feature is a
    number not above the threshold. *)
Lemma split_rows_sides rows s : forall l0 r0 l r,
  foldM (Tree.split_step data s) rows (l0, r0) = Ok (l, r) ->
  forall row, row ∈ rows ->
    N.to_nat row * n_cols data + N.to_nat (split_feature_id s)
    < length (features data) /\
    let v := get_feature data (N.to_nat row)
                         (N.to_nat (split_feature_id s)) in
    if negb (F32.is_nan v) && F32.leb v (split_threshold s)
    then row ∈ l else row ∈ r.
Proof.
  induction rows as [|x rows IH]; intros l0 r0 l r H row Hrow; simpl in H.
  - inversion Hrow.
  - inv_bind H. destruct a as [l1 r1].
    apply elem_of_cons in Hrow as [->|Hrow]; [|eapply IH; eassumption].
    apply split_rows_acc in H as (l' & r' & -> & -> & _).
    unfold Tree.split_step in Ha. inv_bind Ha. simpl in Ha.
    unfold Tree.feature_at in Ha0. apply at_index_Ok in Ha0.
    split; [eapply lookup_lt_Some; exact Ha0|].
    unfold get_feature. rewrite (list_lookup_total_correct _ _ _ Ha0).
    simpl.
    destruct (F32.is_nan a);
      [|destruct (F32.leb a (split_threshold s))];
      injection Ha as <- <-; simpl;
      rewrite ?andb_false_r; apply elem_of_app; left;
      apply elem_of_app; right; left.
Qed.

Lemma row_features_lookup (i j : nat) :
  j < n_cols data ->
  Tree.row_features data i !! j = Some (get_feature data i j).
Proof.
  intros Hj. unfold Tree.row_features.
  rewrite list_lookup_fmap, lookup_seq_lt by exact Hj. reflexivity.
Qed.

(** Every row of the node is led by the walk of the grown tree to a
    leaf whose weight is the Newton step of a group of rows that
    holds it. *)
Lemma built_row_leaf rows d t :
  built' rows d t ->
  forall row, row ∈ rows ->
  exists rs G H,
    row ∈ rs /\ sublist rs rows /\
    Tree.node_sums gradients hessians rs = Ok (G, H) /\
    pwalk t (Tree.row_features data (N.to_nat row))
    = Some (Tree.calculate_leaf_weight cfg G H).
Proof.
  induction 1 as [rows d G H Hs
                 |rows d G H s l r tl tr Hs Hd Hf Hv Hsp Hl Hr _ IHl _ IHr];
    intros row Hrow.
  - exists rows, G, H. auto.
  - destruct (split_rows_spec _ _ _ _ _ Hsp) as (Sl & Sr & _).
    destruct (split_rows_sides _ _ _ _ _ _ Hsp row Hrow) as [_ Hside].
    pose proof (find_best_split_feature _ _ _ _ _ _ _ _ _ Hf Hv) as Hfeat.
    simpl in Hside. simpl.
    rewrite (row_features_lookup _ _ Hfeat).
    destruct (F32.is_nan _); simpl in Hside.
    + destruct (IHr row Hside) as (rs & G' & H' & ? & ? & ? & ?).
      exists rs, G', H'. repeat split; auto. etrans; eassumption.
    + destruct (F32.leb _ _).
      * destruct (IHl row Hside) as (rs & G' & H' & ? & ? & ? & ?).
        exists rs, G', H'. repeat split; auto. etrans; eassumption.
      * destruct (IHr row Hside) as (rs & G' & H' & ? & ? & ? & ?).
        exists rs, G', H'. repeat split; auto. etrans; eassumption.
Qed.

(** The groups of rows behind the leaves, left to right. *)
Lemma built_groups rows d t :
  built' rows d t ->
  exists groups : list (list N),
    concat groups ≡ₚ rows /\
    (rows <> [] -> Forall (fun rs => rs <> []) groups) /\
    Forall2 (fun rs w =>
               exists G H,
                 Tree.node_sums gradients hessians rs = Ok (G, H) /\
                 w = Tree.calculate_leaf_weight cfg G H)
            groups (pleaves t).
Proof.
  induction 1 as [rows d G H Hs
                 |rows d G H s l r tl tr Hs Hd Hf Hv Hsp Hl Hr _ IHl _ IHr].
  - exists [rows]. simpl. rewrite app_nil_r. split; [reflexivity|].
    split; [intros Hne; constructor; [exact Hne|constructor]|].
    constructor; [|constructor]. exists G, H. auto.
  - destruct IHl as (gl & Pl & Nl & Fl), IHr as (gr & Pr & Nr & Fr).
    exists (gl ++ gr). simpl. split; [|split].
    + rewrite concat_app, Pl, Pr. apply split_rows_perm with (s := s).
      exact Hsp.
    + intros _. apply Forall_app. auto.
    + apply Forall2_app; assumption.
Qed.

Lemma built_depths rows d t :
  built' rows d t ->
  (max_depth cfg < 2 ^ 32)%N -> (d <= max_depth cfg)%N ->
  forall base,
    (exists root, layout base t !! 0 = Some root /\ depth root = d) /\
    forall i nd, layout base t !! i = Some nd ->
      (d <= depth nd <= max_depth cfg)%N /\
      (is_leaf nd = false ->
       (depth nd < max_depth cfg)%N /\
       exists lc rc,
         layout base t !! (N.to_nat (left_child nd) - base) = Some lc /\
         layout base t !! (N.to_nat (right_child nd) - base) = Some rc /\
         depth lc = (depth nd + 1)%N /\ depth rc = (depth nd + 1)%N).
Proof.
  intros B Hmax. induction B
    as [rows d G H Hs
       |rows d G H s l r tl tr Hs Hd Hf Hv Hsp Hl Hr Bl IHl Br IHr];
    intros Hdm base.
  - split; [eexists; split; reflexivity|].
    intros [|i] nd Hi; simpl in Hi; [|destruct i; discriminate].
    injection Hi as <-. simpl. split; [lia|discriminate].
  - assert (Hw : wrap32 (d + 1) = (d + 1)%N) by (apply wrap32_small; lia).
    rewrite Hw in IHl, IHr.
    assert (Hd1 : (d + 1 <= max_depth cfg)%N) by lia.
    destruct (IHl Hd1 (S base)) as ((lroot & Hlroot & Hldepth) & IHln).
    destruct (IHr Hd1 (S base + psize tl)) as ((rroot & Hrroot & Hrdepth) & IHrn).
    split; [eexists; split; reflexivity|].
    assert (E0 : S base - base = 1) by lia.
    assert (E1 : forall k, S (base + k) - base = S k) by (intros; lia).
    assert (E2 : forall k, S base + k - base = S k) by (intros; lia).
    intros [|i] nd Hi.
    + injection Hi as <-.
      cbn [depth is_leaf left_child right_child internal_node].
      split; [lia|]. intros _. split; [exact Hd|].
      exists lroot, rroot.
      rewrite !Nat2N.id, ?E0, ?E1, ?E2.
      rewrite layout_node_left by apply psize_pos.
      rewrite layout_node_right, Nat.sub_diag by lia. auto.
    + destruct (decide (i < psize tl)) as [Hlt|Hge].
      * rewrite layout_node_left in Hi by exact Hlt.
        destruct (IHln i nd Hi) as [Hrange Hint]. split; [lia|].
        intros Hleaf. destruct (Hint Hleaf) as (? & lc & rc & Hlc & Hrc & ? & ?).
        split; [assumption|]. exists lc, rc.
        destruct (layout_children _ _ _ _ Hi Hleaf) as [Hcl Hcr].
        replace (N.to_nat (left_child nd) - base)
          with (S (N.to_nat (left_child nd) - S base)) by lia.
        replace (N.to_nat (right_child nd) - base)
          with (S (N.to_nat (right_child nd) - S base)) by lia.
        rewrite !layout_node_left by lia. auto.
      * rewrite layout_node_right in Hi by lia.
        destruct (IHrn (i - psize tl) nd Hi) as [Hrange Hint]. split; [lia|].
        intros Hleaf. destruct (Hint Hleaf) as (? & lc & rc & Hlc & Hrc & ? & ?).
        split; [assumption|]. exists lc, rc.
        destruct (layout_children _ _ _ _ Hi Hleaf) as [Hcl Hcr].
        replace (N.to_nat (left_child nd) - base)
          with (S (N.to_nat (left_child nd) - S base)) by lia.
        replace (N.to_nat (right_child nd) - base)
          with (S (N.to_nat (right_child nd) - S base)) by lia.
        rewrite !layout_node_right by lia.
        replace (N.to_nat (left_child nd) - S base - psize tl)
          with (N.to_nat (left_child nd) - (S base + psize tl)) by lia.
        replace (N.to_nat (right_child nd) - S base - psize tl)
          with (N.to_nat (right_child nd) - (S base + psize tl)) by lia.
        auto.
Qed.

End BuiltMore.

Lemma layout_leaf_weights (t : ptree) (base : nat) :
  map weight (filter (fun nd => is_leaf nd = true) (layout base t))
  = pleaves t.
Proof.
  revert base. induction t as [d w | d f th g l IHl r IHr]; intros base; simpl.
  - reflexivity.
  - rewrite filter_cons_False by (simpl; congruence).
    rewrite filter_app, map_app, IHl, IHr. reflexivity.
Qed.

Lemma psize_leaves (t : ptree) : psize t + 1 = 2 * length (pleaves t).
Proof.
  induction t as [d w | d f th g l IHl r IHr]; simpl; [reflexivity|].
  rewrite length_app. lia.
Qed.

Section BuiltSize.
Variable fbs : simd.finder.
Variable cfg : GBDTConfig.
Variable data : DataMatrix.
Variables gradients hessians : list float.

Lemma built_size_depth rows d t :
  built fbs cfg data gradients hessians rows d t ->
  (max_depth cfg < 2 ^ 32)%N -> (d <= max_depth cfg)%N ->
  psize t < 2 ^ S (N.to_nat (max_depth cfg) - N.to_nat d).
Proof.
  intros B Hmax. induction B
    as [rows d G H Hs
       |rows d G H s l r tl tr Hs Hd Hf Hv Hsp Hl Hr Bl IHl Br IHr];
    intros Hdm; simpl psize.
  - pose proof (Nat.pow_nonzero 2 (N.to_nat (max_depth cfg) - N.to_nat d)).
    rewrite Nat.pow_succ_r'. lia.
  - assert (Hw : wrap32 (d + 1) = (d + 1)%N) by (apply wrap32_small; lia).
    rewrite Hw in IHl, IHr.
    assert (Hd1 : (d + 1 <= max_depth cfg)%N) by lia.
    specialize (IHl Hd1). specialize (IHr Hd1).
    replace (N.to_nat (max_depth cfg) - N.to_nat d)
      with (S (N.to_nat (max_depth cfg) - N.to_nat (d + 1))) by lia.
    rewrite Nat.pow_succ_r'. lia.
Qed.
End BuiltSize.

(** [Tree::build] stores in every node its distance from the root: the
    root has depth 0, both children of an internal node have its depth
    plus one, no depth exceeds [max_depth], internal nodes lie above
    [max_depth], and the tree has fewer than [2^(max_depth + 1)]
    nodes. *)
Theorem build_depths_are_levels
        (fbs : simd.finder) (cfg : GBDTConfig) (data : DataMatrix)
        (gradients hessians : list float) (rows : list N) (tr : Tree.t) :
  Tree.build fbs cfg data gradients hessians rows = Ok tr ->
  (N.of_nat (2 * max 1 (length rows)) <= 2 ^ 32)%N ->
  (max_depth cfg < 2 ^ 32)%N ->
  (exists root, Tree.nodes tr !! 0 = Some root /\ depth root = 0%N) /\
  (forall i nd, Tree.nodes tr !! i = Some nd ->
     (depth nd <= max_depth cfg)%N /\
     (is_leaf nd = false ->
      (depth nd < max_depth cfg)%N /\
      exists lc rc,
        Tree.nodes tr !! N.to_nat (left_child nd) = Some lc /\
        Tree.nodes tr !! N.to_nat (right_child nd) = Some rc /\
        depth lc = (depth nd + 1)%N /\ depth rc = (depth nd + 1)%N)) /\
  length (Tree.nodes tr) < 2 ^ S (N.to_nat (max_depth cfg)).
Proof.
  intros Hb Hn Hmax.
  destruct (build_layout _ _ _ _ _ _ _ Hb Hn) as (t & Bt & Hl & _).
  destruct (built_depths _ _ _ _ _ _ _ _ Bt Hmax ltac:(lia) 0) as [Hroot Hnodes].
  rewrite Hl. split; [exact Hroot|]. split.
  - intros i nd Hi. destruct (Hnodes i nd Hi) as [Hrange Hint].
    split; [lia|]. intros Hleaf.
    destruct (Hint Hleaf) as (Hlt & lc & rc & Hlc & Hrc & ? & ?).
    rewrite !Nat.sub_0_r in Hlc, Hrc. eauto 10.
  - rewrite layout_length.
    pose proof (built_size_depth _ _ _ _ _ _ _ _ Bt Hmax ltac:(lia)) as Hs.
    replace (N.to_nat (max_depth cfg) - N.to_nat 0)
      with (N.to_nat (max_depth cfg)) in Hs by lia.
    exact Hs.
Qed.

Lemma build_depths_are_levels_witness :
  Tree.build simd.find_best_split_fallback Ex.cfg Ex.binned Ex.grad Ex.hess
             Ex.rows = Ok Ex.tree /\
  map depth (Tree.nodes Ex.tree) = [0; 1; 1; 2; 2]%N /\
  (forall i nd, Tree.nodes Ex.tree !! i = Some nd ->
     (depth nd <= max_depth Ex.cfg)%N) /\
  length (Tree.nodes Ex.tree) < 2 ^ 4.
Proof.
  assert (Hb : Tree.build simd.find_best_split_fallback Ex.cfg Ex.binned
                          Ex.grad Ex.hess Ex.rows = Ok Ex.tree)
    by (vm_compute; reflexivity).
  assert (Hn : (N.of_nat (2 * max 1 (length Ex.rows)) <= 2 ^ 32)%N)
    by (vm_compute; discriminate).
  assert (Hmax : (max_depth Ex.cfg < 2 ^ 32)%N) by (vm_compute; reflexivity).
  destruct (build_depths_are_levels _ _ _ _ _ _ _ Hb Hn Hmax)
    as (_ & Hnodes & Hsize).
  split; [exact Hb|]. split; [vm_compute; reflexivity|].
  split; [|exact Hsize].
  intros i nd Hi. destruct (Hnodes i nd Hi) as [Hd _]. exact Hd.
Defined.

(** Every row given to [Tree::build] is led by [predict_one], on its own
    raw features, to a leaf whose weight is the Newton step
    [-G / (H + reg_lambda)] of a group of training rows that holds that
    row: splitting and prediction use the same test. *)
Theorem training_row_gets_its_leaf_weight
        (fbs : simd.finder) (cfg : GBDTConfig) (data : DataMatrix)
        (gradients hessians : list float) (rows : list N) (tr : Tree.t) :
  Tree.build fbs cfg data gradients hessians rows = Ok tr ->
  (N.of_nat (2 * max 1 (length rows)) <= 2 ^ 32)%N ->
  forall row, row ∈ rows ->
    exists rs G H,
      row ∈ rs /\ sublist rs rows /\
      Tree.node_sums gradients hessians rs = Ok (G, H) /\
      Tree.predict_one tr (Tree.row_features data (N.to_nat row))
      = Ok (Tree.calculate_leaf_weight cfg G H).
Proof.
  intros Hb Hn row Hrow.
  destruct (build_layout _ _ _ _ _ _ _ Hb Hn) as (t & Bt & Hl & _).
  destruct (built_row_leaf _ _ _ _ _ _ _ _ Bt row Hrow)
    as (rs & G & H & Hin & Hsub & Hsum & Hw).
  exists rs, G, H. repeat split; try assumption.
  pose proof (psize_pos t) as Hpos.
  assert (Hlen : length (Tree.nodes tr) = psize t)
    by (rewrite Hl; apply layout_length).
  assert (E : embedded (Tree.nodes tr) 0 t)
    by (rewrite Hl; apply embedded_self).
  unfold Tree.predict_one.
  destruct (length (Tree.nodes tr) =? 0) eqn:E0;
    [apply Nat.eqb_eq in E0; lia|].
  rewrite (walk_embedded t _ _ _ _ E) by lia.
  rewrite Hw. reflexivity.
Qed.

Lemma training_row_gets_its_leaf_weight_witness :
  exists rs G H,
    5%N ∈ rs /\ sublist rs Ex.rows /\
    Tree.node_sums Ex.grad Ex.hess rs = Ok (G, H) /\
    Tree.predict_one Ex.tree (Tree.row_features Ex.binned 5)
    = Ok (Tree.calculate_leaf_weight Ex.cfg G H).
Proof.
  assert (Hb : Tree.build simd.find_best_split_fallback Ex.cfg Ex.binned
                          Ex.grad Ex.hess Ex.rows = Ok Ex.tree)
    by (vm_compute; reflexivity).
  assert (Hn : (N.of_nat (2 * max 1 (length Ex.rows)) <= 2 ^ 32)%N)
    by (vm_compute; discriminate).
  assert (Hrow : 5%N ∈ Ex.rows).
  { apply list_elem_of_In. vm_compute. tauto. }
  destruct (training_row_gets_its_leaf_weight _ _ _ _ _ _ _ Hb Hn 5%N Hrow)
    as (rs & G & H & ? & ? & ? & Hp).
  exists rs, G, H. auto.
Defined.

(** The leaves of a tree grown by [Tree::build] partition the rows it
    was given: there is one group of rows per leaf, in node order, each
    row is in exactly one group, the weight of a leaf is the Newton step
    of its group, no group is empty unless there are no rows at all, and
    the tree has [2 * leaves - 1] nodes. *)
Theorem leaves_partition_the_rows
        (fbs : simd.finder) (cfg : GBDTConfig) (data : DataMatrix)
        (gradients hessians : list float) (rows : list N) (tr : Tree.t) :
  Tree.build fbs cfg data gradients hessians rows = Ok tr ->
  (N.of_nat (2 * max 1 (length rows)) <= 2 ^ 32)%N ->
  exists groups : list (list N),
    concat groups ≡ₚ rows /\
    (rows <> [] -> Forall (fun rs => rs <> []) groups) /\
    Forall2 (fun rs w =>
               exists G H,
                 Tree.node_sums gradients hessians rs = Ok (G, H) /\
                 w = Tree.calculate_leaf_weight cfg G H)
            groups
            (map weight (filter (fun nd => is_leaf nd = true)
                                (Tree.nodes tr))) /\
    length (Tree.nodes tr) + 1 = 2 * length groups.
Proof.
  intros Hb Hn.
  destruct (build_layout _ _ _ _ _ _ _ Hb Hn) as (t & Bt & Hl & _).
  destruct (built_groups _ _ _ _ _ _ _ _ Bt) as (groups & Hp & Hne & Hw).
  exists groups. rewrite Hl, layout_leaf_weights, layout_length.
  repeat split; try assumption.
  rewrite (Forall2_length _ _ _ Hw). apply psize_leaves.
Qed.

Lemma leaves_partition_the_rows_witness :
  exists groups : list (list N),
    concat groups ≡ₚ Ex.rows /\
    Forall (fun rs => rs <> []) groups /\
    length groups = 3.
Proof.
  assert (Hb : Tree.build simd.find_best_split_fallback Ex.cfg Ex.binned
                          Ex.grad Ex.hess Ex.rows = Ok Ex.tree)
    by (vm_compute; reflexivity).
  assert (Hn : (N.of_nat (2 * max 1 (length Ex.rows)) <= 2 ^ 32)%N)
    by (vm_compute; discriminate).
  destruct (leaves_partition_the_rows _ _ _ _ _ _ _ Hb Hn)
    as (groups & Hp & Hne & _ & Hlen).
  exists groups. split; [exact Hp|]. split.
  - apply Hne. vm_compute. discriminate.
  - change (length (Tree.nodes Ex.tree)) with 5 in Hlen. lia.
Defined.
(** ** The rows behind a leaf weight *)

Lemma walk_leaf_embedded (t : ptree) : forall nodes_ x base fuel,
  embedded nodes_ base t -> psize t <= fuel ->
  walk_leaf nodes_ x fuel base = pwalk_index base t x.
Proof.
  induction t as [d w | d f th g l IHl r IHr];
    intros nodes_ x base fuel E Hf;
    (destruct fuel as [|fuel]; [simpl in Hf; lia|]);
    pose proof (embedded_root _ _ _ E) as Hroot; simpl in Hroot;
    simpl; rewrite Hroot; simpl.
  - reflexivity.
  - destruct (x !! N.to_nat f) as [v|]; simpl; [|reflexivity].
    rewrite !Nat2N.id.
    pose proof (embedded_left _ _ _ _ _ _ _ _ E) as El.
    pose proof (embedded_right _ _ _ _ _ _ _ _ E) as Er.
    simpl in Hf.
    destruct (F32.is_nan v); [|destruct (F32.leb v th)].
    + apply IHr; [assumption|lia].
    + apply IHl; [assumption|lia].
    + apply IHr; [assumption|lia].
Qed.

Lemma pwalk_index_range (t : ptree) (x : list float) : forall base i,
  pwalk_index base t x = Some i -> base <= i < base + psize t.
Proof.
  induction t as [d w | d f th g l IHl r IHr]; intros base i H; simpl in *.
  - injection H as <-. lia.
  - destruct (x !! N.to_nat f) as [v|]; [|discriminate].
    destruct (F32.is_nan v); [|destruct (F32.leb v th)].
    + apply IHr in H. lia.
    + apply IHl in H. lia.
    + apply IHr in H. lia.
Qed.

Lemma filter_all {A : Type} (P : A -> Prop) `{!forall x, Decision (P x)}
      (l : list A) :
  (forall x, P x) -> filter P l = l.
Proof.
  intros HP. induction l as [|x l IH]; [reflexivity|].
  rewrite filter_cons_True by apply HP. rewrite IH. reflexivity.
Qed.

Section LeafRows.
Variable fbs : simd.finder.
Variable cfg : GBDTConfig.
Variable data : DataMatrix.
Variables gradients hessians : list float.

(** The test of [split_rows] on one row. *)
#[local] Abbreviation goes_left s :=
  (fun row : N =>
     let v := get_feature data (N.to_nat row)
                          (N.to_nat (split_feature_id s)) in
     negb (F32.is_nan v) && F32.leb v (split_threshold s) = true).

(** The two sides of [split_rows] are the rows that pass the test and
    the rows that do not, each in the order of the node. *)
Lemma split_rows_filter_acc rows s : forall l0 r0 l r,
  foldM (Tree.split_step data s) rows (l0, r0) = Ok (l, r) ->
  l = l0 ++ filter (goes_left s) rows /\
  r = r0 ++ filter (fun row => ~ goes_left s row) rows.
Proof.
  induction rows as [|x rows IH]; intros l0 r0 l r H; simpl in H.
  - injection H as <- <-. rewrite !app_nil_r. auto.
  - inv_bind H. unfold Tree.split_step in Ha. inv_bind Ha. simpl in Ha.
    unfold Tree.feature_at in Ha0. apply at_index_Ok in Ha0.
    assert (Ev : get_feature data (N.to_nat x)
                             (N.to_nat (split_feature_id s)) = a0).
    { unfold get_feature. apply list_lookup_total_correct. exact Ha0. }
    destruct (F32.is_nan a0) eqn:En;
      [|destruct (F32.leb a0 (split_threshold s)) eqn:El];
      injection Ha as <-; apply IH in H as [-> ->].
    + rewrite filter_cons_False, filter_cons_True
        by (simpl; rewrite Ev, En; simpl; congruence).
      rewrite <- app_assoc. auto.
    + rewrite filter_cons_True, filter_cons_False
        by (simpl; rewrite Ev, En, El; simpl; tauto).
      rewrite <- app_assoc. auto.
    + rewrite filter_cons_False, filter_cons_True
        by (simpl; rewrite Ev, En, El; simpl; congruence).
      rewrite <- app_assoc. auto.
Qed.

Lemma split_rows_filter rows s l r :
  Tree.split_rows data rows s = Ok (l, r) ->
  l = filter (goes_left s) rows /\
  r = filter (fun row => ~ goes_left s row) rows.
Proof. intros H. apply split_rows_filter_acc in H. exact H. Qed.

(** The weight of every leaf is the Newton step of the sums over the
    rows of the node that the tree leads to that leaf, in the order of
    the node. *)
Lemma built_leaf_rows rows d t :
  built fbs cfg data gradients hessians rows d t ->
  forall base k nd,
    layout base t !! k = Some nd -> is_leaf nd = true ->
    exists G H,
      Tree.node_sums gradients hessians
        (filter (fun row =>
                   pwalk_index base t
                     (Tree.row_features data (N.to_nat row))
                   = Some (base + k)) rows) = Ok (G, H) /\
      weight nd = Tree.calculate_leaf_weight cfg G H.
Proof.
  induction 1 as [rows d G H Hs
                 |rows d G H s l r tl tr Hs Hd Hf Hv Hsp Hl Hr _ IHl _ IHr];
    intros base k nd Hk Hleaf.
  - destruct k as [|k]; simpl in Hk; [|destruct k; discriminate].
    injection Hk as <-. exists G, H. split; [|reflexivity].
    rewrite filter_all; [exact Hs|].
    intros row. simpl. rewrite Nat.add_0_r. reflexivity.
  - pose proof (find_best_split_feature _ _ _ _ _ _ _ _ _ Hf Hv) as Hfeat.
    destruct (split_rows_filter _ _ _ _ Hsp) as [El Er].
    destruct k as [|k]; [injection Hk as <-; discriminate|].
    assert (Hx : forall row : N,
               Tree.row_features data (N.to_nat row)
                 !! N.to_nat (split_feature_id s)
               = Some (get_feature data (N.to_nat row)
                                   (N.to_nat (split_feature_id s))))
      by (intros row; apply row_features_lookup; exact Hfeat).
    destruct (decide (k < psize tl)) as [Hlt|Hge].
    + rewrite layout_node_left in Hk by exact Hlt.
      destruct (IHl _ _ _ Hk Hleaf) as (G' & H' & Hsum & Hw).
      exists G', H'. split; [|exact Hw].
      replace (S base + k) with (base + S k) in Hsum by lia.
      rewrite El, list_filter_filter in Hsum.
      rewrite <- Hsum. f_equal. apply list_filter_iff. intros row.
      simpl. rewrite Hx.
      destruct (F32.is_nan _); simpl.
      * split; [intros Hp; apply pwalk_index_range in Hp; lia|].
        intros [_ ?]; discriminate.
      * destruct (F32.leb _ _); [tauto|].
        split; [intros Hp; apply pwalk_index_range in Hp; lia|].
        intros [_ ?]; discriminate.
    + rewrite layout_node_right in Hk by lia.
      destruct (IHr _ _ _ Hk Hleaf) as (G' & H' & Hsum & Hw).
      exists G', H'. split; [|exact Hw].
      replace (S base + psize tl + (k - psize tl)) with (base + S k)
        in Hsum by lia.
      rewrite Er, list_filter_filter in Hsum.
      rewrite <- Hsum. f_equal. apply list_filter_iff. intros row.
      simpl. rewrite Hx.
      destruct (F32.is_nan _); simpl.
      * split; [intros Hp; split; [exact Hp | congruence]|tauto].
      * destruct (F32.leb _ _).
        -- split; [intros Hp; apply pwalk_index_range in Hp; lia|].
           intros [_ Hn]. exfalso. apply Hn. reflexivity.
        -- split; [intros Hp; split; [exact Hp | congruence]|tauto].
Qed.

End LeafRows.

(** C7.  Every leaf stored by the tree builder carries the weight
    [-G / (H + reg_lambda)], where [G] and [H] are the sums of the
    gradients and of the hessians over the rows of the leaf: those of
    the rows given to [Tree::build] that the tree leads to that leaf,
    summed from 0 in the order they were given (fewer than [2^31]
    rows).  For [G = -4], [H = 2], [reg_lambda = 1] the weight is the
    [float] nearest to [4/3], that is [11184811 * 2^-23 =
    1.33333337...]. *)
Theorem leaf_weight_newton_step
        (fbs : simd.finder) (cfg : GBDTConfig) (data : DataMatrix)
        (gradients hessians : list float) (rows : list N) (tr : Tree.t) :
  Tree.build fbs cfg data gradients hessians rows = Ok tr ->
  (N.of_nat (2 * max 1 (length rows)) <= 2 ^ 32)%N ->
  (forall i nd,
      Tree.nodes tr !! i = Some nd -> is_leaf nd = true ->
      exists G H,
        Tree.node_sums gradients hessians (rows_reaching tr data rows i)
        = Ok (G, H) /\
        weight nd = F32.div (F32.neg G) (F32.add H (reg_lambda cfg))) /\
  (reg_lambda cfg = F32.of_Z 1 ->
   Tree.calculate_leaf_weight cfg (F32.of_Z (-4)) (F32.of_Z 2)
   = F32.div (F32.of_Z 4) (F32.of_Z 3) /\
   F32.div (F32.of_Z 4) (F32.of_Z 3) = S754_finite false 11184811 (-23)).
Proof.
  intros Hb Hn.
  destruct (build_layout _ _ _ _ _ _ _ Hb Hn) as (t & Bt & Hl & _).
  split.
  - intros i nd Hi Hleaf. rewrite Hl in Hi.
    destruct (built_leaf_rows _ _ _ _ _ _ _ _ Bt 0 i nd Hi Hleaf)
      as (G & H & Hsum & Hw).
    exists G, H. split; [|exact Hw].
    rewrite <- Hsum. f_equal. unfold rows_reaching.
    apply list_filter_iff. intros row. unfold leaf_reached.
    rewrite Hl, layout_length.
    rewrite (walk_leaf_embedded t) by (apply embedded_self || lia).
    reflexivity.
  - intros Hlam. unfold Tree.calculate_leaf_weight. rewrite Hlam.
    split; vm_compute; reflexivity.
Qed.

Lemma leaf_weight_newton_step_witness :
  Tree.build simd.find_best_split_fallback Ex.cfg Ex.binned Ex.grad Ex.hess
             Ex.rows = Ok Ex.tree /\
  rows_reaching Ex.tree Ex.binned Ex.rows 1 = [0; 1; 2; 4]%N /\
  (exists nd G H,
      Tree.nodes Ex.tree !! 1 = Some nd /\ is_leaf nd = true /\
      Tree.node_sums Ex.grad Ex.hess [0; 1; 2; 4]%N = Ok (G, H) /\
      weight nd = F32.div (F32.neg G) (F32.add H (reg_lambda Ex.cfg))) /\
  Tree.calculate_leaf_weight Ex.cfg (F32.of_Z (-4)) (F32.of_Z 2)
  = S754_finite false 11184811 (-23).
Proof.
  assert (Hb : Tree.build simd.find_best_split_fallback Ex.cfg Ex.binned
                          Ex.grad Ex.hess Ex.rows = Ok Ex.tree)
    by (vm_compute; reflexivity).
  assert (Hn : (N.of_nat (2 * max 1 (length Ex.rows)) <= 2 ^ 32)%N)
    by (vm_compute; discriminate).
  assert (Er : rows_reaching Ex.tree Ex.binned Ex.rows 1 = [0; 1; 2; 4]%N)
    by (vm_compute; reflexivity).
  destruct (leaf_weight_newton_step _ _ _ _ _ _ _ Hb Hn) as (Hleaf & Hex).
  split; [exact Hb|]. split; [exact Er|]. split.
  - destruct (Tree.nodes Ex.tree !! 1) as [nd|] eqn:E;
      [|vm_compute in E; discriminate].
    assert (Hl : is_leaf nd = true)
      by (vm_compute in E; injection E as <-; reflexivity).
    destruct (Hleaf 1 nd E Hl) as (G & H & Hsum & Hw).
    rewrite Er in Hsum.
    exists nd, G, H. auto.
  - destruct (Hex eq_refl) as (-> & ->). reflexivity.
Defined.

(** ** The scalar sweep picks the first best bin *)

Section FallbackBest.
Variables grad_hist hess_hist : list float.
Variables GT HT w_min lambda : float.

#[local] Abbreviation sweep_after k :=
  (fold_left (simd.scalar_step grad_hist hess_hist GT HT w_min
                               (simd.gain_full GT HT lambda))
             (seq 0 k) (simd.mkSweep F32.zero F32.zero simd.out_init)).

Lemma prefix_sum_S (v : list float) (k : nat) :
  simd.prefix_sum v (S k) = F32.add (simd.prefix_sum v k) (v !!! S k).
Proof.
  unfold simd.prefix_sum. rewrite (seq_S (S k)), fold_left_app.
  reflexivity.
Qed.

Lemma sweep_sums (k : nat) :
  F32.add (simd.left_sum_g (sweep_after k)) (grad_hist !!! k)
  = simd.prefix_sum grad_hist k /\
  F32.add (simd.left_sum_h (sweep_after k)) (hess_hist !!! k)
  = simd.prefix_sum hess_hist k.
Proof.
  induction k as [|k [IHg IHh]].
  - split; reflexivity.
  - rewrite !prefix_sum_S, <- IHg, <- IHh.
    rewrite seq_S, fold_left_app. simpl.
    unfold simd.scalar_step.
    destruct (_ && _); [destruct (F32.gtb _ _)|]; split; reflexivity.
Qed.

Lemma gtb_irrefl (x : float) : F32.gtb x x = false.
Proof.
  unfold F32.gtb. destruct (F32.ltb x x) eqn:E; [|reflexivity].
  apply ltb_asym in E as E'. congruence.
Qed.

Lemma sweep_best (k : nat) :
  N.to_nat (simd.out_split_bin (simd.best (sweep_after k))) <= k /\
  F32.is_nan (simd.out_split_gain (simd.best (sweep_after k))) = false /\
  forall b, b < k ->
    bin_admissible hess_hist HT w_min b = true ->
    F32.gtb (bin_gain grad_hist hess_hist GT HT lambda b)
            (simd.out_split_gain (simd.best (sweep_after k))) = false /\
    (b < N.to_nat (simd.out_split_bin (simd.best (sweep_after k))) ->
     F32.geb (bin_gain grad_hist hess_hist GT HT lambda b)
             (simd.out_split_gain (simd.best (sweep_after k))) = false).
Proof.
  induction k as [|k (IHbin & IHnan & IH)].
  - split; [simpl; lia|]. split; [reflexivity|]. intros b Hb. lia.
  - destruct (sweep_sums k) as [Hg Hh].
    rewrite seq_S, fold_left_app. simpl.
    set (st := sweep_after k) in *.
    unfold simd.scalar_step. rewrite Hg, Hh.
    change (F32.geb (simd.prefix_sum hess_hist k) w_min
            && F32.geb (F32.sub HT (simd.prefix_sum hess_hist k)) w_min)
      with (bin_admissible hess_hist HT w_min k).
    change (simd.gain_full GT HT lambda
              (simd.prefix_sum grad_hist k) (simd.prefix_sum hess_hist k)
              (F32.sub GT (simd.prefix_sum grad_hist k))
              (F32.sub HT (simd.prefix_sum hess_hist k)))
      with (bin_gain grad_hist hess_hist GT HT lambda k).
    destruct (bin_admissible hess_hist HT w_min k) eqn:Hadm.
    + destruct (F32.gtb (bin_gain grad_hist hess_hist GT HT lambda k)
                        (simd.out_split_gain (simd.best st))) eqn:Hgt;
        simpl.
      * rewrite Nat2N.id. split; [lia|].
        split; [apply (ltb_is_nan _ _ Hgt)|]. intros b Hb Hab.
        destruct (decide (b = k)) as [->|Hne].
        -- split; [apply gtb_irrefl|lia].
        -- destruct (IH b ltac:(lia) Hab) as [Hngt _].
           unfold F32.gtb, F32.geb in *. split.
           ++ destruct (F32.ltb (bin_gain grad_hist hess_hist GT HT lambda k)
                                (bin_gain grad_hist hess_hist GT HT lambda b))
                eqn:E; [|reflexivity].
              pose proof (ltb_trans _ _ _ Hgt E). congruence.
           ++ intros _.
              destruct (F32.leb (bin_gain grad_hist hess_hist GT HT lambda k)
                                (bin_gain grad_hist hess_hist GT HT lambda b))
                eqn:E; [|reflexivity].
              pose proof (ltb_leb_trans _ _ _ Hgt E). congruence.
      * split; [lia|]. split; [exact IHnan|]. intros b Hb Hab.
        destruct (decide (b = k)) as [->|Hne].
        -- split; [exact Hgt|lia].
        -- apply IH; [lia|exact Hab].
    + simpl. split; [lia|]. split; [exact IHnan|]. intros b Hb Hab.
      destruct (decide (b = k)) as [->|Hne]; [congruence|].
      apply IH; [lia|exact Hab].
Qed.

End FallbackBest.

(** The scalar fallback reports the first bin of greatest gain among
    the bins whose two sides both reach [min_child_weight]: no such bin
    has a gain above the reported one, none before the reported bin has
    a gain equal to it, and a split is reported as soon as one such bin
    has a gain above negative infinity. *)
Theorem fallback_reports_first_best_bin
        (grad_hist hess_hist : list float) (n_bins : N)
        (GT HT w_min lambda : float) (b : nat) :
  (N.of_nat b < n_bins)%N ->
  bin_admissible hess_hist HT w_min b = true ->
  let o := simd.find_best_split_fallback grad_hist hess_hist n_bins
                                          GT HT w_min lambda in
  let gain_b := bin_gain grad_hist hess_hist GT HT lambda b in
  F32.gtb gain_b (simd.out_split_gain o) = false /\
  (b < N.to_nat (simd.out_split_bin o) ->
   F32.geb gain_b (simd.out_split_gain o) = false) /\
  (F32.gtb gain_b F32.neg_infinity = true ->
   F32.gtb (simd.out_split_gain o) F32.neg_infinity = true).
Proof.
  intros Hb Hadm o gain_b.
  destruct (sweep_best grad_hist hess_hist GT HT w_min lambda (N.to_nat n_bins))
    as (_ & Hon & Hbest).
  destruct (Hbest b ltac:(lia) Hadm) as [Hngt Hfirst].
  split; [exact Hngt|]. split; [exact Hfirst|].
  intros Hvalid. fold o in Hon. fold o gain_b in Hngt.
  unfold F32.gtb in *.
  destruct (F32.ltb F32.neg_infinity (simd.out_split_gain o)) eqn:E;
    [reflexivity|].
  destruct (ltb_is_nan _ _ Hvalid) as [_ Hgn].
  pose proof (ltb_false_leb _ _ Hgn Hon Hngt) as Hle.
  pose proof (ltb_false_leb _ F32.neg_infinity Hon eq_refl E) as Hle'.
  pose proof (leb_trans _ _ _ Hle Hle') as Hc.
  apply ltb_not_leb in Hvalid. congruence.
Qed.

Lemma fallback_reports_first_best_bin_witness :
  exists gh hh,
    Tree.feature_hist Ex.cfg Ex.binned Ex.grad Ex.hess Ex.rows 0
    = Ok (gh, hh) /\
    simd.out_split_bin
      (simd.find_best_split_fallback gh hh 8 (Ex.fz (-27)) (Ex.fz 7)
                                     F32.one F32.one) = 3%N /\
    F32.geb (bin_gain gh hh (Ex.fz (-27)) (Ex.fz 7) F32.one 1)
            (simd.out_split_gain
               (simd.find_best_split_fallback gh hh 8 (Ex.fz (-27)) (Ex.fz 7)
                                              F32.one F32.one)) = false.
Proof.
  destruct (Tree.feature_hist Ex.cfg Ex.binned Ex.grad Ex.hess Ex.rows 0)
    as [[gh hh]| | |] eqn:E; try (vm_compute in E; discriminate).
  exists gh, hh. split; [reflexivity|].
  assert (Hbin : simd.out_split_bin
            (simd.find_best_split_fallback gh hh 8 (Ex.fz (-27)) (Ex.fz 7)
                                           F32.one F32.one) = 3%N)
    by (vm_compute in E; injection E as <- <-; vm_compute; reflexivity).
  split; [exact Hbin|].
  destruct (fallback_reports_first_best_bin gh hh 8 (Ex.fz (-27)) (Ex.fz 7)
              F32.one F32.one 1) as (_ & Hfirst & _).
  - vm_compute. reflexivity.
  - vm_compute in E. injection E as <- <-. vm_compute. reflexivity.
  - apply Hfirst. rewrite Hbin. vm_compute. lia.
Defined.

Lemma fallback_split_respects_weights_witness :
  exists s (f : nat) gh hh,
    Tree.find_best_split simd.find_best_split_fallback Ex.cfg Ex.binned
                         Ex.grad Ex.hess Ex.rows (Ex.fz (-27)) (Ex.fz 7)
    = Ok s /\
    Tree.feature_hist Ex.cfg Ex.binned Ex.grad Ex.hess Ex.rows f
    = Ok (gh, hh) /\
    left_sum_hessians s = simd.prefix_sum hh (N.to_nat (bin_id s)) /\
    F32.geb (left_sum_hessians s) (min_child_weight Ex.cfg) = true /\
    F32.geb (right_sum_hessians s) (min_child_weight Ex.cfg) = true /\
    split_gain s
    = split_gain_formula (left_sum_gradients s) (left_sum_hessians s)
                         (right_sum_gradients s) (right_sum_hessians s)
                         (Ex.fz (-27)) (Ex.fz 7) (reg_lambda Ex.cfg).
Proof.
  destruct (Tree.find_best_split simd.find_best_split_fallback Ex.cfg
              Ex.binned Ex.grad Ex.hess Ex.rows (Ex.fz (-27)) (Ex.fz 7))
    as [s| | |] eqn:E; try (vm_compute in E; discriminate).
  assert (Hv : is_valid s = true)
    by (vm_compute in E; injection E as <-; reflexivity).
  destruct (fallback_split_respects_weights _ _ _ _ _ _ _ _ E Hv)
    as (f & gh & hh & _ & Hh & _ & _ & Hlh & _ & _ & HL & HR & Hg).
  exists s, f, gh, hh. auto 10.
Defined.

(** ** The AVX2 variant *)

Section Avx2Sums.
Variables grad_hist hess_hist : list float.
Variables GT HT w_min lambda : float.

#[local] Abbreviation sums_ok := (sums_ok grad_hist hess_hist).

Lemma sums_ok_mono (k k' : nat) (o : simd.split_out) :
  k <= k' -> sums_ok k o -> sums_ok k' o.
Proof. intros Hk [E|(Hb & ? & ?)]; [left; exact E|right]. split; [lia|auto]. Qed.

Lemma lanes_sums_ok (bin_idx : nat) (gains : list float) (is_ : list nat) :
  forall o, sums_ok bin_idx o -> Forall (fun i => i < simd.lanes) is_ ->
  sums_ok (bin_idx + simd.lanes)
          (fold_left (simd.lane_step grad_hist hess_hist bin_idx gains) is_ o).
Proof.
  induction is_ as [|i is_ IH]; intros o Ho Hi; simpl.
  - eapply sums_ok_mono; [|exact Ho]. lia.
  - apply Forall_cons in Hi as [Hi His].
    assert (Hstep : sums_ok (bin_idx + simd.lanes)
              (simd.lane_step grad_hist hess_hist bin_idx gains o i)).
    { unfold simd.lane_step. destruct (F32.gtb _ _).
      - right. simpl. rewrite Nat2N.id. split; [lia|]. auto.
      - eapply sums_ok_mono; [|exact Ho]. lia. }
    clear Ho. revert Hstep.
    generalize (simd.lane_step grad_hist hess_hist bin_idx gains o i).
    clear IH. induction is_ as [|j is_ IH']; intros o' Ho'; simpl.
    + exact Ho'.
    + apply Forall_cons in His as [Hj His]. apply IH'; [exact His|].
      unfold simd.lane_step. destruct (F32.gtb _ _); [|exact Ho'].
      right. simpl. rewrite Nat2N.id. split; [lia|]. auto.
Qed.

Lemma chunk_step_outputs st (chunk : nat) :
  exists gains,
    snd (simd.chunk_step grad_hist hess_hist GT HT w_min lambda st chunk)
    = fold_left (simd.lane_step grad_hist hess_hist (chunk * simd.lanes) gains)
                (seq 0 simd.lanes) (snd st).
Proof. destruct st as [[lg lh] o]. eexists. reflexivity. Qed.

Lemma chunks_sums_ok (k : nat) :
  sums_ok (k * simd.lanes)
    (snd (fold_left (simd.chunk_step grad_hist hess_hist GT HT w_min lambda)
                    (seq 0 k)
                    (simd.set1 F32.zero, simd.set1 F32.zero, simd.out_init))).
Proof.
  induction k as [|k IH].
  - left. reflexivity.
  - rewrite seq_S, fold_left_app.
    set (st := fold_left _ (seq 0 k) _) in *.
    change (fold_left (simd.chunk_step grad_hist hess_hist GT HT w_min lambda)
                      (0 + k :: nil) st)
      with (simd.chunk_step grad_hist hess_hist GT HT w_min lambda st k).
    destruct (chunk_step_outputs st k) as (gains & ->).
    replace (S k * simd.lanes) with (k * simd.lanes + simd.lanes) by lia.
    apply lanes_sums_ok; [exact IH|].
    apply Forall_forall. intros i Hi. apply elem_of_seq in Hi. lia.
Qed.

Lemma scalar_tail_sums (gain_of : float -> float -> float -> float -> float)
      (start : simd.split_out) (k : nat) :
  let st := fold_left (simd.scalar_step grad_hist hess_hist GT HT w_min gain_of)
                      (seq 0 k) (simd.mkSweep F32.zero F32.zero start) in
  (F32.add (simd.left_sum_g st) (grad_hist !!! k)
   = simd.prefix_sum grad_hist k /\
   F32.add (simd.left_sum_h st) (hess_hist !!! k)
   = simd.prefix_sum hess_hist k) /\
  (simd.best st = start \/
   (N.to_nat (simd.out_split_bin (simd.best st)) < k /\
    simd.out_left_sum_g (simd.best st)
    = simd.prefix_sum grad_hist (N.to_nat (simd.out_split_bin (simd.best st))) /\
    simd.out_left_sum_h (simd.best st)
    = simd.prefix_sum hess_hist (N.to_nat (simd.out_split_bin (simd.best st))))).
Proof.
  induction k as [|k [[IHg IHh] IHb]].
  - simpl. split; [split; reflexivity|left; reflexivity].
  - rewrite seq_S, fold_left_app. simpl.
    set (st := fold_left _ (seq 0 k) _) in *.
    rewrite !prefix_sum_S, <- IHg, <- IHh.
    assert (Hkeep : simd.best st = start \/
              (N.to_nat (simd.out_split_bin (simd.best st)) < S k /\
               simd.out_left_sum_g (simd.best st)
               = simd.prefix_sum grad_hist
                   (N.to_nat (simd.out_split_bin (simd.best st))) /\
               simd.out_left_sum_h (simd.best st)
               = simd.prefix_sum hess_hist
                   (N.to_nat (simd.out_split_bin (simd.best st))))).
    { destruct IHb as [E|(Hb & ? & ?)]; [left; exact E|right].
      split; [lia|auto]. }
    unfold simd.scalar_step.
    destruct (_ && _); simpl; [|auto].
    destruct (F32.gtb _ _); simpl; [|auto].
    split; [split; reflexivity|]. right. rewrite Nat2N.id.
    split; [lia|]. rewrite <- IHg, <- IHh. auto.
Qed.

End Avx2Sums.

(** Whatever the AVX2 variant reports as a split (a gain above negative
    infinity), its bin is below [n_bins] and its two left sums are the
    sums of the histogram entries [0 .. bin], added in that order: the
    lane accumulators of the vector loop never reach the outputs. *)
Theorem avx2_left_sums_are_prefix_sums
        (grad_hist hess_hist : list float) (n_bins : N)
        (GT HT w_min lambda : float) :
  let o := simd.find_best_split_avx2 grad_hist hess_hist n_bins
                                      GT HT w_min lambda in
  F32.gtb (simd.out_split_gain o) F32.neg_infinity = true ->
  (simd.out_split_bin o < n_bins)%N /\
  simd.out_left_sum_g o
  = simd.prefix_sum grad_hist (N.to_nat (simd.out_split_bin o)) /\
  simd.out_left_sum_h o
  = simd.prefix_sum hess_hist (N.to_nat (simd.out_split_bin o)).
Proof.
  intros o Hvalid. subst o. revert Hvalid.
  unfold simd.find_best_split_avx2.
  pose proof (chunks_sums_ok grad_hist hess_hist GT HT w_min lambda
                (N.to_nat n_bins / simd.lanes)) as Hc.
  destruct (fold_left _ (seq 0 (N.to_nat n_bins / simd.lanes)) _)
    as [[lg lh] o0]. cbn [snd] in Hc.
  assert (Hle : N.to_nat n_bins / simd.lanes * simd.lanes <= N.to_nat n_bins).
  { unfold simd.lanes. pose proof (Nat.Div0.mul_div_le (N.to_nat n_bins) 8). lia. }
  unfold simd.scalar_loop.
  destruct (scalar_tail_sums grad_hist hess_hist GT HT w_min
              (simd.gain_children lambda) o0 (N.to_nat n_bins)) as [_ Hb].
  intros Hvalid. destruct Hb as [E|(Hb & Hg & Hh)].
  - rewrite E in *. destruct Hc as [->|(Hb & Hg & Hh)]; [discriminate|].
    split; [lia|auto].
  - split; [lia|auto].
Qed.

Lemma avx2_left_sums_are_prefix_sums_witness :
  exists gh hh,
    Tree.feature_hist Ex.cfg Ex.binned Ex.grad Ex.hess Ex.rows 0
    = Ok (gh, hh) /\
    simd.out_left_sum_h
      (simd.find_best_split_avx2 gh hh 8 (Ex.fz (-27)) (Ex.fz 7)
                                 F32.one F32.one)
    = simd.prefix_sum hh
        (N.to_nat (simd.out_split_bin
                     (simd.find_best_split_avx2 gh hh 8 (Ex.fz (-27))
                                                (Ex.fz 7) F32.one F32.one))).
Proof.
  destruct (Tree.feature_hist Ex.cfg Ex.binned Ex.grad Ex.hess Ex.rows 0)
    as [[gh hh]| | |] eqn:E; try (vm_compute in E; discriminate).
  exists gh, hh. split; [reflexivity|].
  destruct (avx2_left_sums_are_prefix_sums gh hh 8 (Ex.fz (-27)) (Ex.fz 7)
              F32.one F32.one) as (_ & _ & Hh); [|exact Hh].
  vm_compute in E. injection E as <- <-. vm_compute. reflexivity.
Defined.

(** ** Training, in general *)

Lemma omap_guard_sublist {A B} (p : A -> bool) (g : A -> B) (l : list A) :
  sublist (omap (fun a => if p a then Some (g a) else None) l) (map g l).
Proof.
  induction l as [|a l IH]; [constructor|].
  change (omap (fun a => if p a then Some (g a) else None) (a :: l))
    with (match (if p a then Some (g a) else None) with
          | Some b => b :: omap (fun a => if p a then Some (g a) else None) l
          | None => omap (fun a => if p a then Some (g a) else None) l
          end).
  simpl. destruct (p a); [apply sublist_skip|apply sublist_cons]; exact IH.
Qed.



(** [GBDT::train] keeps the configuration, discards whatever trees and
    base score the model held, computes the base score from the labels
    and leaves exactly [n_rounds] trees, each of them with the
    configuration of the model, at least one node and fewer than
    [2 * n_rows] nodes. *)
Theorem train_leaves_n_rounds_trees
        (std_exp std_log : float -> float) (fbs : simd.finder)
        (uniform_stream : nat -> float)
        (evaluate : GBDTConfig -> DataMatrix -> list float -> result float)
        (m m' : GBDT.t) (d : DataMatrix) :
  GBDT.train std_exp std_log fbs uniform_stream evaluate m d = Ok m' ->
  (N.of_nat (n_rows d) <= 2 ^ 31)%N ->
  GBDT.config m' = GBDT.config m /\
  GBDT.base_score m'
  = GBDT.calculate_base_score std_log (GBDT.config m) (labels d) /\
  length (GBDT.trees m') = N.to_nat (n_rounds (GBDT.config m)) /\
  Forall (fun tr => Tree.config tr = GBDT.config m /\
                    0 < length (Tree.nodes tr) < 2 * n_rows d)
         (GBDT.trees m') /\
  forall m2, GBDT.config m2 = GBDT.config m ->
    GBDT.train std_exp std_log fbs uniform_stream evaluate m2 d = Ok m'.
Proof.
  intros Ht Hn.
  destruct (train_trees _ _ _ _ _ _ _ _ Ht Hn)
    as (Hc & Hb & Hl & binned & _ & Hall).
  split; [exact Hc|]. split; [exact Hb|]. split; [exact Hl|]. split.
  - assert (Hrows : 0 < n_rows d).
    { unfold GBDT.train in Ht.
      destruct (n_rows d); [discriminate|lia]. }
    eapply Forall_impl; [exact Hall|]. simpl.
    intros tr (g & h & rows & (t & _ & Hlay & Hcfg & Hsz) & Hlen).
    split; [exact Hcfg|]. rewrite Hlay, layout_length.
    pose proof (psize_pos t). lia.
  - intros m2 Hc2. rewrite <- Ht. unfold GBDT.train. rewrite Hc2.
    reflexivity.
Qed.

Lemma train_leaves_n_rounds_trees_witness :
  length (GBDT.trees Ex.two_round_model) = 2 /\
  GBDT.base_score Ex.two_round_model
  = GBDT.calculate_base_score Ex.libm_unused Ex.two_round_cfg
                              (labels Ex.four_rows) /\
  GBDT.train Ex.libm_unused Ex.libm_unused simd.find_best_split_fallback
             Ex.no_draws Ex.metric_printed Ex.two_round_model Ex.four_rows
  = Ok Ex.two_round_model.
Proof.
  assert (Ht : GBDT.train Ex.libm_unused Ex.libm_unused
                 simd.find_best_split_fallback Ex.no_draws Ex.metric_printed
                 (GBDT.mk Ex.two_round_cfg [] F32.zero) Ex.four_rows
               = Ok Ex.two_round_model) by (vm_compute; reflexivity).
  assert (Hn : (N.of_nat (n_rows Ex.four_rows) <= 2 ^ 31)%N)
    by (vm_compute; discriminate).
  destruct (train_leaves_n_rounds_trees _ _ _ _ _ _ _ _ Ht Hn)
    as (Hc & Hb & Hl & _ & Hre).
  split; [exact Hl|]. split; [exact Hb|].
  apply Hre. vm_compute. reflexivity.
Defined.

(** ** Training runs to completion *)

Section BuildDefined.
Variable fbs : simd.finder.
Variable cfg : GBDTConfig.
Variable data : DataMatrix.
Variables gradients hessians : list float.
Hypothesis Hready : ready cfg data gradients hessians.

#[local] Abbreviation in_range rows :=
  (Forall (fun r : N => N.to_nat r < n_rows data) rows).

Lemma cell_in_range (row col : nat) :
  row < n_rows data -> col < n_cols data ->
  row * n_cols data + col < n_rows data * n_cols data.
Proof. intros Hr Hc. nia. Qed.

Lemma node_sums_defined rows : forall acc,
  in_range rows ->
  exists G H, foldM (Tree.sum_step gradients hessians) rows acc = Ok (G, H).
Proof using Hready.
  destruct Hready as (Hg & Hh & _).
  induction rows as [|r rows IH]; intros [G H] Hr; simpl.
  - eauto.
  - apply Forall_cons in Hr as [Hr Hrs].
    destruct (lookup_lt_is_Some_2 gradients (N.to_nat r)) as (g & Eg); [lia|].
    destruct (lookup_lt_is_Some_2 hessians (N.to_nat r)) as (h & Eh); [lia|].
    assert (Estep : Tree.sum_step gradients hessians (G, H) r
                    = Ok (F32.add G g, F32.add H h)).
    { unfold Tree.sum_step, at_index. rewrite Eg, Eh. reflexivity. }
    rewrite Estep. simpl. apply IH. exact Hrs.
Qed.

Lemma feature_hist_defined (f : nat) rows : forall gh hh,
  f < n_cols data ->
  in_range rows ->
  length gh = N.to_nat (n_bins cfg) -> length hh = N.to_nat (n_bins cfg) ->
  exists gh' hh',
    foldM (Tree.hist_step data gradients hessians f) rows (gh, hh)
    = Ok (gh', hh').
Proof using Hready.
  destruct Hready as (Hg & Hh & _ & Hb & Hcodes & _).
  induction rows as [|r rows IH]; intros gh hh Hf Hr Hlg Hlh; simpl.
  - eauto.
  - apply Forall_cons in Hr as [Hr Hrs].
    destruct (lookup_lt_is_Some_2 (binned_features data)
                (N.to_nat r * n_cols data + f)) as (c & Ec);
      [rewrite Hb; apply cell_in_range; assumption|].
    destruct (lookup_lt_is_Some_2 gradients (N.to_nat r)) as (g & Eg); [lia|].
    destruct (lookup_lt_is_Some_2 hessians (N.to_nat r)) as (h & Eh); [lia|].
    assert (Hc : (c < n_bins cfg)%N).
    { rewrite Forall_forall in Hcodes. apply Hcodes.
      eapply list_elem_of_lookup_2. exact Ec. }
    destruct (lookup_lt_is_Some_2 gh (N.to_nat c)) as (x & Ex); [lia|].
    destruct (lookup_lt_is_Some_2 hh (N.to_nat c)) as (y & Ey); [lia|].
    assert (Estep : Tree.hist_step data gradients hessians f (gh, hh) r
                    = Ok (<[N.to_nat c := F32.add x g]> gh,
                          <[N.to_nat c := F32.add y h]> hh)).
    { unfold Tree.hist_step, Tree.binned_at, Tree.add_at, at_index.
      rewrite Ec. simpl. rewrite Eg. simpl. rewrite Ex. simpl.
      rewrite Eh. simpl. rewrite Ey. reflexivity. }
    rewrite Estep. simpl.
    apply IH; try assumption; rewrite length_insert; assumption.
Qed.

Lemma find_best_split_defined rows G H :
  in_range rows ->
  exists s,
    Tree.find_best_split fbs cfg data gradients hessians rows G H = Ok s.
Proof using Hready.
  intros Hr. unfold Tree.find_best_split.
  destruct (mapR_total
              (Tree.feature_split fbs cfg data gradients hessians rows G H)
              (seq 0 (n_cols data))) as (bs & Hbs).
  - intros f Hf. apply elem_of_seq in Hf. unfold Tree.feature_split.
    unfold Tree.feature_hist.
    destruct (feature_hist_defined f rows
                (replicate (N.to_nat (n_bins cfg)) F32.zero)
                (replicate (N.to_nat (n_bins cfg)) F32.zero))
      as (gh & hh & ->); [lia|exact Hr|apply length_replicate..|].
    simpl. destruct (F32.gtb _ _); [|eauto].
    destruct Hready as (_ & _ & _ & _ & _ & Hinfo).
    destruct (lookup_lt_is_Some_2 (bin_info data) f) as (b & Eb); [lia|].
    unfold at_index. rewrite Eb. simpl. eauto.
  - rewrite Hbs. simpl. eauto.
Qed.

Lemma split_rows_defined s rows : forall acc,
  N.to_nat (split_feature_id s) < n_cols data ->
  in_range rows ->
  exists l r, foldM (Tree.split_step data s) rows acc = Ok (l, r).
Proof using Hready.
  destruct Hready as (_ & _ & Hf & _).
  induction rows as [|x rows IH]; intros [l0 r0] Hs Hr; simpl.
  - eauto.
  - apply Forall_cons in Hr as [Hx Hrs].
    destruct (lookup_lt_is_Some_2 (features data)
                (N.to_nat x * n_cols data + N.to_nat (split_feature_id s)))
      as (v & Ev); [rewrite Hf; apply cell_in_range; assumption|].
    assert (Estep : exists acc',
               Tree.split_step data s (l0, r0) x = Ok acc').
    { unfold Tree.split_step, Tree.feature_at, at_index. rewrite Ev. simpl.
      destruct (F32.is_nan v); [|destruct (F32.leb _ _)]; eauto. }
    destruct Estep as (acc' & ->). simpl. apply IH; assumption.
Qed.

Lemma sublist_in_range (l rows : list N) :
  sublist l rows -> in_range rows -> in_range l.
Proof.
  intros Hs Hr. rewrite Forall_forall in *. intros x Hx. apply Hr.
  eapply elem_of_submseteq; [exact Hx|]. apply sublist_submseteq. exact Hs.
Qed.

(** With the data ready and the rows in range, [build_node] reads
    nothing out of bounds and returns. *)
Lemma build_node_defined fuel : forall rows depth_ nodes_,
  (max_depth cfg < 2 ^ 32)%N ->
  N.to_nat (max_depth cfg) - N.to_nat depth_ < fuel ->
  in_range rows ->
  (N.of_nat (length nodes_ + 2 * max 1 (length rows)) <= 2 ^ 32)%N ->
  exists idx nodes',
    Tree.build_node fbs cfg data gradients hessians fuel rows depth_ nodes_
    = Ok (idx, nodes').
Proof using Hready.
  induction fuel as [|fuel IH]; intros rows depth_ nodes_ Hmd Hfuel Hr Hsz;
    [lia|].
  simpl.
  destruct (node_sums_defined rows (F32.zero, F32.zero) Hr) as (G & H & Es).
  unfold Tree.node_sums. rewrite Es. simpl.
  destruct (max_depth cfg <=? depth_)%N eqn:Hd; simpl; [eauto|].
  apply N.leb_gt in Hd.
  destruct (F32.ltb H (min_child_weight cfg)
            || (N.of_nat (length rows) <=? min_data_in_leaf cfg)%N);
    [eauto|].
  destruct (find_best_split_defined rows G H Hr) as (s & Ef).
  rewrite Ef. simpl.
  destruct (is_valid s) eqn:Hv; simpl; [|eauto].
  pose proof (find_best_split_feature _ _ _ _ _ _ _ _ _ Ef Hv) as Hfeat.
  destruct (split_rows_defined s rows ([], []) Hfeat Hr) as (l & r & Esp).
  unfold Tree.split_rows. rewrite Esp. simpl.
  destruct ((length l =? 0) || (length r =? 0)) eqn:Hempty; [eauto|].
  apply orb_false_elim in Hempty as [Hl Hr'].
  apply Nat.eqb_neq in Hl, Hr'.
  destruct (split_rows_spec _ _ _ _ _ Esp) as (Sl & Sr & Hlen).
  rewrite (wrap32_small (depth_ + 1)) by lia.
  assert (Hfuel' : N.to_nat (max_depth cfg) - N.to_nat (depth_ + 1) < fuel)
    by lia.
  destruct (IH l (depth_ + 1)%N (nodes_ ++ [default_node]) Hmd Hfuel'
               (sublist_in_range _ _ Sl Hr)) as (li & n2 & El);
    [rewrite length_app; simpl; lia|].
  rewrite El. simpl.
  destruct (build_node_layout _ _ _ _ _ _ _ _ _ _ _ El)
    as (tl & _ & -> & _ & Hsl); [rewrite length_app; simpl; lia|].
  destruct (IH r (depth_ + 1)%N
               ((nodes_ ++ [default_node])
                ++ layout (length (nodes_ ++ [default_node])) tl)
               Hmd Hfuel' (sublist_in_range _ _ Sr Hr)) as (ri & n3 & Er);
    [rewrite !length_app, layout_length; simpl; lia|].
  rewrite Er. simpl.
  destruct (build_node_layout _ _ _ _ _ _ _ _ _ _ _ Er)
    as (tr & _ & -> & _ & Hsr);
    [rewrite !length_app, layout_length; simpl; lia|].
  rewrite wrap32_of_nat by lia. rewrite Nat2N.id.
  destruct (lookup_lt_is_Some_2
              (((nodes_ ++ [default_node])
                ++ layout (length (nodes_ ++ [default_node])) tl)
               ++ layout (length ((nodes_ ++ [default_node])
                                  ++ layout (length (nodes_ ++ [default_node])) tl))
                         tr)
              (length nodes_)) as (nd & End).
  { rewrite !length_app. simpl. lia. }
  unfold at_index. rewrite End. simpl. eauto.
Qed.

Lemma build_defined rows :
  (max_depth cfg < 2 ^ 32)%N ->
  in_range rows ->
  (N.of_nat (2 * max 1 (length rows)) <= 2 ^ 32)%N ->
  exists tr, Tree.build fbs cfg data gradients hessians rows = Ok tr.
Proof using Hready.
  intros Hmd Hr Hsz. unfold Tree.build.
  destruct (build_node_defined (S (N.to_nat (max_depth cfg))) rows 0 []
              Hmd ltac:(lia) Hr ltac:(simpl; lia)) as (idx & nodes' & ->).
  simpl. eauto.
Qed.

End BuildDefined.

Lemma validate_bounds (c : GBDTConfig) :
  validate c = true ->
  (0 < n_bins c <= 256)%N /\ (0 < max_depth c <= 32)%N /\ (0 < n_rounds c)%N.
Proof.
  unfold validate. intros H.
  destruct (N.eqb_spec (n_rounds c) 0); [discriminate|].
  destruct (_ || _); [discriminate|].
  destruct (N.eqb_spec (max_depth c) 0); [discriminate|]. simpl in H.
  destruct (N.ltb_spec 32 (max_depth c)); [discriminate|].
  destruct (N.eqb_spec (min_data_in_leaf c) 0); [discriminate|].
  destruct (F32.leb (min_child_weight c) F32.zero); [discriminate|].
  destruct (F32.ltb (reg_lambda c) F32.zero); [discriminate|].
  destruct (N.eqb_spec (n_bins c) 0); [discriminate|]. simpl in H.
  destruct (N.ltb_spec 256 (n_bins c)); [discriminate|].
  lia.
Qed.

Lemma upper_bound_le (l : list float) (v : float) :
  upper_bound l v <= length l.
Proof.
  induction l as [|e l IH]; simpl; [lia|].
  destruct (F32.ltb v e); lia.
Qed.

Lemma get_bin_le (b : BinInfo) (v : float) :
  N.to_nat (get_bin b v) <= length (splits b).
Proof.
  unfold get_bin. destruct (F32.is_nan v).
  - pose proof (wrap32_le (N.of_nat (length (splits b)))). lia.
  - pose proof (wrap32_le (N.of_nat (upper_bound (splits b) v))).
    pose proof (upper_bound_le (splits b) v). lia.
Qed.

(** A column whose number of distinct values is not [n_bins] gets fewer
    than [n_bins] edges. *)
Lemma column_edges_below (n : N) (d : DataMatrix) (col : nat) (b : BinInfo) :
  (0 < n < 2 ^ 32)%N ->
  distinct_values d col <> N.to_nat n ->
  column_bin_info n d col = Some b ->
  length (splits b) < N.to_nat n.
Proof.
  unfold column_bin_info, make_splits, distinct_values. intros Hn Hd H.
  destruct (N.leb_spec
              (N.of_nat (length (std_unique (std_sort (column_values d col)))))
              n) as [Hle|Hgt]; simpl in H.
  - injection H as <-. simpl. lia.
  - destruct (N.eqb_spec n 0); [lia|]. simpl in H. injection H as <-. simpl.
    rewrite length_map, length_seq.
    assert (Hw : wrap32 (n + 2 ^ 32 - 1) = (n - 1)%N).
    { unfold wrap32. replace (n + 2 ^ 32 - 1)%N with (n - 1 + 1 * 2 ^ 32)%N by lia.
      rewrite N.Div0.mod_add. apply N.mod_small. lia. }
    rewrite Hw. lia.
Qed.

Lemma column_bin_info_defined (n : N) (d : DataMatrix) (col : nat) :
  (0 < n)%N -> exists b, column_bin_info n d col = Some b.
Proof.
  intros Hn. unfold column_bin_info, make_splits.
  destruct (_ <=? _)%N; simpl; [eauto|].
  destruct (N.eqb_spec n 0); [lia|]. simpl. eauto.
Qed.

Lemma create_bins_defined (n : N) (d : DataMatrix) :
  (0 < n)%N -> exists d', create_bins n d = Some d'.
Proof.
  intros Hn. unfold create_bins.
  destruct (mapM (column_bin_info n d) (seq 0 (n_cols d))) as [infos|] eqn:E.
  - simpl. eauto.
  - exfalso. apply mapM_None in E. apply Exists_exists in E as (col & _ & Hc).
    destruct (column_bin_info_defined n d col Hn) as (b & Hb). congruence.
Qed.

Lemma concat_rows_length {A} (f : nat -> nat -> A) (nc nr : nat) : forall s,
  length (concat (map (fun r => map (f r) (seq 0 nc)) (seq s nr))) = nr * nc.
Proof.
  induction nr as [|nr IH]; intros s; simpl; [reflexivity|].
  rewrite length_app, length_map, length_seq, IH. reflexivity.
Qed.

Lemma bin_all_length (d : DataMatrix) (infos : list BinInfo) :
  length (bin_all d infos) = n_rows d * n_cols d.
Proof. unfold bin_all. apply concat_rows_length. Qed.

(** After [create_bins] on a well-formed matrix none of whose columns
    has exactly [n_bins] distinct values, everything that [Tree::build]
    reads is in place. *)
Lemma create_bins_ready (c : GBDTConfig) (d binned : DataMatrix)
      (gradients hessians : list float) :
  (0 < n_bins c <= 256)%N ->
  well_formed d ->
  (forall col, col < n_cols d -> distinct_values d col <> N.to_nat (n_bins c)) ->
  create_bins (n_bins c) d = Some binned ->
  length gradients = n_rows d -> length hessians = n_rows d ->
  ready c binned gradients hessians.
Proof.
  intros Hn [Hf _] Hdist Hb Hg Hh.
  destruct (create_bins_shape _ _ _ Hb) as (Hrows & Hcols & Hfeat).
  destruct (create_bins_infos _ _ _ Hb) as [Hlen Hbin].
  unfold ready. rewrite Hrows, Hcols, Hfeat, Hbin, bin_all_length.
  repeat split; try assumption.
  apply Forall_lookup. intros i code Hi.
  assert (Hil : i < n_rows d * n_cols d).
  { apply lookup_lt_Some in Hi. rewrite bin_all_length in Hi. exact Hi. }
  assert (Hnc : 0 < n_cols d) by (destruct (n_cols d); lia).
  assert (Hcol : i mod n_cols d < n_cols d) by (apply Nat.mod_upper_bound; lia).
  assert (Hrow : i / n_cols d < n_rows d)
    by (apply Nat.Div0.div_lt_upper_bound; lia).
  rewrite (Nat.div_mod_eq i (n_cols d)) in Hi.
  rewrite (Nat.mul_comm (n_cols d)) in Hi.
  rewrite (bin_all_lookup d (bin_info binned) _ _ Hrow Hcol) in Hi.
  injection Hi as <-.
  destruct (lookup_lt_is_Some_2 (bin_info binned) (i mod n_cols d))
    as (b & Eb); [lia|].
  rewrite (list_lookup_total_correct _ _ _ Eb).
  destruct (create_bins_column _ _ _ _ _ Hb Eb) as [_ Hcb].
  pose proof (column_edges_below (n_bins c) d _ b ltac:(lia)
                (Hdist _ Hcol) Hcb) as Hlt.
  pose proof (get_bin_le b (get_feature d (i / n_cols d) (i mod n_cols d))) as Hle.
  unfold wrap8.
  pose proof (N.Div0.mod_le
                (get_bin b (get_feature d (i / n_cols d) (i mod n_cols d)))
                (2 ^ 8)).
  lia.
Qed.

Section TrainDefined.
Variables std_exp std_log : float -> float.
Variable fbs : simd.finder.
Variable uniform_stream : nat -> float.
Variable evaluate : GBDTConfig -> DataMatrix -> list float -> result float.

Lemma gradient_hessian_length (c : GBDTConfig) (labels_ preds : list float) :
  length labels_ = length preds ->
  length (fst (GBDT.gradient_hessian std_exp c labels_ preds)) = length preds /\
  length (snd (GBDT.gradient_hessian std_exp c labels_ preds)) = length preds.
Proof.
  intros Hl. unfold GBDT.gradient_hessian,
    GBDT.compute_binary_gradient_hessian,
    GBDT.compute_regression_gradient_hessian.
  destruct (task c); simpl;
    rewrite ?length_zip_with, ?length_map; lia.
Qed.

Lemma sampled_indices_in_range (c : GBDTConfig) (nr iter : nat) :
  (N.of_nat nr <= 2 ^ 32)%N ->
  Forall (fun r : N => N.to_nat r < nr)
         (GBDT.sampled_indices uniform_stream c nr iter).
Proof.
  intros Hn. apply Forall_forall. intros r Hr.
  assert (Hin : r ∈ map (fun i => wrap32 (N.of_nat i)) (seq 0 nr)).
  { unfold GBDT.sampled_indices in Hr.
    destruct (F32.ltb (subsample c) F32.one); [|exact Hr].
    eapply elem_of_submseteq; [exact Hr|]. apply sublist_submseteq.
    apply (omap_guard_sublist
             (fun i => F32.ltb (uniform_stream (iter * nr + i)) (subsample c))
             (fun i => wrap32 (N.of_nat i))). }
  apply list_elem_of_fmap in Hin as (i & -> & Hi).
  apply elem_of_seq in Hi. pose proof (wrap32_le (N.of_nat i)). lia.
Qed.

Lemma train_rounds_defined (c : GBDTConfig) (d binned : DataMatrix) :
  (0 < n_bins c <= 256)%N -> (max_depth c < 2 ^ 32)%N ->
  well_formed d ->
  (N.of_nat (n_rows d) <= 2 ^ 31)%N ->
  (forall col, col < n_cols d ->
               distinct_values d col <> N.to_nat (n_bins c)) ->
  (forall p, length p = n_rows d -> exists v, evaluate c d p = Ok v) ->
  create_bins (n_bins c) d = Some binned ->
  forall iters st,
    length (GBDT.r_predictions st) = n_rows d ->
    length (GBDT.r_gradients st) = n_rows d ->
    length (GBDT.r_hessians st) = n_rows d ->
    exists st',
      foldM (GBDT.train_round std_exp fbs uniform_stream evaluate c d binned)
            iters st = Ok st'.
Proof.
  intros Hn Hmd Hwf Hrows Hdist Hev Hb.
  destruct (create_bins_shape _ _ _ Hb) as (Hbr & Hbc & _).
  induction iters as [|iter iters IH]; intros st Hp Hg Hh; simpl.
  - eauto.
  - assert (Hready : ready c binned (GBDT.r_gradients st) (GBDT.r_hessians st))
      by (eapply create_bins_ready; eassumption).
    pose proof (sampled_indices_in_range c (n_rows d) iter) as Hin.
    pose proof (sampled_indices_length uniform_stream c (n_rows d) iter) as Hlen.
    assert (Hsz : (N.of_nat (2 * max 1 (length
                     (GBDT.sampled_indices uniform_stream c (n_rows d) iter)))
                   <= 2 ^ 32)%N).
    { change (2 ^ 31)%N with 2147483648%N in Hrows.
      change (2 ^ 32)%N with 4294967296%N. lia. }
    destruct (build_defined fbs c binned _ _ Hready
                (GBDT.sampled_indices uniform_stream c (n_rows d) iter) Hmd)
      as (tr & Etr); [rewrite Hbr; apply Hin|exact Hsz|].
    { change (2 ^ 31)%N with 2147483648%N in Hrows.
      change (2 ^ 32)%N with 4294967296%N. lia. }
    assert (W : walkable (n_cols d) tr).
    { rewrite <- Hbc. eapply grown_walkable. eapply build_grown; eassumption. }
    destruct (walkable_predict tr d W) as (vs & Evs & Hvs & _).
    set (preds := GBDT.add_tree (learning_rate c) (GBDT.r_predictions st) vs).
    assert (Hpl : length preds = n_rows d).
    { unfold preds, GBDT.add_tree. rewrite length_zip_with. lia. }
    destruct (Hev preds Hpl) as (v & Ev).
    assert (Estep : GBDT.train_round std_exp fbs uniform_stream evaluate
                      c d binned st iter
                    = Ok (GBDT.mkRound
                            (GBDT.r_trees st ++ [tr]) preds
                            (fst (GBDT.gradient_hessian std_exp c (labels d) preds))
                            (snd (GBDT.gradient_hessian std_exp c (labels d) preds)))).
    { unfold GBDT.train_round. rewrite Etr. simpl. rewrite Evs. simpl.
      fold preds. rewrite Ev. reflexivity. }
    rewrite Estep. simpl.
    destruct Hwf as [_ Hlab].
    destruct (gradient_hessian_length c (labels d) preds) as [Hgl Hhl]; [lia|].
    apply IH; simpl; lia.
Qed.

End TrainDefined.

(** [GBDT::train] returns a model, without reading or writing outside
    any vector, whenever the configuration is valid, the matrix is well
    formed with at least one row and one column and at most [2^31]
    rows, the metric evaluates, and no column has exactly [n_bins]
    distinct values (the case in which a bin code equals [n_bins]). *)
Theorem train_runs_to_completion
        (std_exp std_log : float -> float) (fbs : simd.finder)
        (uniform_stream : nat -> float)
        (evaluate : GBDTConfig -> DataMatrix -> list float -> result float)
        (m : GBDT.t) (d : DataMatrix) :
  validate (GBDT.config m) = true ->
  well_formed d -> 0 < n_rows d -> 0 < n_cols d ->
  (N.of_nat (n_rows d) <= 2 ^ 31)%N ->
  (forall col, col < n_cols d ->
               distinct_values d col <> N.to_nat (n_bins (GBDT.config m))) ->
  (forall p, length p = n_rows d ->
             exists v, evaluate (GBDT.config m) d p = Ok v) ->
  exists m', GBDT.train std_exp std_log fbs uniform_stream evaluate m d = Ok m'.
Proof.
  intros Hv Hwf Hr Hc Hrows Hdist Hev.
  destruct (validate_bounds _ Hv) as (Hn & Hmd & _).
  unfold GBDT.train.
  destruct (n_rows d =? 0) eqn:E1; [apply Nat.eqb_eq in E1; lia|].
  destruct (n_cols d =? 0) eqn:E2; [apply Nat.eqb_eq in E2; lia|]. simpl.
  destruct Hwf as [Hf Hl].
  destruct (length (labels d) =? 0) eqn:E3; [apply Nat.eqb_eq in E3; lia|].
  destruct (create_bins_defined (n_bins (GBDT.config m)) d ltac:(lia))
    as (binned & Hb).
  rewrite Hb.
  set (base := GBDT.calculate_base_score std_log (GBDT.config m) (labels d)).
  destruct (gradient_hessian_length std_exp (GBDT.config m) (labels d)
              (replicate (n_rows d) base)) as [Hgl Hhl];
    [rewrite length_replicate; exact Hl|].
  rewrite length_replicate in Hgl, Hhl.
  destruct (train_rounds_defined std_exp fbs uniform_stream evaluate
              (GBDT.config m) d binned Hn ltac:(lia) (conj Hf Hl) Hrows
              Hdist Hev Hb
              (seq 0 (N.to_nat (n_rounds (GBDT.config m))))
              (GBDT.mkRound [] (replicate (n_rows d) base)
                 (fst (GBDT.gradient_hessian std_exp (GBDT.config m) (labels d)
                         (replicate (n_rows d) base)))
                 (snd (GBDT.gradient_hessian std_exp (GBDT.config m) (labels d)
                         (replicate (n_rows d) base)))))
    as (st' & Est); simpl; try assumption.
  - apply length_replicate.
  - rewrite Est. simpl. eauto.
Qed.

Lemma train_runs_to_completion_witness :
  exists m',
    GBDT.train Ex.libm_unused Ex.libm_unused simd.find_best_split_avx2
               Ex.no_draws Ex.metric_printed
               (GBDT.mk Ex.two_round_cfg [] F32.zero) Ex.four_rows = Ok m'.
Proof.
  apply train_runs_to_completion.
  - vm_compute. reflexivity.
  - split; reflexivity.
  - simpl. lia.
  - simpl. lia.
  - vm_compute. discriminate.
  - intros col Hcol. simpl in Hcol.
    assert (col = 0) as -> by lia. vm_compute. lia.
  - intros p _. eexists. reflexivity.
Defined.

(** ** The CSV loader *)

Lemma string_app_not_empty (cur : string) (c : Ascii.ascii) :
  String.eqb (cur +:+ String c "") "" = false.
Proof. destruct cur; reflexivity. Qed.

Lemma getline_all_length (delim : Ascii.ascii) (s : string) : forall cur,
  length (Csv.getline_all delim s cur)
  = occurrences delim s
    + (if ends_with delim s || (String.eqb s "" && String.eqb cur "")
       then 0 else 1).
Proof.
  induction s as [|c s IH]; intros cur.
  - simpl. destruct (String.eqb cur ""); reflexivity.
  - change (Csv.getline_all delim (String c s) cur)
      with (if Ascii.eqb c delim
            then cur :: Csv.getline_all delim s ""
            else Csv.getline_all delim s (cur +:+ String c "")).
    change (occurrences delim (String c s))
      with ((if Ascii.eqb c delim then 1 else 0) + occurrences delim s).
    change (String.eqb (String c s) "") with false.
    rewrite andb_false_l, orb_false_r.
    destruct (Ascii.eqb c delim) eqn:E.
    + simpl length. rewrite IH.
      destruct s as [|c' s]; simpl; [rewrite E; reflexivity|].
      rewrite orb_false_r. lia.
    + rewrite IH, string_app_not_empty, andb_false_r, orb_false_r.
      destruct s as [|c' s]; simpl; [rewrite E; reflexivity|reflexivity].
Qed.

(** A line has as many cells as it has commas, plus one unless it is
    empty or ends with a comma: a last cell that is empty is not read at
    all, and an empty line has no cell. *)
Theorem csv_line_cell_count (line : string) :
  length (Csv.getline_all Csv.comma line "")
  = occurrences Csv.comma line
    + (if String.eqb line "" || ends_with Csv.comma line then 0 else 1).
Proof.
  rewrite getline_all_length. rewrite andb_true_r, orb_comm. reflexivity.
Qed.

Section CsvShape.
Variable stof : string -> result float.

Lemma cell_pass (label_column : Z) (row_no : nat) (ics : list (nat * string)) :
  forall st st',
    foldM (Csv.cell_step stof label_column row_no) ics st = Ok st' ->
    (label_column < 0)%Z -> snd st' = snd st.
Proof.
  induction ics as [|[i c] ics IH]; intros st st' H Hneg; simpl in H.
  - injection H as <-. reflexivity.
  - inv_bind H. unfold Csv.cell_step in Ha. inv_bind Ha. simpl in Ha.
    destruct (Z.eqb_spec (Z.of_nat i) label_column) as [E|_]; [lia|].
    injection Ha as <-. rewrite (IH _ _ H Hneg). reflexivity.
Qed.

Lemma line_pass (label_column : Z) (n_cols_ : nat) (lines : list string) :
  forall st st',
    foldM (Csv.line_step stof label_column n_cols_) lines st = Ok st' ->
    Forall (fun row => length row = n_cols_) (fst st) ->
    Forall (fun row => length row = n_cols_) (fst st') /\
    length (fst st') = length (fst st) + length lines /\
    ((label_column < 0)%Z -> snd st' = snd st).
Proof.
  induction lines as [|line lines IH]; intros st st' H Hall; simpl in H.
  - injection H as <-. repeat split; auto.
  - inv_bind H. unfold Csv.line_step in Ha. inv_bind Ha.
    destruct (length (fst a0) =? n_cols_) eqn:E; simpl in Ha; [|discriminate].
    apply Nat.eqb_eq in E. injection Ha as <-.
    destruct (IH _ _ H) as (Hall' & Hlen & Hlab).
    { simpl. apply Forall_app. split; [exact Hall|].
      constructor; [exact E|constructor]. }
    split; [exact Hall'|]. split.
    + rewrite Hlen. simpl. rewrite length_app. simpl. lia.
    + intros Hneg. rewrite (Hlab Hneg). simpl.
      apply (cell_pass _ _ _ _ _ Ha0 Hneg).
Qed.

Lemma concat_length_uniform {A} (n : nat) (rows : list (list A)) :
  Forall (fun row => length row = n) rows ->
  length (concat rows) = length rows * n.
Proof.
  induction 1 as [|row rows Hr _ IH]; simpl; [reflexivity|].
  rewrite length_app, IH, Hr. reflexivity.
Qed.

End CsvShape.

(** A matrix that [load_csv] returns has one row per line after the
    header, [n_rows * n_cols] features, one label per row when a label
    column was asked for and none otherwise, and no bins yet. *)
Theorem load_csv_shape
        (stof : string -> result float) (filename text : string)
        (label_column : Z) (d : DataMatrix) :
  Csv.load_csv stof filename (Some text) label_column = Ok d ->
  n_rows d = length (tl (Csv.getline_all Csv.newline text "")) /\
  length (features d) = n_rows d * n_cols d /\
  ((0 <= label_column)%Z -> length (labels d) = n_rows d) /\
  ((label_column < 0)%Z -> labels d = []) /\
  binned_features d = [] /\ bin_info d = [].
Proof.
  unfold Csv.load_csv. intros H. inv_bind H.
  destruct (line_pass stof _ _ _ _ _ Ha ltac:(constructor))
    as (Hall & Hlen & Hlab).
  simpl in Hlen.
  destruct (Z.leb_spec 0 label_column) as [Hpos|Hneg]; simpl in H.
  - destruct (length (snd a) =? length (fst a)) eqn:E; simpl in H;
      [|discriminate].
    apply Nat.eqb_eq in E. injection H as <-. simpl.
    split; [exact Hlen|]. split; [apply concat_length_uniform; exact Hall|].
    split; [intros _; exact E|]. split; [lia|]. auto.
  - injection H as <-. simpl.
    split; [exact Hlen|]. split; [apply concat_length_uniform; exact Hall|].
    split; [lia|]. split; [intros _; apply (Hlab Hneg)|]. auto.
Qed.

Lemma load_csv_shape_witness :
  exists d,
    Csv.load_csv stof_integers "train.csv" (Some csv_example) 0 = Ok d /\
    n_rows d = 2 /\ n_cols d = 2 /\
    length (features d) = n_rows d * n_cols d /\
    length (labels d) = n_rows d.
Proof.
  destruct (Csv.load_csv stof_integers "train.csv" (Some csv_example) 0)
    as [d| | |] eqn:E; try (vm_compute in E; discriminate).
  destruct (load_csv_shape _ _ _ _ _ E) as (Hr & Hf & Hl & _).
  exists d. split; [reflexivity|].
  split; [vm_compute in E; injection E as <-; reflexivity|].
  split; [vm_compute in E; injection E as <-; reflexivity|].
  split; [exact Hf|]. apply Hl. lia.
Defined.

(** An empty file read with a label column gives a matrix without rows
    whose column count is [2^64 - 1]: the [size_t] count of the header
    cells, 0, is decremented for the label column. *)
Theorem load_csv_empty_file_wraps_n_cols
        (stof : string -> result float) (filename : string)
        (label_column : Z) :
  (0 <= label_column)%Z ->
  exists d,
    Csv.load_csv stof filename (Some "") label_column = Ok d /\
    n_rows d = 0 /\ features d = [] /\ labels d = [] /\
    Z.of_nat (n_cols d) = (2 ^ 64 - 1)%Z.
Proof.
  intros Hpos. unfold Csv.load_csv.
  change (Csv.getline_all Csv.newline "" "") with (@nil string).
  change (hd "" []) with "". change (tl (@nil string)) with (@nil string).
  change (Csv.getline_all Csv.comma "" "") with (@nil string).
  change (length (@nil string)) with 0.
  destruct (Z.leb_spec 0 label_column) as [_|Hneg]; [|lia].
  change (foldM _ [] ([], [])) with (Ok (@nil (list float), @nil float)).
  change (true && negb (length (snd (@nil (list float), @nil float))
                        =? length (fst (@nil (list float), @nil float))))
    with false.
  cbv beta iota.
  exists (mkDataMatrix 0 (Z.to_nat ((Z.of_nat 0 - 1) mod 2 ^ 64)) [] [] [] []).
  split; [reflexivity|].
  cbn [n_rows n_cols features labels].
  split; [reflexivity|]. split; [reflexivity|]. split; [reflexivity|].
  rewrite Z2Nat.id; [reflexivity|].
  apply Z.mod_pos_bound. reflexivity.
Qed.

Lemma load_csv_empty_file_wraps_n_cols_witness :
  exists d,
    Csv.load_csv stof_integers "empty.csv" (Some "") 0 = Ok d /\
    n_rows d = 0 /\ Z.of_nat (n_cols d) = 18446744073709551615%Z.
Proof.
  destruct (load_csv_empty_file_wraps_n_cols stof_integers "empty.csv" 0)
    as (d & E & Hr & _ & _ & Hc); [lia|].
  exists d. split; [exact E|]. split; [exact Hr|exact Hc].
Defined.
(* ===================================================================== *)
(** ** Cross-validation *)
(* ===================================================================== *)

Lemma fold_size_step (j n k : nat) :
  0 < n -> k < n ->
  fold_size (S j) n k
  = fold_size j n k + (if (k =? j mod n)%nat then 1 else 0).
Proof.
  intros Hn Hk. unfold fold_size.
  pose proof (Nat.div_mod_eq j n) as E.
  pose proof (Nat.mod_upper_bound j n ltac:(lia)) as Hr.
  set (q := j / n) in *. set (r := j mod n) in *.
  destruct (decide (S r < n)) as [Hlt|Hge].
  - assert (Hq : S j / n = q).
    { symmetry. apply (Nat.div_unique (S j) n q (S r)); lia. }
    assert (Hm : S j mod n = S r).
    { symmetry. apply (Nat.mod_unique (S j) n q (S r)); lia. }
    rewrite Hq, Hm.
    destruct (Nat.ltb_spec k (S r)), (Nat.ltb_spec k r),
      (Nat.eqb_spec k r); lia.
  - assert (Hq : S j / n = S q).
    { symmetry. apply (Nat.div_unique (S j) n (S q) 0); lia. }
    assert (Hm : S j mod n = 0).
    { symmetry. apply (Nat.mod_unique (S j) n (S q) 0); lia. }
    rewrite Hq, Hm.
    destruct (Nat.ltb_spec k 0), (Nat.ltb_spec k r),
      (Nat.eqb_spec k r); lia.
Qed.

Lemma concat_replicate_nil {A} (n : nat) :
  concat (replicate n (@nil A)) = [].
Proof. induction n; simpl; auto. Qed.

Lemma concat_insert_snoc {A} (folds : list (list A)) (k : nat)
      (f : list A) (x : A) :
  folds !! k = Some f ->
  concat (<[k := f ++ [x]]> folds) ≡ₚ concat folds ++ [x].
Proof.
  revert k. induction folds as [|g folds IH]; intros k Hk.
  - discriminate.
  - destruct k as [|k]; simpl in *.
    + injection Hk as ->.
      rewrite <- !app_assoc. apply Permutation_app_head.
      apply Permutation_app_comm.
    + rewrite (IH _ Hk). rewrite app_assoc. reflexivity.
Qed.

Lemma fold_indices_deals (n : N) (indices : list N) :
  n <> 0%N ->
  exists folds,
    CrossValidation.fold_indices n indices = Ok folds /\
    length folds = N.to_nat n /\
    concat folds ≡ₚ indices /\
    forall k, k < N.to_nat n ->
      exists f, folds !! k = Some f /\
                length f = fold_size (length indices) (N.to_nat n) k.
Proof.
  intros Hn. unfold CrossValidation.fold_indices.
  induction indices as [|x l IH] using rev_ind.
  - exists (replicate (N.to_nat n) []). simpl.
    split; [reflexivity|]. split; [apply length_replicate|].
    split; [rewrite concat_replicate_nil; reflexivity|].
    intros k Hk. exists []. split; [apply lookup_replicate_2; assumption|].
    unfold fold_size. rewrite Nat.Div0.div_0_l, Nat.Div0.mod_0_l. reflexivity.
  - destruct IH as (folds & E & Hlen & Hperm & Hsz).
    rewrite imap_app, foldM_app, E. simpl.
    unfold CrossValidation.assign_step. simpl.
    destruct (N.eqb_spec n 0) as [|_]; [contradiction|].
    rewrite Nat.add_0_r.
    assert (Hk0 : length l mod N.to_nat n < N.to_nat n)
      by (apply Nat.mod_upper_bound; lia).
    destruct (Hsz _ Hk0) as (f0 & Hf0 & Hl0).
    apply at_index_Ok in Hf0 as Ef0. rewrite Ef0. simpl.
    eexists. split; [reflexivity|].
    split; [rewrite length_insert; assumption|].
    split.
    { rewrite (concat_insert_snoc _ _ _ _ Hf0), Hperm. reflexivity. }
    intros k Hk. rewrite length_app, Nat.add_1_r.
    rewrite fold_size_step by lia.
    destruct (Nat.eqb_spec k (length l mod N.to_nat n)) as [->|Hne].
    + exists (f0 ++ [x]). split.
      * apply list_lookup_insert_eq. rewrite Hlen. assumption.
      * rewrite length_app, Hl0. reflexivity.
    + destruct (Hsz _ Hk) as (f & Hf & Hl).
      exists f. split.
      * rewrite list_lookup_insert_ne by congruence. assumption.
      * rewrite Hl. lia.
Qed.

(** For any non-zero number of folds, the fold assignment of
    [GBDT::cv] succeeds, yields exactly [n_folds] folds that together
    hold every index exactly once, and fold [k] holds
    [len / n_folds] indices plus one more when [k < len mod n_folds];
    fold sizes therefore differ by at most one. *)
Theorem cv_folds_partition_rows (n_folds : N) (indices : list N) :
  n_folds <> 0%N ->
  exists folds,
    CrossValidation.fold_indices n_folds indices = Ok folds /\
    length folds = N.to_nat n_folds /\
    concat folds ≡ₚ indices /\
    forall k, k < N.to_nat n_folds ->
      exists f, folds !! k = Some f /\
                length f = fold_size (length indices) (N.to_nat n_folds) k.
Proof. apply fold_indices_deals. Qed.

Lemma cv_folds_partition_rows_witness :
  3%N <> 0%N /\
  exists folds,
    CrossValidation.fold_indices 3 [10; 11; 12; 13; 14; 15; 16]%N = Ok folds /\
    length folds = 3 /\
    concat folds ≡ₚ [10; 11; 12; 13; 14; 15; 16]%N /\
    forall k, k < 3 ->
      exists f, folds !! k = Some f /\ length f = fold_size 7 3 k.
Proof.
  split; [discriminate|].
  apply (cv_folds_partition_rows 3 [10; 11; 12; 13; 14; 15; 16]%N).
  discriminate.
Defined.

Lemma mapR_at_index_seq {A} (l : list A) (base s n : nat) :
  base + s + n <= length l ->
  mapR (fun col => at_index l (base + col)) (seq s n)
  = Ok (take n (drop (base + s) l)).
Proof.
  revert s. induction n as [|n IH]; intros s Hlen; simpl.
  - reflexivity.
  - destruct (lookup_lt_is_Some_2 l (base + s) ltac:(lia)) as (x & Hx).
    apply at_index_Ok in Hx as Ex. rewrite Ex. simpl.
    rewrite IH by lia. simpl.
    rewrite (drop_S _ _ _ Hx). simpl.
    rewrite Nat.add_succ_r. reflexivity.
Qed.

Lemma gather_row_Ok (d : DataMatrix) (st : list float * list float)
      (idx : N) :
  well_formed d -> N.to_nat idx < n_rows d ->
  exists y,
    labels d !! N.to_nat idx = Some y /\
    CrossValidation.gather_row d st idx
    = Ok (fst st ++ row_of d (N.to_nat idx), snd st ++ [y]).
Proof.
  intros [Hf Hl] Hi. unfold CrossValidation.gather_row.
  rewrite (mapR_at_index_seq (features d) (N.to_nat idx * n_cols d) 0
                             (n_cols d)) by nia.
  destruct (lookup_lt_is_Some_2 (labels d) (N.to_nat idx) ltac:(lia))
    as (y & Hy).
  exists y. split; [assumption|].
  apply at_index_Ok in Hy as Ey. simpl. rewrite Ey. simpl.
  unfold row_of. rewrite Nat.add_0_r. reflexivity.
Qed.

Lemma gather_rows_Ok (d : DataMatrix) (indices : list N)
      (st : list float * list float) :
  well_formed d ->
  (forall i, i ∈ indices -> N.to_nat i < n_rows d) ->
  exists labs,
    Forall2 (fun i y => labels d !! N.to_nat i = Some y) indices labs /\
    foldM (CrossValidation.gather_row d) indices st
    = Ok (fst st ++ concat (map (fun i => row_of d (N.to_nat i)) indices),
          snd st ++ labs).
Proof.
  intros Hwf. revert st.
  induction indices as [|i l IH]; intros st Hin; simpl.
  - exists []. split; [constructor|]. rewrite !app_nil_r.
    destruct st; reflexivity.
  - destruct (gather_row_Ok d st i Hwf) as (y & Hy & E).
    { apply Hin. left. }
    rewrite E. simpl.
    destruct (IH (fst st ++ row_of d (N.to_nat i), snd st ++ [y]))
      as (labs & Hlabs & E').
    { intros j Hj. apply Hin. right. assumption. }
    rewrite E'. simpl. exists (y :: labs).
    split; [constructor; assumption|].
    rewrite <- !app_assoc. reflexivity.
Qed.

Lemma row_of_length (d : DataMatrix) (i : nat) :
  well_formed d -> i < n_rows d -> length (row_of d i) = n_cols d.
Proof.
  intros [Hf _] Hi. unfold row_of.
  rewrite length_take, length_drop. nia.
Qed.

Lemma gathered_rows_length (d : DataMatrix) (indices : list N) :
  well_formed d ->
  (forall i, i ∈ indices -> N.to_nat i < n_rows d) ->
  length (concat (map (fun i => row_of d (N.to_nat i)) indices))
  = length indices * n_cols d.
Proof.
  intros Hwf. induction indices as [|i l IH]; intros Hin; simpl.
  - reflexivity.
  - rewrite length_app, row_of_length, IH; auto.
    + intros j Hj. apply Hin. right. assumption.
    + apply Hin. left.
Qed.

Lemma gathered_rows_lookup (d : DataMatrix) (indices : list N)
      (j col : nat) (i : N) :
  well_formed d ->
  (forall i, i ∈ indices -> N.to_nat i < n_rows d) ->
  indices !! j = Some i -> col < n_cols d ->
  concat (map (fun i => row_of d (N.to_nat i)) indices)
    !! (j * n_cols d + col)
  = features d !! (N.to_nat i * n_cols d + col).
Proof.
  intros Hwf. revert j.
  induction indices as [|i0 l IH]; intros j Hin Hj Hcol.
  - discriminate.
  - assert (H0 : N.to_nat i0 < n_rows d) by (apply Hin; left).
    assert (Hl : forall i, i ∈ l -> N.to_nat i < n_rows d)
      by (intros k Hk; apply Hin; right; assumption).
    simpl. destruct j as [|j]; simpl in Hj.
    + injection Hj as ->. simpl.
      rewrite lookup_app_l by (rewrite row_of_length; auto).
      unfold row_of. rewrite lookup_take_lt by assumption.
      rewrite lookup_drop. reflexivity.
    + rewrite lookup_app_r by (rewrite row_of_length; auto; simpl; lia).
      rewrite row_of_length by auto.
      replace (S j * n_cols d + col - n_cols d) with (j * n_cols d + col)
        by (simpl; lia).
      apply IH; auto.
Qed.

Lemma subset_Ok (d : DataMatrix) (indices : list N) :
  well_formed d ->
  (forall i, i ∈ indices -> N.to_nat i < n_rows d) ->
  exists labs,
    Forall2 (fun i y => labels d !! N.to_nat i = Some y) indices labs /\
    CrossValidation.subset d indices
    = Ok (mkDataMatrix (length indices) (n_cols d)
            (concat (map (fun i => row_of d (N.to_nat i)) indices))
            [] labs []).
Proof.
  intros Hwf Hin. unfold CrossValidation.subset.
  destruct (gather_rows_Ok d indices ([], []) Hwf Hin) as (labs & Hlabs & E).
  exists labs. split; [assumption|].
  rewrite E. simpl. unfold CrossValidation.new_matrix.
  rewrite gathered_rows_length by assumption.
  rewrite Nat.eqb_refl. simpl.
  rewrite <- (Forall2_length _ _ _ Hlabs), Nat.eqb_refl. simpl.
  rewrite andb_false_r. reflexivity.
Qed.

(** The training and test matrices that [GBDT::cv] gathers hold
    exactly the selected rows: for a matrix with one label per row and
    indices below its row count, the copy succeeds, has one row per
    index and the same columns, and row [j] of the copy carries the
    features and the label of row [indices[j]] of the original. *)
Theorem cv_subset_copies_rows (d : DataMatrix) (indices : list N) :
  well_formed d ->
  (forall i, i ∈ indices -> N.to_nat i < n_rows d) ->
  exists d',
    CrossValidation.subset d indices = Ok d' /\
    n_rows d' = length indices /\ n_cols d' = n_cols d /\
    well_formed d' /\
    forall j i, indices !! j = Some i ->
      labels d' !! j = labels d !! N.to_nat i /\
      forall col, col < n_cols d ->
        features d' !! (j * n_cols d + col)
        = features d !! (N.to_nat i * n_cols d + col).
Proof.
  intros Hwf Hin.
  destruct (subset_Ok d indices Hwf Hin) as (labs & Hlabs & E).
  eexists. split; [exact E|]. simpl.
  split; [reflexivity|]. split; [reflexivity|]. split.
  { split; simpl.
    - apply gathered_rows_length; assumption.
    - symmetry. apply (Forall2_length _ _ _ Hlabs). }
  intros j i Hj. split.
  - destruct (Forall2_lookup_l _ _ _ _ _ Hlabs Hj) as (y & Hy & Hy').
    rewrite Hy, Hy'. reflexivity.
  - intros col Hcol. apply gathered_rows_lookup; assumption.
Qed.

Lemma cv_subset_copies_rows_witness :
  well_formed Ex.four_rows /\
  (forall i, i ∈ [3; 1]%N -> N.to_nat i < n_rows Ex.four_rows) /\
  exists d',
    CrossValidation.subset Ex.four_rows [3; 1]%N = Ok d' /\
    n_rows d' = 2 /\ n_cols d' = 1 /\
    well_formed d' /\
    forall j i, [3; 1]%N !! j = Some i ->
      labels d' !! j = labels Ex.four_rows !! N.to_nat i /\
      forall col, col < 1 ->
        features d' !! (j * 1 + col)
        = features Ex.four_rows !! (N.to_nat i * 1 + col).
Proof.
  assert (Hwf : well_formed Ex.four_rows) by (split; reflexivity).
  assert (Hin : forall i, i ∈ [3; 1]%N -> N.to_nat i < n_rows Ex.four_rows).
  { intros i Hi. apply elem_of_cons in Hi as [->|Hi]; [simpl; lia|].
    apply elem_of_cons in Hi as [->|Hi]; [simpl; lia|].
    inversion Hi. }
  split; [exact Hwf|]. split; [exact Hin|].
  exact (cv_subset_copies_rows Ex.four_rows [3; 1]%N Hwf Hin).
Defined.

Lemma foldM_preserves {A B} (P : B -> Prop) (f : B -> A -> result B)
      (l : list A) (b b' : B) :
  (forall b a b', f b a = Ok b' -> P b -> P b') ->
  P b -> foldM f l b = Ok b' -> P b'.
Proof.
  intros Hf. revert b. induction l as [|a l IH]; intros b Hb H; simpl in H.
  - injection H as <-. assumption.
  - inv_bind H. eauto.
Qed.

Lemma single_fold (indices : list N) :
  exists f, CrossValidation.fold_indices 1 indices = Ok [f] /\ f ≡ₚ indices.
Proof.
  destruct (fold_indices_deals 1 indices) as (folds & E & Hlen & Hperm & _);
    [discriminate|].
  destruct folds as [|f [|g folds]]; try discriminate.
  exists f. split; [assumption|].
  simpl in Hperm. rewrite app_nil_r in Hperm. assumption.
Qed.

Lemma shuffled_rows_in_range (shuffle : N -> list N -> list N)
      (s : N) (n : nat) (i : N) :
  (forall s l, shuffle s l ≡ₚ l) ->
  i ∈ shuffle s (map (fun i => wrap32 (N.of_nat i)) (seq 0 n)) ->
  N.to_nat i < n.
Proof.
  intros Hsh Hi. rewrite Hsh in Hi.
  apply list_elem_of_fmap in Hi as (j & -> & Hj).
  apply elem_of_seq in Hj. unfold wrap32.
  pose proof (N.Div0.mod_le (N.of_nat j) (2 ^ 32)). lia.
Qed.

Section CrossValidationFacts.
Variables std_exp std_log : float -> float.
Variable fbs : simd.finder.
Variable uniform_stream : nat -> float.
Variable evaluate : GBDTConfig -> DataMatrix -> list float -> result float.
Variable get_metric : string -> result (list float -> list float -> float).
Variable shuffle : N -> list N -> list N.

#[local] Abbreviation fold_step :=
  (CrossValidation.fold_step std_exp std_log fbs uniform_stream evaluate).

Lemma eval_round_length (fm : GBDT.t) (td : DataMatrix)
      (mf : list float -> list float -> float) (k : N)
      (mean mean' : list float) (round : nat) :
  CrossValidation.eval_round std_exp fm td mf k mean round = Ok mean' ->
  length mean' = length mean.
Proof.
  unfold CrossValidation.eval_round. intros H.
  do 2 inv_bind H. injection H as <-. apply length_insert.
Qed.

Lemma fold_step_length (c : GBDTConfig) (d : DataMatrix)
      (mf : list float -> list float -> float) (k : N)
      (folds : list (list N)) (mean mean' : list float) (fold : nat) :
  fold_step c d mf k folds mean fold = Ok mean' ->
  length mean' = length mean.
Proof.
  unfold CrossValidation.fold_step. intros H. do 5 inv_bind H.
  revert H. apply (foldM_preserves (fun l => length l = length mean)).
  - intros l0 x0 l1 Hstep <-.
    exact (eval_round_length _ _ _ _ _ _ _ Hstep).
  - reflexivity.
Qed.

Lemma single_fold_step (c : GBDTConfig) (d : DataMatrix)
      (mf : list float -> list float -> float) (f : list N)
      (mean : list float) :
  fold_step c d mf 1 [f] mean 0
  = (test_data ← CrossValidation.subset d f;
     _ ← GBDT.new c;
     Throw "Empty dataset").
Proof.
  unfold CrossValidation.fold_step. simpl.
  destruct (CrossValidation.subset d f); reflexivity.
Qed.
End CrossValidationFacts.

(** Cross-validation with a single fold cannot work: the one fold is
    the test set, the training set is empty, and the call ends with the
    exception "Empty dataset" of [GBDT::train]. *)
Theorem cv_single_fold_throws_empty_dataset
        (std_exp std_log : float -> float) (fbs : simd.finder)
        (uniform_stream : nat -> float)
        (evaluate : GBDTConfig -> DataMatrix -> list float -> result float)
        (get_metric : string -> result (list float -> list float -> float))
        (shuffle : N -> list N -> list N)
        (m : GBDT.t) (d : DataMatrix)
        (mf : list float -> list float -> float) :
  validate (GBDT.config m) = true ->
  well_formed d -> 0 < n_rows d ->
  get_metric (metric (GBDT.config m)) = Ok mf ->
  (forall s l, shuffle s l ≡ₚ l) ->
  CrossValidation.cv std_exp std_log fbs uniform_stream evaluate
                     get_metric shuffle m d 1
  = Throw "Empty dataset".
Proof.
  intros Hv Hwf Hn Hm Hsh. unfold CrossValidation.cv.
  destruct (N.ltb_spec (N.of_nat (n_rows d)) 1) as [|_]; [lia|].
  destruct Hwf as [Hf Hl].
  destruct (Nat.eqb_spec (length (labels d)) 0) as [|_]; [lia|].
  rewrite Hm. simpl.
  destruct (single_fold
              (shuffle (seed (GBDT.config m))
                 (map (fun i => wrap32 (N.of_nat i)) (seq 0 (n_rows d)))))
    as (f & E & Hperm).
  rewrite E. simpl.
  change (Pos.to_nat 1) with 1. simpl.
  rewrite single_fold_step.
  destruct (subset_Ok d f (conj Hf Hl)) as (labs & _ & E').
  { intros i Hi. rewrite Hperm in Hi.
    apply (shuffled_rows_in_range shuffle _ _ _ Hsh Hi). }
  rewrite E'. simpl. unfold GBDT.new. rewrite Hv. reflexivity.
Qed.

(** On a matrix with one label per row, and a shuffle that keeps the
    number of indices, [GBDT::cv] returns a value only for a number of
    folds between 2 and the number of rows, and the value then has one
    mean metric per boosting round. *)
Theorem cv_returns_one_mean_per_round
        (std_exp std_log : float -> float) (fbs : simd.finder)
        (uniform_stream : nat -> float)
        (evaluate : GBDTConfig -> DataMatrix -> list float -> result float)
        (get_metric : string -> result (list float -> list float -> float))
        (shuffle : N -> list N -> list N)
        (m : GBDT.t) (d : DataMatrix) (n_folds : N) (r : list float) :
  well_formed d ->
  (forall s l, length (shuffle s l) = length l) ->
  CrossValidation.cv std_exp std_log fbs uniform_stream evaluate
                     get_metric shuffle m d n_folds = Ok r ->
  (2 <= n_folds <= N.of_nat (n_rows d))%N /\
  length r = N.to_nat (n_rounds (GBDT.config m)).
Proof.
  intros [Hf Hl] Hsh H. unfold CrossValidation.cv in H.
  destruct (N.ltb_spec (N.of_nat (n_rows d)) n_folds) as [|Hle];
    [discriminate|].
  destruct (Nat.eqb_spec (length (labels d)) 0) as [|Hlab];
    [discriminate|].
  do 2 inv_bind H.
  split.
  - split; [|assumption].
    destruct (N.eq_dec n_folds 0%N) as [->|Hn0].
    { exfalso. unfold CrossValidation.fold_indices in Ha0.
      specialize (Hsh (seed (GBDT.config m))
                    (map (fun i => wrap32 (N.of_nat i))
                         (seq 0 (n_rows d)))).
      rewrite length_map, length_seq in Hsh.
      destruct (shuffle _ _) as [|x l]; [simpl in Hsh; lia|].
      discriminate Ha0. }
    destruct (N.eq_dec n_folds 1%N) as [->|Hn1]; [|lia].
    exfalso.
    destruct (single_fold
                (shuffle (seed (GBDT.config m))
                   (map (fun i => wrap32 (N.of_nat i))
                        (seq 0 (n_rows d)))))
      as (f & E & _).
    rewrite E in Ha0. injection Ha0 as <-.
    change (N.to_nat 1) with 1 in H. simpl in H.
    rewrite single_fold_step in H.
    destruct (CrossValidation.subset d f); simpl in H; try discriminate.
    destruct (GBDT.new (GBDT.config m)); discriminate.
  - rewrite <- (length_replicate (N.to_nat (n_rounds (GBDT.config m)))
                                 F32.zero).
    revert H.
    apply (foldM_preserves
             (fun l => length l
                       = length (replicate
                                   (N.to_nat (n_rounds (GBDT.config m)))
                                   F32.zero))).
    + intros l0 x0 l1 Hstep <-.
      exact (fold_step_length _ _ _ _ _ _ _ _ _ _ _ _ _ Hstep).
    + reflexivity.
Qed.


Lemma cv_single_fold_throws_empty_dataset_witness :
  validate Ex.two_round_cfg = true /\
  well_formed Ex.four_rows /\ 0 < n_rows Ex.four_rows /\
  Ex.zero_metric (metric Ex.two_round_cfg) = Ok (fun _ _ => F32.zero) /\
  (forall s l, Ex.no_shuffle s l ≡ₚ l) /\
  Ex.cv_fallback (GBDT.mk Ex.two_round_cfg [] F32.zero) Ex.four_rows 1
  = Throw "Empty dataset".
Proof.
  assert (Hv : validate Ex.two_round_cfg = true) by (vm_compute; reflexivity).
  assert (Hwf : well_formed Ex.four_rows) by (split; reflexivity).
  assert (Hn : 0 < n_rows Ex.four_rows) by (simpl; lia).
  assert (Hsh : forall s l, Ex.no_shuffle s l ≡ₚ l) by reflexivity.
  split; [exact Hv|]. split; [exact Hwf|]. split; [exact Hn|].
  split; [reflexivity|]. split; [exact Hsh|].
  exact (cv_single_fold_throws_empty_dataset
           Ex.libm_unused Ex.libm_unused simd.find_best_split_fallback
           Ex.no_draws Ex.metric_printed Ex.zero_metric Ex.no_shuffle
           (GBDT.mk Ex.two_round_cfg [] F32.zero) Ex.four_rows
           (fun _ _ => F32.zero) Hv Hwf Hn eq_refl Hsh).
Defined.

Lemma cv_returns_one_mean_per_round_witness :
  well_formed Ex.four_rows /\
  (forall s l, length (Ex.no_shuffle s l) = length l) /\
  Ex.cv_fallback (GBDT.mk Ex.two_round_cfg [] F32.zero) Ex.four_rows 2
  = Ok [F32.zero; F32.zero] /\
  (2 <= 2 <= N.of_nat (n_rows Ex.four_rows))%N /\
  length [F32.zero; F32.zero] = N.to_nat (n_rounds Ex.two_round_cfg).
Proof.
  assert (Hwf : well_formed Ex.four_rows) by (split; reflexivity).
  assert (Hsh : forall s l, length (Ex.no_shuffle s l) = length l)
    by reflexivity.
  assert (E : Ex.cv_fallback (GBDT.mk Ex.two_round_cfg [] F32.zero)
                             Ex.four_rows 2
              = Ok [F32.zero; F32.zero]) by (vm_compute; reflexivity).
  split; [exact Hwf|]. split; [exact Hsh|]. split; [exact E|].
  exact (cv_returns_one_mean_per_round
           Ex.libm_unused Ex.libm_unused simd.find_best_split_fallback
           Ex.no_draws Ex.metric_printed Ex.zero_metric Ex.no_shuffle
           (GBDT.mk Ex.two_round_cfg [] F32.zero) Ex.four_rows 2
           [F32.zero; F32.zero] Hwf Hsh E).
Defined.
(* ===================================================================== *)
(** ** The histograms over all columns *)
(* ===================================================================== *)

Lemma foldM_ext_in {A B} (f g : B -> A -> result B) (l : list A) (b : B) :
  (forall a, a ∈ l -> forall b, f b a = g b a) ->
  foldM f l b = foldM g l b.
Proof.
  revert b. induction l as [|a l IH]; intros b H; simpl.
  - reflexivity.
  - rewrite (H a) by left. destruct (g b a); simpl; auto.
    apply IH. intros a' Ha'. apply H. right. assumption.
Qed.

Lemma foldM_map {A A' B} (f : B -> A' -> result B) (p : A -> A')
      (l : list A) (b : B) :
  foldM f (map p l) b = foldM (fun b a => f b (p a)) l b.
Proof.
  revert b. induction l as [|a l IH]; intros b; simpl.
  - reflexivity.
  - destruct (f b (p a)); simpl; auto.
Qed.

Lemma foldM_flat_map {A A' B} (f : B -> A' -> result B)
      (p : A -> list A') (l : list A) (b : B) :
  foldM f (flat_map p l) b = foldM (fun b a => foldM f (p a) b) l b.
Proof.
  revert b. induction l as [|a l IH]; intros b; simpl.
  - reflexivity.
  - rewrite foldM_app. destruct (foldM f (p a) b); simpl; auto.
Qed.

Lemma mapR_Ok_map {A B} (f : A -> result B) (p : A -> B) (l : list A) :
  (forall a, a ∈ l -> f a = Ok (p a)) -> mapR f l = Ok (map p l).
Proof.
  induction l as [|a l IH]; intros H; simpl.
  - reflexivity.
  - rewrite (H a) by left. simpl. rewrite IH; [reflexivity|].
    intros a' Ha'. apply H. right. assumption.
Qed.

Lemma filter_flat_map {A B} (P : B -> Prop) `{!forall b, Decision (P b)}
      (p : A -> list B) (l : list A) :
  filter P (flat_map p l) = flat_map (fun a => filter P (p a)) l.
Proof.
  induction l as [|a l IH]; simpl.
  - reflexivity.
  - rewrite filter_app, IH. reflexivity.
Qed.

Lemma filter_implied {A} (P Q : A -> Prop) `{!forall a, Decision (P a)}
      `{!forall a, Decision (Q a)} (l : list A) :
  (forall a, a ∈ l -> P a -> Q a) ->
  filter P l = filter P (filter Q l).
Proof.
  induction l as [|a l IH]; intros Himp.
  - reflexivity.
  - assert (Hl : forall a, a ∈ l -> P a -> Q a)
      by (intros a' Ha'; apply Himp; right; assumption).
    destruct (decide (Q a)) as [Hq|Hq].
    + rewrite (filter_cons_True Q) by assumption.
      destruct (decide (P a)) as [Hp|Hp].
      * rewrite !(filter_cons_True P) by assumption. f_equal. auto.
      * rewrite !(filter_cons_False P) by assumption. auto.
    + rewrite (filter_cons_False Q) by assumption.
      rewrite (filter_cons_False P); [auto|].
      intros Hp. apply Hq. apply (Himp a); [left|assumption].
Qed.

Lemma chunks_concat {A} (l : list A) (n : nat) :
  8 * n <= length l ->
  flat_map (fun k => take 8 (drop (8 * k) l)) (seq 0 n) = take (8 * n) l.
Proof.
  induction n as [|n IH]; intros Hn.
  - reflexivity.
  - rewrite seq_S, flat_map_app, IH by lia. simpl flat_map.
    rewrite app_nil_r.
    replace (8 * S n) with (8 * n + 8) by lia.
    rewrite <- take_take_drop. reflexivity.
Qed.

Section SettleFacts.
Context {X E : Type} (target : E -> nat) (g : X -> E -> X).

Lemma settle_nil (h : list X) : settle target g [] h = h.
Proof.
  apply list_eq. intros k. unfold settle. rewrite list_lookup_imap.
  destruct (h !! k); reflexivity.
Qed.

Lemma settle_length (es : list E) (h : list X) :
  length (settle target g es h) = length h.
Proof. apply length_imap. Qed.

Lemma settle_lookup (es : list E) (h : list X) (k : nat) (x : X) :
  h !! k = Some x ->
  settle target g es h !! k
  = Some (fold_left g (filter (fun e => target e = k) es) x).
Proof.
  intros Hk. unfold settle. rewrite list_lookup_imap, Hk. reflexivity.
Qed.

Lemma settle_cons (e : E) (es : list E) (h : list X) (old : X) :
  h !! target e = Some old ->
  settle target g es (<[target e := g old e]> h)
  = settle target g (e :: es) h.
Proof.
  intros Hold. apply list_eq. intros k. unfold settle.
  rewrite !list_lookup_imap.
  destruct (decide (k = target e)) as [->|Hne].
  - rewrite list_lookup_insert_eq by (eapply lookup_lt_Some; eassumption).
    rewrite Hold. simpl.
    rewrite filter_cons_True by reflexivity. reflexivity.
  - rewrite list_lookup_insert_ne by congruence.
    destruct (h !! k); simpl; [|reflexivity].
    rewrite filter_cons_False by congruence. reflexivity.
Qed.

Lemma settle_ext (es es' : list E) (h : list X) :
  (forall k, k < length h ->
             filter (fun e => target e = k) es
             = filter (fun e => target e = k) es') ->
  settle target g es h = settle target g es' h.
Proof.
  intros H. unfold settle. apply imap_ext. intros k x Hk. simpl.
  rewrite H by (eapply lookup_lt_Some; eassumption). reflexivity.
Qed.

Lemma run_events (es : list E) (h : list X) :
  (forall e, e ∈ es -> target e < length h) ->
  foldM (fun h e => old ← at_index h (target e);
                    Ok (<[target e := g old e]> h)) es h
  = Ok (settle target g es h).
Proof.
  revert h. induction es as [|e es IH]; intros h H; simpl.
  - rewrite settle_nil. reflexivity.
  - destruct (lookup_lt_is_Some_2 h (target e)) as (old & Hold).
    { apply H. left. }
    apply at_index_Ok in Hold as Eold. rewrite Eold. simpl.
    rewrite IH.
    + rewrite (settle_cons _ _ _ _ Hold). reflexivity.
    + intros e' He'. rewrite length_insert. apply H. right. assumption.
Qed.
End SettleFacts.

Lemma map_flat_map {A B C} (f : B -> C) (p : A -> list B) (l : list A) :
  flat_map (fun a => map f (p a)) l = map f (flat_map p l).
Proof.
  induction l as [|a l IH]; simpl.
  - reflexivity.
  - rewrite map_app, IH. reflexivity.
Qed.

Section EventOrder.
Context {E : Type} (ev : N -> nat -> E) (colE : E -> nat) (binE : E -> N).
Variables (data : list N) (n_cols : nat) (n_bins : N).
Hypothesis colE_ev : forall row col, colE (ev row col) = col.
Hypothesis binE_ev :
  forall row col, binE (ev row col) = hist_code data n_cols row col.

#[local] Abbreviation target :=
  (fun e : E => colE e * N.to_nat n_bins + N.to_nat (binE e)).

Lemma elem_of_row_major (rows : list N) (e : E) :
  e ∈ row_major ev n_cols rows ->
  exists row col, e = ev row col /\ row ∈ rows /\ col < n_cols.
Proof.
  unfold row_major. rewrite list_elem_of_In, in_flat_map.
  intros (row & Hrow & He). apply in_map_iff in He as (col & <- & Hcol).
  apply in_seq in Hcol. exists row, col.
  rewrite list_elem_of_In. split; [reflexivity|]. split; [assumption|lia].
Qed.

Lemma elem_of_col_major (rows : list N) (e : E) :
  e ∈ col_major ev n_cols rows ->
  exists row col, e = ev row col /\ row ∈ rows /\ col < n_cols.
Proof.
  unfold col_major. rewrite list_elem_of_In, in_flat_map.
  intros (col & Hcol & He). apply in_map_iff in He as (row & <- & Hrow).
  apply in_seq in Hcol. exists row, col.
  rewrite list_elem_of_In. split; [reflexivity|]. split; [assumption|lia].
Qed.

Lemma elem_of_chunked (rows : list N) (e : E) :
  e ∈ chunked ev n_cols rows ->
  exists row col, e = ev row col /\ row ∈ rows /\ col < n_cols.
Proof.
  unfold chunked. rewrite elem_of_app. intros [He|He].
  - apply list_elem_of_In, in_flat_map in He as (k & _ & He).
    apply list_elem_of_In, elem_of_col_major in He
      as (row & col & -> & Hrow & Hcol).
    exists row, col. split; [reflexivity|]. split; [|assumption].
    apply (subseteq_drop (8 * k) rows), (subseteq_take 8). assumption.
  - apply elem_of_row_major in He as (row & col & -> & Hrow & Hcol).
    exists row, col. split; [reflexivity|]. split; [|assumption].
    apply (subseteq_drop (8 * (length rows / 8)) rows). assumption.
Qed.

Lemma filter_col_row (row : N) (c s n : nat) :
  filter (fun e => colE e = c) (map (ev row) (seq s n))
  = if decide (s <= c < s + n) then [ev row c] else [].
Proof using colE_ev.
  revert s. induction n as [|n IH]; intros s; simpl.
  - destruct (decide (s <= c < s + 0)); [lia|reflexivity].
  - destruct (decide (s = c)) as [->|Hne].
    + rewrite filter_cons_True by apply colE_ev. rewrite IH.
      destruct (decide (S c <= c < S c + n)); [lia|].
      destruct (decide (c <= c < c + S n)); [reflexivity|lia].
    + rewrite filter_cons_False by (rewrite colE_ev; assumption).
      rewrite IH.
      destruct (decide (S s <= c < S s + n)),
        (decide (s <= c < s + S n)); try reflexivity; lia.
Qed.

Lemma filter_col_row_major (rows : list N) (c : nat) :
  c < n_cols ->
  filter (fun e => colE e = c) (row_major ev n_cols rows)
  = map (fun row => ev row c) rows.
Proof using colE_ev.
  intros Hc. unfold row_major. rewrite filter_flat_map.
  induction rows as [|row rows IH]; simpl.
  - reflexivity.
  - rewrite filter_col_row, IH.
    destruct (decide (0 <= c < 0 + n_cols)); [reflexivity|lia].
Qed.

Lemma filter_col_column (rows : list N) (c col : nat) :
  filter (fun e => colE e = c) (map (fun row => ev row col) rows)
  = if decide (col = c) then map (fun row => ev row c) rows else [].
Proof using colE_ev.
  induction rows as [|row rows IH]; simpl.
  - destruct (decide (col = c)); reflexivity.
  - destruct (decide (col = c)) as [->|Hne].
    + rewrite filter_cons_True by apply colE_ev. rewrite IH.
      destruct (decide (c = c)); [reflexivity|congruence].
    + rewrite filter_cons_False by (rewrite colE_ev; assumption).
      rewrite IH. destruct (decide (col = c)); [congruence|reflexivity].
Qed.

Lemma filter_col_columns (rows : list N) (c s n : nat) :
  flat_map (fun col => filter (fun e => colE e = c)
                              (map (fun row => ev row col) rows))
           (seq s n)
  = if decide (s <= c < s + n) then map (fun row => ev row c) rows
    else [].
Proof using colE_ev.
  revert s. induction n as [|n IH]; intros s; simpl.
  - destruct (decide (s <= c < s + 0)); [lia|reflexivity].
  - rewrite filter_col_column, IH.
    destruct (decide (s = c)) as [->|Hne].
    + destruct (decide (S c <= c < S c + n)); [lia|].
      destruct (decide (c <= c < c + S n)); [|lia].
      apply app_nil_r.
    + destruct (decide (S s <= c < S s + n)),
        (decide (s <= c < s + S n)); try reflexivity; lia.
Qed.

Lemma filter_col_col_major (rows : list N) (c : nat) :
  c < n_cols ->
  filter (fun e => colE e = c) (col_major ev n_cols rows)
  = map (fun row => ev row c) rows.
Proof using colE_ev.
  intros Hc. unfold col_major.
  rewrite filter_flat_map, filter_col_columns.
  destruct (decide (0 <= c < 0 + n_cols)); [reflexivity|lia].
Qed.

Lemma filter_col_chunked (rows : list N) (c : nat) :
  c < n_cols ->
  filter (fun e => colE e = c) (chunked ev n_cols rows)
  = map (fun row => ev row c) rows.
Proof using colE_ev.
  intros Hc. unfold chunked.
  rewrite filter_app, filter_flat_map, filter_col_row_major by assumption.
  rewrite (flat_map_ext _ (fun k => map (fun row => ev row c)
                                        (take 8 (drop (8 * k) rows))))
    by (intros k; apply filter_col_col_major; assumption).
  rewrite map_flat_map, chunks_concat
    by (pose proof (Nat.Div0.mul_div_le (length rows) 8); lia).
  rewrite <- map_app, take_drop. reflexivity.
Qed.

(** Events with codes below [n_bins]: the cell determines the
    column. *)
Lemma target_col (e : E) (k : nat) :
  (binE e < n_bins)%N -> target e = k -> colE e = k / N.to_nat n_bins.
Proof.
  intros Hb <-.
  apply (Nat.div_unique _ (N.to_nat n_bins) (colE e) (N.to_nat (binE e)));
    lia.
Qed.

Lemma same_cells (es es' : list E) (k : nat) :
  (forall e, e ∈ es -> (binE e < n_bins)%N) ->
  (forall e, e ∈ es' -> (binE e < n_bins)%N) ->
  filter (fun e => colE e = k / N.to_nat n_bins) es
  = filter (fun e => colE e = k / N.to_nat n_bins) es' ->
  filter (fun e => target e = k) es = filter (fun e => target e = k) es'.
Proof.
  intros Hes Hes' Hcol.
  rewrite (filter_implied (fun e => target e = k)
             (fun e => colE e = k / N.to_nat n_bins) es)
    by (intros e He; apply target_col; auto).
  rewrite (filter_implied (fun e => target e = k)
             (fun e => colE e = k / N.to_nat n_bins) es')
    by (intros e He; apply target_col; auto).
  rewrite Hcol. reflexivity.
Qed.

Section Cells.
Variables (rows : list N) (n_rows : nat).
Hypothesis Hready : codes_ready data rows n_rows n_cols n_bins.

Lemma hist_code_ok (row : N) (col : nat) :
  row ∈ rows -> col < n_cols ->
  data !! (N.to_nat row * n_cols + col)
  = Some (hist_code data n_cols row col) /\
  (hist_code data n_cols row col < n_bins)%N.
Proof using Hready.
  destruct Hready as (Hlen & Hrows & Hcodes). intros Hrow Hcol.
  specialize (Hrows _ Hrow).
  destruct (lookup_lt_is_Some_2 data (N.to_nat row * n_cols + col))
    as (c & Hc); [nia|].
  unfold hist_code. rewrite Hc. simpl. split; [reflexivity|].
  apply Hcodes. eapply list_elem_of_lookup_2. eassumption.
Qed.

Lemma code_at_ok (row : N) (col : nat) :
  row ∈ rows -> col < n_cols ->
  simd.code_at data n_cols row col = Ok (hist_code data n_cols row col).
Proof using Hready.
  intros Hrow Hcol. unfold simd.code_at. apply at_index_Ok.
  apply hist_code_ok; assumption.
Qed.

Lemma event_in_range (es : list E) (e : E) :
  (forall e, e ∈ es ->
             exists row col, e = ev row col /\ row ∈ rows /\ col < n_cols) ->
  e ∈ es ->
  (binE e < n_bins)%N /\ target e < n_cols * N.to_nat n_bins.
Proof using Hready colE_ev binE_ev.
  intros Hes He. destruct (Hes e He) as (row & col & -> & Hrow & Hcol).
  rewrite colE_ev, binE_ev.
  destruct (hist_code_ok row col Hrow Hcol) as [_ Hb].
  split; [assumption|]. nia.
Qed.

Lemma filter_cell_column (R : list N) (c : nat) (b : N) :
  R ⊆ rows -> c < n_cols ->
  filter (fun e => target e = c * N.to_nat n_bins + N.to_nat b)
         (map (fun row => ev row c) R)
  = map (fun row => ev row c) (rows_in_bin data n_cols R c b).
Proof using Hready colE_ev binE_ev.
  intros HR Hc. unfold rows_in_bin.
  induction R as [|row R IH]; [reflexivity|].
  assert (Hrow : row ∈ rows) by (apply HR; left).
  assert (HR' : R ⊆ rows) by (intros x Hx; apply HR; right; assumption).
  destruct (hist_code_ok row c Hrow Hc) as [Hcode _].
  simpl map at 1.
  destruct (decide (hist_code data n_cols row c = b)) as [Hb|Hb].
  - rewrite filter_cons_True by (rewrite colE_ev, binE_ev, Hb; reflexivity).
    rewrite (filter_cons_True _ row) by (rewrite Hcode, Hb; reflexivity).
    simpl. f_equal. apply IH. assumption.
  - rewrite filter_cons_False
      by (rewrite colE_ev, binE_ev; intros Heq; apply Hb; lia).
    rewrite (filter_cons_False _ row)
      by (rewrite Hcode; intros Heq; apply Hb; congruence).
    apply IH. assumption.
Qed.

Lemma filter_cell_row_major (c : nat) (b : N) :
  c < n_cols -> (b < n_bins)%N ->
  filter (fun e => target e = c * N.to_nat n_bins + N.to_nat b)
         (row_major ev n_cols rows)
  = map (fun row => ev row c) (rows_in_bin data n_cols rows c b).
Proof using Hready colE_ev binE_ev.
  intros Hc Hb.
  assert (Hdiv : (c * N.to_nat n_bins + N.to_nat b) / N.to_nat n_bins = c).
  { symmetry.
    apply (Nat.div_unique _ (N.to_nat n_bins) c (N.to_nat b)); lia. }
  rewrite (filter_implied
             (fun e => target e = c * N.to_nat n_bins + N.to_nat b)
             (fun e => colE e = c)).
  - rewrite filter_col_row_major by assumption.
    apply filter_cell_column; [reflexivity|assumption].
  - intros e He Ht. rewrite <- Hdiv. apply target_col; [|assumption].
    apply (event_in_range (row_major ev n_cols rows));
      [apply elem_of_row_major|assumption].
Qed.

Lemma chunked_same_cells (k : nat) :
  k < n_cols * N.to_nat n_bins ->
  filter (fun e => target e = k) (chunked ev n_cols rows)
  = filter (fun e => target e = k) (row_major ev n_cols rows).
Proof using Hready colE_ev binE_ev.
  intros Hk.
  assert (Hc : k / N.to_nat n_bins < n_cols)
    by (apply Nat.Div0.div_lt_upper_bound; lia).
  apply same_cells.
  - intros e He.
    apply (event_in_range (chunked ev n_cols rows));
      [apply elem_of_chunked|assumption].
  - intros e He.
    apply (event_in_range (row_major ev n_cols rows));
      [apply elem_of_row_major|assumption].
  - rewrite filter_col_chunked, filter_col_row_major by assumption.
    reflexivity.
Qed.
End Cells.
End EventOrder.

Lemma codes_ready_check (data rows : list N) (n_rows n_cols : nat)
      (n_bins : N) :
  (length data =? n_rows * n_cols)%nat
  && forallb (fun row => (N.to_nat row <? n_rows)%nat) rows
  && forallb (fun c => (c <? n_bins)%N) data = true ->
  codes_ready data rows n_rows n_cols n_bins.
Proof.
  intros H. apply andb_prop in H as [H H3]. apply andb_prop in H as [H1 H2].
  rewrite forallb_forall in H2, H3.
  split; [apply Nat.eqb_eq; assumption|]. split.
  - intros row Hrow. apply Nat.ltb_lt, H2, list_elem_of_In. assumption.
  - intros c Hc. apply N.ltb_lt, H3, list_elem_of_In. assumption.
Qed.

Lemma tick_fold {A} (l : list A) (x : N) :
  fold_left (fun (x : N) (_ : A) => wrap32 (x + 1)) l (wrap32 x)
  = wrap32 (x + N.of_nat (length l)).
Proof.
  revert x. induction l as [|a l IH]; intros x.
  - simpl. rewrite N.add_0_r. reflexivity.
  - cbn [fold_left length].
    replace (wrap32 (wrap32 x + 1)) with (wrap32 (x + 1))
      by (unfold wrap32; rewrite N.Div0.add_mod_idemp_l; reflexivity).
    rewrite IH. f_equal. lia.
Qed.

Section CountHistogram.
Variables (data rows : list N) (n_rows n_cols : nat) (n_bins : N).
Hypothesis Hready : codes_ready data rows n_rows n_cols n_bins.

#[local] Abbreviation count_target :=
  (fun e : nat * N => fst e * N.to_nat n_bins + N.to_nat (snd e)).
#[local] Abbreviation count_apply :=
  (fun (h : list N) (e : nat * N) => simd.count_at n_bins h (fst e) (snd e)).
#[local] Abbreviation tick := (fun (x : N) (_ : nat * N) => wrap32 (x + 1)).
#[local] Abbreviation cev := (count_event data n_cols).
#[local] Abbreviation counters :=
  (replicate (n_cols * N.to_nat n_bins) 0%N).

Lemma count_row_events (h : list N) (row : N) :
  row ∈ rows ->
  simd.count_row data n_cols n_bins h row
  = foldM count_apply (map (cev row) (seq 0 n_cols)) h.
Proof using Hready.
  intros Hrow. unfold simd.count_row. rewrite foldM_map.
  apply foldM_ext_in. intros col Hcol b. apply elem_of_seq in Hcol.
  rewrite (code_at_ok _ _ _ _ _ Hready row col Hrow) by lia.
  reflexivity.
Qed.

Lemma count_rows_events (R : list N) (h : list N) :
  R ⊆ rows ->
  foldM (simd.count_row data n_cols n_bins) R h
  = foldM count_apply (row_major cev n_cols R) h.
Proof using Hready.
  intros HR. unfold row_major. rewrite foldM_flat_map.
  apply foldM_ext_in. intros row Hrow b.
  apply count_row_events, HR. assumption.
Qed.

Lemma count_chunk_events (k : nat) (h : list N) :
  8 * k + 8 <= length rows ->
  simd.count_chunk data rows n_cols n_bins h k
  = foldM count_apply (col_major cev n_cols (take 8 (drop (8 * k) rows))) h.
Proof using Hready.
  intros Hk. unfold simd.count_chunk, simd.chunk_rows.
  rewrite (mapR_at_index_seq rows (8 * k) 0 8) by lia.
  rewrite Nat.add_0_r. cbn [mbind result_bind].
  unfold col_major. rewrite foldM_flat_map.
  apply foldM_ext_in. intros col Hcol b. apply elem_of_seq in Hcol.
  rewrite (mapR_Ok_map _ (fun row => hist_code data n_cols row col)).
  - cbn [mbind result_bind]. rewrite !foldM_map. reflexivity.
  - intros row Hrow. apply (code_at_ok _ _ _ _ _ Hready); [|lia].
    apply (subseteq_drop (8 * k) rows), (subseteq_take 8). assumption.
Qed.

Lemma fallback_count_events :
  simd.compute_histogram_fallback data rows n_cols n_bins
  = foldM count_apply (row_major cev n_cols rows) counters.
Proof using Hready. apply count_rows_events. reflexivity. Qed.

Lemma avx2_count_events :
  simd.compute_histogram_avx2 data rows n_cols n_bins
  = foldM count_apply (chunked cev n_cols rows) counters.
Proof using Hready.
  unfold simd.compute_histogram_avx2, chunked.
  rewrite foldM_app, foldM_flat_map.
  rewrite (foldM_ext_in (simd.count_chunk data rows n_cols n_bins)
             (fun b k => foldM count_apply
                           (col_major cev n_cols
                                      (take 8 (drop (8 * k) rows))) b)).
  - destruct (foldM _ (seq 0 (length rows / 8)) counters);
      try reflexivity.
    cbn [mbind result_bind]. apply count_rows_events.
    apply subseteq_drop.
  - intros k Hk b. apply elem_of_seq in Hk.
    apply count_chunk_events.
    pose proof (Nat.Div0.mul_div_le (length rows) 8). lia.
Qed.

Lemma count_run (es : list (nat * N)) :
  (forall e, e ∈ es ->
             exists row col, e = cev row col /\ row ∈ rows /\ col < n_cols) ->
  foldM count_apply es counters = Ok (settle count_target tick es counters).
Proof using Hready.
  intros Hes.
  apply (run_events count_target tick es counters).
  intros e He. rewrite length_replicate.
  apply (event_in_range cev fst snd data n_cols n_bins
           (fun _ _ => eq_refl) (fun _ _ => eq_refl) rows n_rows Hready
           es e Hes He).
Qed.
End CountHistogram.

(** On a table of codes below [n_bins] and row indices inside the
    table, [simd::compute_histogram] (the variant without SIMD) returns
    [n_cols * n_bins] counters, and the counter of column [col] and bin
    [bin] is the number, modulo 2^32, of listed rows (repetitions
    counted) whose code in that column is [bin]. *)
Theorem compute_histogram_counts_rows (data rows : list N)
        (n_rows n_cols : nat) (n_bins : N) :
  codes_ready data rows n_rows n_cols n_bins ->
  exists hist,
    simd.compute_histogram_fallback data rows n_cols n_bins = Ok hist /\
    length hist = n_cols * N.to_nat n_bins /\
    forall col bin, col < n_cols -> (bin < n_bins)%N ->
      hist !! (col * N.to_nat n_bins + N.to_nat bin)
      = Some (wrap32 (N.of_nat
                        (length (rows_in_bin data n_cols rows col bin)))).
Proof.
  intros Hready.
  rewrite (fallback_count_events _ _ _ _ _ Hready).
  rewrite (count_run _ _ _ _ _ Hready)
    by apply (elem_of_row_major (count_event data n_cols)).
  eexists. split; [reflexivity|]. split.
  { rewrite settle_length. apply length_replicate. }
  intros col bin Hcol Hbin.
  rewrite (settle_lookup _ _ _ _ _ 0%N) by (apply lookup_replicate_2; nia).
  f_equal.
  rewrite (filter_cell_row_major (count_event data n_cols) fst snd
             data n_cols n_bins (fun _ _ => eq_refl) (fun _ _ => eq_refl)
             rows n_rows Hready col bin Hcol Hbin).
  change 0%N with (wrap32 0) at 1. rewrite tick_fold, length_map.
  reflexivity.
Qed.

Lemma compute_histogram_counts_rows_witness :
  codes_ready Ex.codes Ex.twelve_rows 10 2 3 /\
  exists hist,
    simd.compute_histogram_fallback Ex.codes Ex.twelve_rows 2 3 = Ok hist /\
    length hist = 2 * N.to_nat 3 /\
    forall col bin, col < 2 -> (bin < 3)%N ->
      hist !! (col * N.to_nat 3 + N.to_nat bin)
      = Some (wrap32 (N.of_nat
                        (length (rows_in_bin Ex.codes 2 Ex.twelve_rows
                                             col bin)))).
Proof.
  assert (H : codes_ready Ex.codes Ex.twelve_rows 10 2 3)
    by (apply codes_ready_check; vm_compute; reflexivity).
  split; [exact H|].
  exact (compute_histogram_counts_rows Ex.codes Ex.twelve_rows 10 2 3 H).
Defined.

(** On such a table the AVX2 variant of [simd::compute_histogram],
    which visits the rows in chunks of eight and every chunk column by
    column, returns the same counters as the variant without SIMD. *)
Theorem compute_histogram_avx2_matches_fallback (data rows : list N)
        (n_rows n_cols : nat) (n_bins : N) :
  codes_ready data rows n_rows n_cols n_bins ->
  exists hist,
    simd.compute_histogram_avx2 data rows n_cols n_bins = Ok hist /\
    simd.compute_histogram_fallback data rows n_cols n_bins = Ok hist.
Proof.
  intros Hready.
  rewrite (fallback_count_events _ _ _ _ _ Hready).
  rewrite (avx2_count_events _ _ _ _ _ Hready).
  rewrite !(count_run _ _ _ _ _ Hready)
    by (apply (elem_of_row_major (count_event data n_cols))
        || apply (elem_of_chunked (count_event data n_cols))).
  eexists. split; [reflexivity|]. f_equal. symmetry.
  apply settle_ext. intros k Hk. rewrite length_replicate in Hk.
  apply (chunked_same_cells (count_event data n_cols) fst snd
           data n_cols n_bins (fun _ _ => eq_refl) (fun _ _ => eq_refl)
           rows n_rows Hready k Hk).
Qed.

Lemma compute_histogram_avx2_matches_fallback_witness :
  codes_ready Ex.codes Ex.twelve_rows 10 2 3 /\
  exists hist,
    simd.compute_histogram_avx2 Ex.codes Ex.twelve_rows 2 3 = Ok hist /\
    simd.compute_histogram_fallback Ex.codes Ex.twelve_rows 2 3 = Ok hist.
Proof.
  assert (H : codes_ready Ex.codes Ex.twelve_rows 10 2 3)
    by (apply codes_ready_check; vm_compute; reflexivity).
  split; [exact H|].
  exact (compute_histogram_avx2_matches_fallback
           Ex.codes Ex.twelve_rows 10 2 3 H).
Defined.

Lemma at_index_nth {A} (l : list A) (i : nat) (d : A) :
  i < length l -> at_index l i = Ok (nth i l d).
Proof.
  intros Hi. apply at_index_Ok.
  destruct (lookup_lt_is_Some_2 l i Hi) as (x & Hx).
  rewrite Hx. f_equal. symmetry. apply nth_lookup_Some with (d := d) in Hx.
  assumption.
Qed.

Lemma zip_map3 {A B C D} (f : A -> B) (g : A -> C) (h : A -> D)
      (l : list A) :
  zip (map f l) (zip (map g l) (map h l))
  = map (fun x => (f x, (g x, h x))) l.
Proof. induction l as [|a l IH]; simpl; [reflexivity|]. f_equal. exact IH. Qed.

Section GradientHistogram.
Variables (data rows : list N) (n_rows n_cols : nat) (n_bins : N).
Variables gradients hessians : list float.
Hypothesis Hready : codes_ready data rows n_rows n_cols n_bins.
Hypothesis Hg : n_rows <= length gradients.
Hypothesis Hh : n_rows <= length hessians.

#[local] Abbreviation grad_target :=
  (fun e : cell_event => ev_col e * N.to_nat n_bins + N.to_nat (ev_bin e)).
#[local] Abbreviation grad_apply :=
  (fun (h : list float * list float) (e : cell_event) =>
     simd.accumulate_at n_bins h (ev_col e) (ev_bin e)
                        (ev_grad e) (ev_hess e)).
#[local] Abbreviation add_grad :=
  (fun (x : float) (e : cell_event) => F32.add x (ev_grad e)).
#[local] Abbreviation add_hess :=
  (fun (x : float) (e : cell_event) => F32.add x (ev_hess e)).
#[local] Abbreviation gev := (grad_event data n_cols gradients hessians).
#[local] Abbreviation zeros :=
  (replicate (n_cols * N.to_nat n_bins) F32.zero).

Lemma run_events2 (es : list cell_event) (gh hh : list float) :
  (forall e, e ∈ es -> grad_target e < length gh) ->
  length hh = length gh ->
  foldM grad_apply es (gh, hh)
  = Ok (settle grad_target add_grad es gh,
        settle grad_target add_hess es hh).
Proof.
  revert gh hh. induction es as [|e es IH]; intros gh hh H Hlen.
  - simpl. rewrite !settle_nil. reflexivity.
  - cbn [foldM]. unfold simd.accumulate_at. cbn [fst snd].
    destruct (lookup_lt_is_Some_2 gh (grad_target e)) as (og & Hog).
    { apply H. left. }
    destruct (lookup_lt_is_Some_2 hh (grad_target e)) as (oh & Hoh).
    { rewrite Hlen. apply H. left. }
    apply at_index_Ok in Hog as Eg. apply at_index_Ok in Hoh as Eh.
    rewrite Eg, Eh. cbn [mbind result_bind].
    rewrite IH.
    + rewrite (settle_cons grad_target add_grad e es gh og Hog).
      rewrite (settle_cons grad_target add_hess e es hh oh Hoh).
      reflexivity.
    + intros e' He'. rewrite length_insert. apply H. right. assumption.
    + rewrite !length_insert. assumption.
Qed.

Lemma accumulate_row_events (h : list float * list float) (row : N) :
  row ∈ rows ->
  simd.accumulate_row data n_cols n_bins gradients hessians h row
  = foldM grad_apply (map (gev row) (seq 0 n_cols)) h.
Proof using Hready Hg Hh.
  intros Hrow. unfold simd.accumulate_row.
  pose proof (proj1 (proj2 Hready) row Hrow) as Hlt.
  rewrite (at_index_nth gradients _ F32.zero) by lia.
  rewrite (at_index_nth hessians _ F32.zero) by lia.
  cbn [mbind result_bind]. rewrite foldM_map.
  apply foldM_ext_in. intros col Hcol b. apply elem_of_seq in Hcol.
  rewrite (code_at_ok _ _ _ _ _ Hready row col Hrow) by lia.
  reflexivity.
Qed.

Lemma accumulate_rows_events (R : list N) (h : list float * list float) :
  R ⊆ rows ->
  foldM (simd.accumulate_row data n_cols n_bins gradients hessians) R h
  = foldM grad_apply (row_major gev n_cols R) h.
Proof using Hready Hg Hh.
  intros HR. unfold row_major. rewrite foldM_flat_map.
  apply foldM_ext_in. intros row Hrow b.
  apply accumulate_row_events, HR. assumption.
Qed.

Lemma accumulate_chunk_events (k : nat) (h : list float * list float) :
  8 * k + 8 <= length rows ->
  simd.accumulate_chunk data rows n_cols n_bins gradients hessians h k
  = foldM grad_apply
          (col_major gev n_cols (take 8 (drop (8 * k) rows))) h.
Proof using Hready Hg Hh.
  intros Hk. unfold simd.accumulate_chunk, simd.chunk_rows.
  rewrite (mapR_at_index_seq rows (8 * k) 0 8) by lia.
  rewrite Nat.add_0_r. cbn [mbind result_bind].
  assert (HR : take 8 (drop (8 * k) rows) ⊆ rows).
  { intros row Hrow.
    apply (subseteq_drop (8 * k) rows), (subseteq_take 8). assumption. }
  rewrite (mapR_Ok_map (fun row => at_index gradients (N.to_nat row))
             (fun row => nth (N.to_nat row) gradients F32.zero))
    by (intros row Hrow; apply at_index_nth;
        pose proof (proj1 (proj2 Hready) row (HR _ Hrow)); lia).
  cbn [mbind result_bind].
  rewrite (mapR_Ok_map (fun row => at_index hessians (N.to_nat row))
             (fun row => nth (N.to_nat row) hessians F32.zero))
    by (intros row Hrow; apply at_index_nth;
        pose proof (proj1 (proj2 Hready) row (HR _ Hrow)); lia).
  cbn [mbind result_bind].
  unfold col_major. rewrite foldM_flat_map.
  apply foldM_ext_in. intros col Hcol b. apply elem_of_seq in Hcol.
  rewrite (mapR_Ok_map _ (fun row => hist_code data n_cols row col))
    by (intros row Hrow; apply (code_at_ok _ _ _ _ _ Hready);
        [apply HR; assumption|lia]).
  cbn [mbind result_bind]. rewrite zip_map3, !foldM_map. reflexivity.
Qed.

Lemma fallback_gradient_events :
  simd.compute_gradient_histogram_fallback data rows n_cols n_bins
                                           gradients hessians
  = foldM grad_apply (row_major gev n_cols rows) (zeros, zeros).
Proof using Hready Hg Hh. apply accumulate_rows_events. reflexivity. Qed.

Lemma avx2_gradient_events :
  simd.compute_gradient_histogram_avx2 data rows n_cols n_bins
                                       gradients hessians
  = foldM grad_apply (chunked gev n_cols rows) (zeros, zeros).
Proof using Hready Hg Hh.
  unfold simd.compute_gradient_histogram_avx2, chunked.
  rewrite foldM_app, foldM_flat_map.
  rewrite (foldM_ext_in
             (simd.accumulate_chunk data rows n_cols n_bins
                                    gradients hessians)
             (fun b k => foldM grad_apply
                           (col_major gev n_cols
                                      (take 8 (drop (8 * k) rows))) b)).
  - destruct (foldM _ (seq 0 (length rows / 8)) (zeros, zeros));
      try reflexivity.
    cbn [mbind result_bind]. apply accumulate_rows_events.
    apply subseteq_drop.
  - intros k Hk b. apply elem_of_seq in Hk.
    apply accumulate_chunk_events.
    pose proof (Nat.Div0.mul_div_le (length rows) 8). lia.
Qed.

Lemma gradient_run (es : list cell_event) :
  (forall e, e ∈ es ->
             exists row col, e = gev row col /\ row ∈ rows /\ col < n_cols) ->
  foldM grad_apply es (zeros, zeros)
  = Ok (settle grad_target add_grad es zeros,
        settle grad_target add_hess es zeros).
Proof using Hready.
  intros Hes. apply run_events2; [|reflexivity].
  intros e He. rewrite length_replicate.
  apply (event_in_range gev ev_col ev_bin data n_cols n_bins
           (fun _ _ => eq_refl) (fun _ _ => eq_refl) rows n_rows Hready
           es e Hes He).
Qed.

Lemma add_grad_fold (c : nat) (l : list N) (x : float) :
  fold_left add_grad (map (fun row => gev row c) l) x
  = fold_left F32.add (values_at gradients l) x.
Proof.
  revert x. induction l as [|row l IH]; intros x; simpl; auto.
Qed.

Lemma add_hess_fold (c : nat) (l : list N) (x : float) :
  fold_left add_hess (map (fun row => gev row c) l) x
  = fold_left F32.add (values_at hessians l) x.
Proof.
  revert x. induction l as [|row l IH]; intros x; simpl; auto.
Qed.
End GradientHistogram.

(** On a table of codes below [n_bins], row indices inside the
    table and a gradient and a hessian for every row of the table,
    [simd::compute_gradient_histogram] (the variant without SIMD)
    returns two vectors of [n_cols * n_bins] cells; the cell of column
    [col] and bin [bin] holds the gradients (the hessians) of the
    listed rows whose code in that column is [bin], added to [0.0f]
    one after the other in the order of the list. *)
Theorem compute_gradient_histogram_sums_rows_in_order
        (data rows : list N) (n_rows n_cols : nat) (n_bins : N)
        (gradients hessians : list float) :
  codes_ready data rows n_rows n_cols n_bins ->
  n_rows <= length gradients -> n_rows <= length hessians ->
  exists gh hh,
    simd.compute_gradient_histogram_fallback data rows n_cols n_bins
                                             gradients hessians
    = Ok (gh, hh) /\
    length gh = n_cols * N.to_nat n_bins /\
    length hh = n_cols * N.to_nat n_bins /\
    forall col bin, col < n_cols -> (bin < n_bins)%N ->
      gh !! (col * N.to_nat n_bins + N.to_nat bin)
      = Some (fold_left F32.add
                (values_at gradients (rows_in_bin data n_cols rows col bin))
                F32.zero) /\
      hh !! (col * N.to_nat n_bins + N.to_nat bin)
      = Some (fold_left F32.add
                (values_at hessians (rows_in_bin data n_cols rows col bin))
                F32.zero).
Proof.
  intros Hready Hg Hh.
  rewrite (fallback_gradient_events _ _ _ _ _ _ _ Hready Hg Hh).
  rewrite (gradient_run _ _ _ _ _ _ _ Hready)
    by apply (elem_of_row_major
                (grad_event data n_cols gradients hessians)).
  eexists _, _. split; [reflexivity|].
  split; [rewrite settle_length; apply length_replicate|].
  split; [rewrite settle_length; apply length_replicate|].
  intros col bin Hcol Hbin.
  rewrite !(settle_lookup _ _ _ _ _ F32.zero)
    by (apply lookup_replicate_2; nia).
  rewrite !(filter_cell_row_major
              (grad_event data n_cols gradients hessians) ev_col ev_bin
              data n_cols n_bins (fun _ _ => eq_refl) (fun _ _ => eq_refl)
              rows n_rows Hready col bin Hcol Hbin).
  rewrite add_grad_fold, add_hess_fold. split; reflexivity.
Qed.

Lemma compute_gradient_histogram_sums_rows_in_order_witness :
  codes_ready Ex.codes Ex.twelve_rows 10 2 3 /\
  10 <= length Ex.ten_values /\
  exists gh hh,
    simd.compute_gradient_histogram_fallback
      Ex.codes Ex.twelve_rows 2 3 Ex.ten_values Ex.ten_values
    = Ok (gh, hh) /\
    length gh = 2 * N.to_nat 3 /\
    length hh = 2 * N.to_nat 3 /\
    forall col bin, col < 2 -> (bin < 3)%N ->
      gh !! (col * N.to_nat 3 + N.to_nat bin)
      = Some (fold_left F32.add
                (values_at Ex.ten_values
                           (rows_in_bin Ex.codes 2 Ex.twelve_rows col bin))
                F32.zero) /\
      hh !! (col * N.to_nat 3 + N.to_nat bin)
      = Some (fold_left F32.add
                (values_at Ex.ten_values
                           (rows_in_bin Ex.codes 2 Ex.twelve_rows col bin))
                F32.zero).
Proof.
  assert (H : codes_ready Ex.codes Ex.twelve_rows 10 2 3)
    by (apply codes_ready_check; vm_compute; reflexivity).
  assert (Hl : 10 <= length Ex.ten_values) by (simpl; lia).
  split; [exact H|]. split; [exact Hl|].
  exact (compute_gradient_histogram_sums_rows_in_order
           Ex.codes Ex.twelve_rows 10 2 3 Ex.ten_values Ex.ten_values
           H Hl Hl).
Defined.

(** On such inputs the AVX2 variant of
    [simd::compute_gradient_histogram] returns bit for bit the two
    vectors of the variant without SIMD: inside a chunk it goes column
    by column, but every cell still receives its rows in list order. *)
Theorem compute_gradient_histogram_avx2_matches_fallback
        (data rows : list N) (n_rows n_cols : nat) (n_bins : N)
        (gradients hessians : list float) :
  codes_ready data rows n_rows n_cols n_bins ->
  n_rows <= length gradients -> n_rows <= length hessians ->
  exists h,
    simd.compute_gradient_histogram_avx2 data rows n_cols n_bins
                                         gradients hessians = Ok h /\
    simd.compute_gradient_histogram_fallback data rows n_cols n_bins
                                             gradients hessians = Ok h.
Proof.
  intros Hready Hg Hh.
  rewrite (fallback_gradient_events _ _ _ _ _ _ _ Hready Hg Hh).
  rewrite (avx2_gradient_events _ _ _ _ _ _ _ Hready Hg Hh).
  rewrite !(gradient_run _ _ _ _ _ _ _ Hready)
    by (apply (elem_of_row_major
                 (grad_event data n_cols gradients hessians))
        || apply (elem_of_chunked
                    (grad_event data n_cols gradients hessians))).
  eexists. split; [reflexivity|].
  assert (Hcells : forall k, k < n_cols * N.to_nat n_bins ->
            filter (fun e => ev_col e * N.to_nat n_bins
                             + N.to_nat (ev_bin e) = k)
                   (row_major (grad_event data n_cols gradients hessians)
                              n_cols rows)
            = filter (fun e => ev_col e * N.to_nat n_bins
                               + N.to_nat (ev_bin e) = k)
                     (chunked (grad_event data n_cols gradients hessians)
                              n_cols rows)).
  { intros k Hk. symmetry.
    apply (chunked_same_cells
             (grad_event data n_cols gradients hessians) ev_col ev_bin
             data n_cols n_bins (fun _ _ => eq_refl) (fun _ _ => eq_refl)
             rows n_rows Hready k Hk). }
  f_equal. f_equal.
  - apply settle_ext. intros k Hk. rewrite length_replicate in Hk. auto.
  - apply settle_ext. intros k Hk. rewrite length_replicate in Hk. auto.
Qed.

Lemma compute_gradient_histogram_avx2_matches_fallback_witness :
  codes_ready Ex.codes Ex.twelve_rows 10 2 3 /\
  10 <= length Ex.ten_values /\
  exists h,
    simd.compute_gradient_histogram_avx2
      Ex.codes Ex.twelve_rows 2 3 Ex.ten_values Ex.ten_values = Ok h /\
    simd.compute_gradient_histogram_fallback
      Ex.codes Ex.twelve_rows 2 3 Ex.ten_values Ex.ten_values = Ok h.
Proof.
  assert (H : codes_ready Ex.codes Ex.twelve_rows 10 2 3)
    by (apply codes_ready_check; vm_compute; reflexivity).
  assert (Hl : 10 <= length Ex.ten_values) by (simpl; lia).
  split; [exact H|]. split; [exact Hl|].
  exact (compute_gradient_histogram_avx2_matches_fallback
           Ex.codes Ex.twelve_rows 10 2 3 Ex.ten_values Ex.ten_values
           H Hl Hl).
Defined.
(* ===================================================================== *)
(** ** The node ids of the XGBoost export *)
(* ===================================================================== *)

Lemma forest_length_le (q : forest) : length q <= fsize q.
Proof.
  induction q as [|[b t] q IH]; simpl; [lia|].
  pose proof (psize_pos t). lia.
Qed.

Lemma bfs_order_step (fuel : nat) (bt : nat * ptree) (q : forest) :
  bfs_order (S fuel) (bt :: q) = fst bt :: bfs_order fuel (q ++ pchildren bt).
Proof.
  destruct bt as [b [d w | d f th g l r]]; simpl.
  - unfold pchildren. simpl. rewrite app_nil_r. reflexivity.
  - reflexivity.
Qed.

(** The queue is served in order: the roots of the queue come first. *)
Lemma bfs_order_roots (q : forest) : forall fuel r,
  length q <= fuel ->
  bfs_order fuel (q ++ r)
  = map fst q
    ++ bfs_order (fuel - length q) (r ++ concat (map pchildren q)).
Proof.
  induction q as [|bt q IH]; intros fuel r Hf.
  - simpl. rewrite Nat.sub_0_r, app_nil_r. reflexivity.
  - destruct fuel as [|fuel]; [simpl in Hf; lia|].
    simpl in Hf. rewrite <- app_comm_cons, bfs_order_step.
    rewrite <- app_assoc, IH by lia.
    simpl. rewrite <- app_assoc. reflexivity.
Qed.

Lemma fsize_pchildren (bt : nat * ptree) :
  fsize (pchildren bt) + 1 = psize (snd bt).
Proof.
  destruct bt as [b [d w | d f th g l r]]; unfold pchildren; simpl; lia.
Qed.

Lemma subtrees_cases (b : nat) (t : ptree) (x : nat * ptree) :
  x ∈ subtrees b t ->
  x = (b, t) \/ exists c, c ∈ pchildren (b, t) /\ x ∈ subtrees (fst c) (snd c).
Proof.
  destruct t as [d w | d f th g l r]; simpl; intros Hx.
  - apply elem_of_cons in Hx as [->|Hx]; [left; reflexivity|inversion Hx].
  - apply elem_of_cons in Hx as [->|Hx]; [left; reflexivity|].
    right. apply elem_of_app in Hx as [Hx|Hx].
    + exists (S b, l). split; [left|exact Hx].
    + exists (S b + psize l, r). split; [right; left|exact Hx].
Qed.

(** An internal node is numbered before its children, and its two
    children are numbered one right after the other. *)
Lemma bfs_children_adjacent (fuel : nat) : forall (q : forest),
  fsize q <= fuel ->
  forall bt b d f th g l r,
    bt ∈ q -> (b, PNode d f th g l r) ∈ subtrees (fst bt) (snd bt) ->
    exists p c,
      bfs_order fuel q !! p = Some b /\
      bfs_order fuel q !! c = Some (S b) /\
      bfs_order fuel q !! S c = Some (S b + psize l) /\
      p < c.
Proof.
  induction fuel as [|fuel IH]; intros q Hf bt b d f th g l r Hbt Hsub.
  - destruct q as [|[b0 t0] q]; [inversion Hbt|].
    simpl in Hf. pose proof (psize_pos t0). lia.
  - destruct q as [|bt0 q]; [inversion Hbt|].
    rewrite bfs_order_step.
    assert (Hf' : fsize (q ++ pchildren bt0) <= fuel).
    { rewrite fsize_app. pose proof (fsize_pchildren bt0).
      simpl in Hf. lia. }
    assert (Hnext : forall bt', bt' ∈ q ++ pchildren bt0 ->
              (b, PNode d f th g l r) ∈ subtrees (fst bt') (snd bt') ->
              exists p c,
                (fst bt0 :: bfs_order fuel (q ++ pchildren bt0)) !! p = Some b /\
                (fst bt0 :: bfs_order fuel (q ++ pchildren bt0)) !! c
                = Some (S b) /\
                (fst bt0 :: bfs_order fuel (q ++ pchildren bt0)) !! S c
                = Some (S b + psize l) /\
                p < c).
    { intros bt' Hbt' Hsub'.
      destruct (IH _ Hf' bt' b d f th g l r Hbt' Hsub')
        as (p & c & Hp & Hc & Hc' & Hlt).
      exists (S p), (S c). simpl. repeat split; try assumption. lia. }
    apply elem_of_cons in Hbt as [->|Hbt].
    + destruct bt0 as [b0 t0]. simpl in Hsub.
      apply subtrees_cases in Hsub as [Heq|(c & Hc & Hsub)].
      * injection Heq as <- <-.
        change (pchildren (b, PNode d f th g l r))
          with [(S b, l); (S b + psize l, r)] in *.
        change (fst (b, PNode d f th g l r)) with b.
        pose proof (bfs_order_roots (q ++ [(S b, l); (S b + psize l, r)])
                                    fuel []) as E.
        rewrite app_nil_r in E. rewrite E
          by (etransitivity; [apply forest_length_le|exact Hf']).
        rewrite map_app.
        change (map fst [(S b, l); (S b + psize l, r)])
          with [S b; S b + psize l].
        rewrite <- app_assoc.
        exists 0, (S (length q)).
        split; [reflexivity|].
        split; [|split; [|lia]].
        -- rewrite lookup_cons.
           rewrite lookup_app_r by (rewrite length_map; lia).
           rewrite length_map, Nat.sub_diag. reflexivity.
        -- rewrite lookup_cons.
           rewrite lookup_app_r by (rewrite length_map; lia).
           rewrite length_map.
           replace (S (length q) - length q) with 1 by lia. reflexivity.
      * apply (Hnext c); [|assumption].
        apply elem_of_app. right. assumption.
    + apply (Hnext bt); [|assumption].
      apply elem_of_app. left. assumption.
Qed.

(** An internal node of a layout, as a subtree with its two children. *)
Lemma layout_subtree (t : ptree) : forall base i nd,
  layout base t !! i = Some nd -> is_leaf nd = false ->
  exists d f th g l r,
    (base + i, PNode d f th g l r) ∈ subtrees base t /\
    left_child nd = N.of_nat (S (base + i)) /\
    right_child nd = N.of_nat (S (base + i) + psize l).
Proof.
  induction t as [d w | d f th g l IHl r IHr]; intros base i nd H Hleaf.
  - destruct i; simpl in H; [|discriminate].
    injection H as <-. discriminate.
  - destruct i as [|i].
    + simpl in H. injection H as <-.
      exists d, f, th, g, l, r. rewrite Nat.add_0_r.
      split; [simpl; left|]. split; reflexivity.
    + destruct (Nat.lt_ge_cases i (psize l)) as [Hi|Hi].
      * rewrite layout_node_left in H by assumption.
        destruct (IHl _ _ _ H Hleaf) as (d' & f' & th' & g' & l' & r' & Hs & Hl & Hr).
        replace (S base + i) with (base + S i) in * by lia.
        exists d', f', th', g', l', r'.
        split; [|split; assumption].
        simpl. right. apply elem_of_app. left. assumption.
      * rewrite layout_node_right in H by assumption.
        destruct (IHr _ _ _ H Hleaf) as (d' & f' & th' & g' & l' & r' & Hs & Hl & Hr).
        replace (S base + psize l + (i - psize l)) with (base + S i) in *
          by lia.
        exists d', f', th', g', l', r'.
        split; [|split; assumption].
        simpl. right. apply elem_of_app. right. assumption.
Qed.

(** The node ids that [Tree::to_xgboost_json] writes for a tree
    laid out by [Tree::build] number the nodes breadth first: the root
    gets id 0, the "yes" child of a split gets an id above the split's
    own, and the "no" child (also written as "missing") the id right
    after the "yes" child's. *)
Theorem xgboost_ids_are_breadth_first (t : ptree) (cfg : GBDTConfig)
        (fuel : nat) :
  psize t <= fuel -> (N.of_nat (psize t) < 2 ^ 32)%N ->
  exists node_map,
    Tree.to_xgboost_json fuel (Tree.mk (layout 0 t) cfg)
    = Ok (JObject [("nodes",
                    JArray (imap (Tree.node_to_json node_map) (layout 0 t)))])
    /\ Tree.map_at node_map 0 = 0%N
    /\ forall i nd,
         layout 0 t !! i = Some nd -> is_leaf nd = false ->
         (Tree.map_at node_map (N.of_nat i)
          < Tree.map_at node_map (left_child nd))%N /\
         Tree.map_at node_map (right_child nd)
         = (Tree.map_at node_map (left_child nd) + 1)%N.
Proof.
  intros Hf Hn.
  pose proof (bfs_order_layout t fuel Hf) as Hperm.
  assert (Hnd : NoDup (bfs_order fuel [(0, t)]))
    by (rewrite Hperm; apply NoDup_seq).
  exists (assign ∅ 0 (bfs_order fuel [(0, t)])).
  split; [|split].
  - unfold Tree.to_xgboost_json. simpl Tree.nodes.
    change [0%N] with (forest_roots [(0, t)]).
    rewrite bfs_forest; [reflexivity| | simpl; lia | simpl; lia].
    constructor; [apply embedded_self | constructor].
  - unfold Tree.map_at.
    rewrite (assign_lookup _ ∅ 0%N 0 0 Hnd); [reflexivity|].
    destruct fuel as [|fuel]; [pose proof (psize_pos t); lia|].
    rewrite bfs_order_step. reflexivity.
  - intros i nd Hi Hleaf.
    destruct (layout_subtree t 0 i nd Hi Hleaf)
      as (d & f & th & g & l & r & Hs & Hl & Hr).
    simpl in Hs, Hl, Hr.
    destruct (bfs_children_adjacent fuel [(0, t)] ltac:(simpl; lia)
                (0, t) i d f th g l r ltac:(left) Hs)
      as (p & c & Hp & Hc & Hc' & Hlt).
    unfold Tree.map_at. rewrite Hl, Hr.
    rewrite (assign_lookup _ ∅ 0%N p i Hnd Hp).
    rewrite (assign_lookup _ ∅ 0%N c (S i) Hnd Hc).
    rewrite (assign_lookup _ ∅ 0%N (S c) (S i + psize l) Hnd Hc').
    simpl. lia.
Qed.

Lemma xgboost_ids_are_breadth_first_witness :
  psize Ex.five_nodes <= 5 /\ (N.of_nat (psize Ex.five_nodes) < 2 ^ 32)%N /\
  exists node_map,
    Tree.to_xgboost_json 5 (Tree.mk (layout 0 Ex.five_nodes) Ex.cfg)
    = Ok (JObject [("nodes",
                    JArray (imap (Tree.node_to_json node_map)
                                 (layout 0 Ex.five_nodes)))])
    /\ Tree.map_at node_map 0 = 0%N
    /\ forall i nd,
         layout 0 Ex.five_nodes !! i = Some nd -> is_leaf nd = false ->
         (Tree.map_at node_map (N.of_nat i)
          < Tree.map_at node_map (left_child nd))%N /\
         Tree.map_at node_map (right_child nd)
         = (Tree.map_at node_map (left_child nd) + 1)%N.
Proof.
  assert (H1 : psize Ex.five_nodes <= 5) by (simpl; lia).
  assert (H2 : (N.of_nat (psize Ex.five_nodes) < 2 ^ 32)%N)
    by (vm_compute; reflexivity).
  split; [exact H1|]. split; [exact H2|].
  exact (xgboost_ids_are_breadth_first Ex.five_nodes Ex.cfg 5 H1 H2).
Defined.
(* ===================================================================== *)
(** ** The configurations that [validate] accepts *)
(* ===================================================================== *)

Lemma compare_nan_or (x y : float) :
  (F32.is_nan x = true \/ F32.is_nan y = true) \/
  exists c, SFcompare x y = Some c /\ SFcompare y x = Some (CompOpp c).
Proof.
  destruct (F32.is_nan x) eqn:Hx; [left; left; reflexivity|].
  destruct (F32.is_nan y) eqn:Hy; [left; right; reflexivity|].
  right. destruct (compare_total x y Hx Hy) as (c & Hc).
  exists c. split; [assumption|].
  rewrite SFcompare_antisym, Hc. reflexivity.
Qed.

Lemma compare_nan (x y : float) :
  F32.is_nan x = true \/ F32.is_nan y = true -> SFcompare x y = None.
Proof. destruct x, y; simpl; intros [H|H]; try discriminate; reflexivity. Qed.

Lemma leb_false_iff (x y : float) :
  F32.leb x y = false <->
  F32.is_nan x = true \/ F32.is_nan y = true \/ F32.ltb y x = true.
Proof.
  unfold F32.leb, SFleb, F32.ltb, SFltb.
  destruct (compare_nan_or x y) as [Hn|(c & H1 & H2)].
  - rewrite (compare_nan x y Hn). split; [tauto|reflexivity].
  - rewrite H1, H2.
    assert (F32.is_nan x = false /\ F32.is_nan y = false) as [Hx Hy].
    { destruct x, y; simpl in *; try discriminate; auto. }
    rewrite Hx, Hy.
    destruct c; simpl; split; intros H; try discriminate; auto;
      destruct H as [H|[H|H]]; discriminate.
Qed.

Lemma ltb_false_iff (x y : float) :
  F32.ltb x y = false <->
  F32.is_nan x = true \/ F32.is_nan y = true \/ F32.leb y x = true.
Proof.
  unfold F32.leb, SFleb, F32.ltb, SFltb.
  destruct (compare_nan_or x y) as [Hn|(c & H1 & H2)].
  - rewrite (compare_nan x y Hn). split; [tauto|reflexivity].
  - rewrite H1, H2.
    assert (F32.is_nan x = false /\ F32.is_nan y = false) as [Hx Hy].
    { destruct x, y; simpl in *; try discriminate; auto. }
    rewrite Hx, Hy.
    destruct c; simpl; split; intros H; try discriminate; auto;
      destruct H as [H|[H|H]]; discriminate.
Qed.

Lemma unit_test_iff (x : float) :
  F32.leb x F32.zero || F32.gtb x F32.one = false <-> in_unit_or_nan x.
Proof.
  unfold in_unit_or_nan, F32.gtb.
  rewrite orb_false_iff, leb_false_iff, ltb_false_iff.
  change (F32.is_nan F32.zero) with false.
  change (F32.is_nan F32.one) with false.
  intuition discriminate.
Qed.

Lemma positive_test_iff (x : float) :
  F32.leb x F32.zero = false <-> positive_or_nan x.
Proof.
  unfold positive_or_nan. rewrite leb_false_iff.
  change (F32.is_nan F32.zero) with false. intuition discriminate.
Qed.

Lemma not_negative_test_iff (x : float) :
  F32.ltb x F32.zero = false <-> not_negative_or_nan x.
Proof.
  unfold not_negative_or_nan. rewrite ltb_false_iff.
  change (F32.is_nan F32.zero) with false. intuition discriminate.
Qed.

Lemma validate_tests (c : GBDTConfig) :
  validate c
  = negb (n_rounds c =? 0)%N
    && negb (F32.leb (learning_rate c) F32.zero
             || F32.gtb (learning_rate c) F32.one)
    && negb ((max_depth c =? 0)%N || (32 <? max_depth c)%N)
    && negb (min_data_in_leaf c =? 0)%N
    && negb (F32.leb (min_child_weight c) F32.zero)
    && negb (F32.ltb (reg_lambda c) F32.zero)
    && negb ((n_bins c =? 0)%N || (256 <? n_bins c)%N)
    && negb (F32.leb (subsample c) F32.zero
             || F32.gtb (subsample c) F32.one)
    && negb (F32.leb (colsample c) F32.zero
             || F32.gtb (colsample c) F32.one).
Proof.
  unfold validate.
  repeat match goal with
         | |- (if ?b then false else _) = _ =>
             destruct b; [simpl; rewrite ?andb_false_r; reflexivity|]
         end.
  reflexivity.
Qed.

(** [GBDTConfig::validate] accepts a configuration exactly when
    the four counts are in their ranges ([n_rounds] and
    [min_data_in_leaf] at least 1, [max_depth] in 1..32, [n_bins] in
    1..256) and no [float] option is a number outside its range:
    [learning_rate], [subsample] and [colsample] in (0, 1],
    [min_child_weight] above 0, [reg_lambda] at least 0.  A NaN in any
    of the five passes. *)
Theorem validate_accepts_ranges_and_nan (c : GBDTConfig) :
  validate c = true <->
  (1 <= n_rounds c)%N /\
  in_unit_or_nan (learning_rate c) /\
  (1 <= max_depth c <= 32)%N /\
  (1 <= min_data_in_leaf c)%N /\
  positive_or_nan (min_child_weight c) /\
  not_negative_or_nan (reg_lambda c) /\
  (1 <= n_bins c <= 256)%N /\
  in_unit_or_nan (subsample c) /\
  in_unit_or_nan (colsample c).
Proof.
  rewrite validate_tests. rewrite !andb_true_iff, !negb_true_iff.
  rewrite !unit_test_iff, positive_test_iff, not_negative_test_iff.
  rewrite !orb_false_iff, !N.eqb_neq, !N.ltb_ge.
  intuition lia.
Qed.
(* ===================================================================== *)
(** ** The feature that [Tree::find_best_split] chooses *)
(* ===================================================================== *)

(** The scan of lines 245-250 keeps the first candidate of greatest
    gain. *)
Lemma pick_best_first (cands : list SplitInfo) : forall init,
  F32.is_nan (split_gain init) = false ->
  let s := fold_left Tree.pick_best cands init in
  F32.is_nan (split_gain s) = false /\
  F32.gtb (split_gain init) (split_gain s) = false /\
  (forall c, c ∈ cands -> F32.gtb (split_gain c) (split_gain s) = false) /\
  (s = init \/
   exists k, cands !! k = Some s /\
             F32.gtb (split_gain s) (split_gain init) = true /\
             forall k' c, k' < k -> cands !! k' = Some c ->
                          F32.leb (split_gain s) (split_gain c) = false).
Proof.
  induction cands as [|c cs IH]; intros init Hinit; cbn zeta.
  - simpl. split; [assumption|]. split; [apply gtb_irrefl|].
    split; [intros c Hc; inversion Hc|]. left. reflexivity.
  - cbn [fold_left].
    destruct (F32.gtb (split_gain c) (split_gain init)) eqn:Hc.
    + assert (Ep : Tree.pick_best init c = c)
        by (unfold Tree.pick_best; rewrite Hc; reflexivity).
      rewrite Ep.
      pose proof (ltb_is_nan _ _ Hc) as [_ Hcn].
      destruct (IH c Hcn) as (Hs & Hcs & Hall & Hfirst).
      set (s := fold_left Tree.pick_best cs c) in *.
      split; [assumption|]. split; [|split].
      * unfold F32.gtb in *.
        destruct (F32.ltb (split_gain s) (split_gain init)) eqn:E;
          [|reflexivity].
        rewrite (ltb_trans _ _ _ E Hc) in Hcs. discriminate.
      * intros c' Hc'. apply elem_of_cons in Hc' as [->|Hc']; auto.
      * right. destruct Hfirst as [->|(k & Hk & Hgt & Hbefore)].
        -- exists 0. split; [reflexivity|]. split; [assumption|].
           intros k' c' Hk'. lia.
        -- exists (S k). split; [assumption|]. split.
           ++ unfold F32.gtb in *. eapply ltb_trans; eassumption.
           ++ intros [|k'] c' Hk' Hc'; simpl in Hc'.
              ** injection Hc' as <-. apply ltb_not_leb. exact Hgt.
              ** apply (Hbefore k'); [lia|assumption].
    + assert (Ep : Tree.pick_best init c = init)
        by (unfold Tree.pick_best; rewrite Hc; reflexivity).
      rewrite Ep.
      destruct (IH init Hinit) as (Hs & Hcs & Hall & Hfirst).
      set (s := fold_left Tree.pick_best cs init) in *.
      split; [assumption|]. split; [assumption|]. split.
      * intros c' Hc'. apply elem_of_cons in Hc' as [->|Hc']; auto.
        unfold F32.gtb in *.
        destruct (F32.ltb (split_gain s) (split_gain c)) eqn:E;
          [|reflexivity].
        pose proof (ltb_false_leb _ _ Hinit Hs Hcs) as Hle.
        rewrite (leb_ltb_trans _ _ _ Hle E) in Hc. discriminate.
      * destruct Hfirst as [->|(k & Hk & Hgt & Hbefore)];
          [left; reflexivity|].
        right. exists (S k). split; [assumption|]. split; [assumption|].
        intros [|k'] c' Hk' Hc'; simpl in Hc'.
        -- injection Hc' as <-.
           destruct (F32.leb (split_gain s) (split_gain c)) eqn:E;
             [|reflexivity].
           unfold F32.gtb in *.
           rewrite (ltb_leb_trans _ _ _ Hgt E) in Hc. discriminate.
        -- apply (Hbefore k'); [lia|assumption].
Qed.

(** Among the per-feature candidates, [Tree::find_best_split]
    returns the first one of greatest gain: no feature's candidate has
    a gain greater than the returned one, and a returned valid split is
    the candidate of a feature [f] such that no feature before [f] has
    a candidate with a gain as great.  Ties go to the lowest feature
    index, and a NaN gain is never chosen. *)
Theorem find_best_split_takes_first_best_feature
        (fbs : simd.finder) (cfg : GBDTConfig) (data : DataMatrix)
        (gradients hessians : list float) (rows : list N) (GT HT : float)
        (s : SplitInfo) :
  Tree.find_best_split fbs cfg data gradients hessians rows GT HT = Ok s ->
  F32.is_nan (split_gain s) = false /\
  (forall f c, f < n_cols data ->
     Tree.feature_split fbs cfg data gradients hessians rows GT HT f = Ok c ->
     F32.gtb (split_gain c) (split_gain s) = false) /\
  (is_valid s = true ->
   exists f, f < n_cols data /\
     Tree.feature_split fbs cfg data gradients hessians rows GT HT f = Ok s /\
     forall f' c, f' < f ->
       Tree.feature_split fbs cfg data gradients hessians rows GT HT f'
       = Ok c ->
       F32.leb (split_gain s) (split_gain c) = false).
Proof.
  unfold Tree.find_best_split. intros E. inv_bind E. injection E as <-.
  rename a into cands.
  assert (Hlook : forall f, f < n_cols data ->
            exists c, cands !! f = Some c /\
              Tree.feature_split fbs cfg data gradients hessians rows GT HT f
              = Ok c).
  { intros f Hf. apply (mapR_Ok_lookup _ _ _ f f Ha).
    apply lookup_seq. split; [reflexivity|assumption]. }
  destruct (pick_best_first cands default_split eq_refl)
    as (Hs & _ & Hall & Hfirst).
  split; [assumption|]. split.
  - intros f c Hf Hc. destruct (Hlook f Hf) as (c' & Hc' & E).
    rewrite Hc in E. injection E as <-.
    apply Hall. eapply list_elem_of_lookup_2. eassumption.
  - intros Hv. destruct Hfirst as [E|(k & Hk & _ & Hbefore)].
    { rewrite E in Hv. discriminate. }
    assert (Hlt : k < n_cols data).
    { apply lookup_lt_Some in Hk.
      rewrite (mapR_Ok_length _ _ _ Ha), length_seq in Hk. assumption. }
    exists k. split; [assumption|]. split.
    + destruct (Hlook k Hlt) as (c' & Hc' & E). congruence.
    + intros f' c Hf' Hc.
      destruct (Hlook f' ltac:(lia)) as (c' & Hc' & E).
      rewrite Hc in E. injection E as <-.
      apply (Hbefore f'); assumption.
Qed.

Lemma find_best_split_takes_first_best_feature_witness :
  exists s,
    Tree.find_best_split simd.find_best_split_fallback Ex.two_round_cfg
                         Ex.twin_binned Ex.twin_grad Ex.twin_hess
                         Ex.round_rows (Ex.fz 0) (Ex.fz 4)
    = Ok s /\
    is_valid s = true /\ split_feature_id s = 0%N /\
    (forall f c, f < n_cols Ex.twin_binned ->
       Tree.feature_split simd.find_best_split_fallback Ex.two_round_cfg
                          Ex.twin_binned Ex.twin_grad Ex.twin_hess
                          Ex.round_rows (Ex.fz 0) (Ex.fz 4) f
       = Ok c ->
       F32.gtb (split_gain c) (split_gain s) = false) /\
    exists f, f < n_cols Ex.twin_binned /\
      Tree.feature_split simd.find_best_split_fallback Ex.two_round_cfg
                         Ex.twin_binned Ex.twin_grad Ex.twin_hess
                         Ex.round_rows (Ex.fz 0) (Ex.fz 4) f
      = Ok s /\
      forall f' c, f' < f ->
        Tree.feature_split simd.find_best_split_fallback Ex.two_round_cfg
                           Ex.twin_binned Ex.twin_grad Ex.twin_hess
                           Ex.round_rows (Ex.fz 0) (Ex.fz 4) f'
        = Ok c ->
        F32.leb (split_gain s) (split_gain c) = false.
Proof.
  destruct (Tree.find_best_split simd.find_best_split_fallback
              Ex.two_round_cfg Ex.twin_binned Ex.twin_grad Ex.twin_hess
              Ex.round_rows (Ex.fz 0) (Ex.fz 4))
    as [s| | |] eqn:E; try (vm_compute in E; discriminate).
  assert (Hv : is_valid s = true)
    by (vm_compute in E; injection E as <-; reflexivity).
  assert (Hf : split_feature_id s = 0%N)
    by (vm_compute in E; injection E as <-; reflexivity).
  destruct (find_best_split_takes_first_best_feature _ _ _ _ _ _ _ _ _ E)
    as (_ & Hall & Hfirst).
  exists s. split; [reflexivity|]. split; [exact Hv|]. split; [exact Hf|].
  split; [exact Hall|]. exact (Hfirst Hv).
Defined.
(* ===================================================================== *)
(** ** The rows that sit on the threshold *)
(* ===================================================================== *)

(** The histogram and [Tree::split_rows] disagree on the rows whose
    value is the threshold.  After [create_bins], a cell whose value is
    edge [k] of its column has code [k + 1], so the sweep over the
    histogram counts the row on the right of a split after bin [k];
    the threshold of that split is edge [k] itself, and [split_rows]
    compares with [<=], so it sends the row to the left. *)
Theorem threshold_row_counted_right_routed_left
        (n_bins : N) (d d' : DataMatrix) (row col k : nat) (b : BinInfo)
        (th : float) (s : SplitInfo) (lr : list N * list N) :
  (n_bins < 2 ^ 32)%N ->
  create_bins n_bins d = Some d' ->
  row < n_rows d ->
  bin_info d' !! col = Some b ->
  length (splits b) < 256 ->
  splits b !! k = Some th ->
  features d !! (row * n_cols d + col) = Some th ->
  split_feature_id s = N.of_nat col ->
  split_threshold s = th ->
  N.to_nat (get_binned_feature d' row col) = S k /\
  Tree.split_step d' s lr (N.of_nat row)
  = Ok (fst lr ++ [N.of_nat row], snd lr).
Proof.
  intros Hn H Hr Hb Hlen Hk Hv Hf Hth.
  destruct (create_bins_column _ _ _ _ _ H Hb) as [Hc Hcol].
  destruct (create_bins_shape _ _ _ H) as (_ & Hcols & Hfeat).
  destruct (column_edges _ _ _ _ Hn Hcol) as (Ha & He & _ & _).
  assert (Hnn : Forall (fun e => F32.is_nan e = false) (splits b)).
  { apply Forall_forall. intros e Hes. apply He, column_values_elem in Hes.
    tauto. }
  assert (Hnan : F32.is_nan th = false).
  { rewrite Forall_forall in Hnn. apply Hnn.
    eapply list_elem_of_lookup_2. eassumption. }
  assert (Hrefl : F32.leb th th = true).
  { apply ltb_false_leb; try assumption. apply gtb_irrefl. }
  assert (Hget : get_feature d row col = th).
  { unfold get_feature. apply list_lookup_total_correct. assumption. }
  split.
  - rewrite (binned_feature_code _ _ _ _ _ _ H Hr Hc Hb), Hget.
    unfold get_bin. rewrite Hnan.
    destruct (upper_bound_counts (splits b) th Ha Hnn Hnan) as [Hub Hi].
    assert (Hc1 : k < upper_bound (splits b) th)
      by (apply (Hi k th Hk); assumption).
    assert (Hc2 : upper_bound (splits b) th <= S k).
    { destruct (Nat.le_gt_cases (upper_bound (splits b) th) (S k))
        as [Hle|Hgt]; [assumption|exfalso].
      destruct (lookup_lt_is_Some_2 (splits b) (S k) ltac:(lia))
        as (e & He').
      assert (Hlt : F32.ltb th e = true)
        by (apply (ordered_lookup _ _ Ha k (S k) th e); [lia|assumption..]).
      apply ltb_not_leb in Hlt.
      rewrite (proj1 (Hi (S k) e He') Hgt) in Hlt. discriminate. }
    unfold wrap8, wrap32.
    rewrite (N.mod_small (N.of_nat _) (2 ^ 32))
      by (change (2 ^ 32)%N with 4294967296%N; lia).
    rewrite N.mod_small by (change (2 ^ 8)%N with 256%N; lia).
    lia.
  - unfold Tree.split_step, Tree.feature_at.
    rewrite Hf, !Nat2N.id, Hcols, Hfeat.
    apply at_index_Ok in Hv. rewrite Hv. simpl.
    rewrite Hnan, Hth, Hrefl. reflexivity.
Qed.

Lemma threshold_row_counted_right_routed_left_witness :
  exists d' b s,
    create_bins 8 Ex.twin_raw = Some d' /\
    bin_info d' !! 0 = Some b /\
    Tree.find_best_split simd.find_best_split_fallback Ex.two_round_cfg
                         d' Ex.twin_grad Ex.twin_hess
                         Ex.round_rows (Ex.fz 0) (Ex.fz 4) = Ok s /\
    bin_id s = 2%N /\
    splits b !! 2 = Some (split_threshold s) /\
    N.to_nat (get_binned_feature d' 2 0) = 3 /\
    Tree.split_step d' s ([0; 1]%N, []) 2%N = Ok ([0; 1; 2]%N, []).
Proof.
  destruct (create_bins 8 Ex.twin_raw) as [d'|] eqn:E;
    [|vm_compute in E; discriminate].
  destruct (bin_info d' !! 0) as [b|] eqn:Eb;
    [|vm_compute in E; injection E as <-; vm_compute in Eb; discriminate].
  destruct (Tree.find_best_split simd.find_best_split_fallback
              Ex.two_round_cfg d' Ex.twin_grad Ex.twin_hess
              Ex.round_rows (Ex.fz 0) (Ex.fz 4)) as [s| | |] eqn:Es;
    try (vm_compute in E; injection E as <-; vm_compute in Es; discriminate).
  assert (Hs : split_feature_id s = 0%N /\ bin_id s = 2%N /\
               split_threshold s = Ex.fz 3).
  { vm_compute in E. injection E as <-. vm_compute in Es.
    injection Es as <-. repeat split; vm_compute; reflexivity. }
  destruct Hs as (Hf & Hbin & Hth).
  assert (Hk : splits b !! 2 = Some (Ex.fz 3)).
  { vm_compute in E. injection E as <-. vm_compute in Eb.
    injection Eb as <-. vm_compute. reflexivity. }
  assert (Hlen : length (splits b) < 256).
  { vm_compute in E. injection E as <-. vm_compute in Eb.
    injection Eb as <-. vm_compute. lia. }
  exists d', b, s. split; [reflexivity|]. split; [exact Eb|].
  split; [exact Es|]. split; [exact Hbin|].
  split; [rewrite Hth; exact Hk|].
  apply (threshold_row_counted_right_routed_left
           8 Ex.twin_raw d' 2 0 2 b (Ex.fz 3) s ([0; 1]%N, []));
    try assumption.
  - vm_compute. reflexivity.
  - vm_compute. lia.
  - vm_compute. reflexivity.
Defined.
